(** * A shallow embedding of [circular_buffer<T>] (src/circular_buffer.h)

    The buffer is a record of the four data members of the C++ class.  Raw
    storage is a finite map from physical slot numbers to elements: a key
    of the map is a slot that holds a live object, a missing key is
    uninitialised memory.  Machine integers are integers of [Z] with the
    conversions of the C++ types written out.  An iterator is a buffer
    address and a logical index; it is resolved against the state of the
    buffer that is current when it is used.  The [while] loops of [insert]
    and [erase] run on fuel; the counting [for] loops are folds over their
    index range.

    Undefined behaviour (a read or a swap of a slot that holds no object, a
    pop of an empty buffer) gets the behaviour stated at the definition
    concerned; the theorems are about states and arguments for which it
    does not occur. *)

From Stdlib Require Import ZArith Lia.
From stdpp Require Import base option list list_numbers gmap.

Local Open Scope Z_scope.

(** ** Machine integers *)

(** [size_t]: 64 bits, unsigned. *)
Definition to_size_t (z : Z) : Z := z mod 2 ^ 64.
(** [ptrdiff_t]: 64 bits, two's complement. *)
Definition to_ptrdiff_t (z : Z) : Z := (z + 2 ^ 63) mod 2 ^ 64 - 2 ^ 63.
(** [int]: 32 bits, two's complement. *)
Definition to_int (z : Z) : Z := (z + 2 ^ 31) mod 2 ^ 32 - 2 ^ 31.

Definition INT_MAX : Z := 2 ^ 31 - 1.

(** ** Generic [while] loop, bounded by fuel.  [None]: the fuel ran out. *)
Fixpoint while_loop {S : Type} (fuel : nat) (cond : S → bool) (body : S → S)
    (s : S) : option S :=
  if cond s then
    match fuel with
    | O => None
    | Datatypes.S n => while_loop n cond body (body s)
    end
  else Some s.

(** ** Raw storage: [T* arr] *)
Section Storage.
Context {T : Type}.

(** [None] is [nullptr]; [Some m] is a block whose live slots are the
    keys of [m]. *)

(** Read of [a[i]]; [None] when the slot holds no live object. *)
Definition load (a : option (gmap Z T)) (i : Z) : option T :=
  match a with Some m => m !! i | None => None end.

(** [new (a + i) T(v)] *)
Definition construct_at (a : option (gmap Z T)) (i : Z) (v : T)
    : option (gmap Z T) :=
  match a with Some m => Some (<[i := v]> m) | None => None end.

(** [a[i].~T()] *)
Definition destroy_at (a : option (gmap Z T)) (i : Z) : option (gmap Z T) :=
  match a with Some m => Some (delete i m) | None => None end.

(** [new (a + i) T(src)] where [src] is itself read from storage; copying
    from a slot that is not live is undefined and leaves [a] as it is. *)
Definition copy_construct_at (a : option (gmap Z T)) (i : Z) (src : option T)
    : option (gmap Z T) :=
  match src with Some v => construct_at a i v | None => a end.

(** [std::swap(a[i], a[j])]; undefined unless both slots are live. *)
Definition swap_elems (a : option (gmap Z T)) (i j : Z) : option (gmap Z T) :=
  match load a i, load a j with
  | Some x, Some y => construct_at (construct_at a i y) j x
  | _, _ => a
  end.

End Storage.

(** ** The position abstraction: [node] and [basic_iterator] *)

(** [buf] is the address of the buffer the node refers to. *)
Record node := Node { buf : N; arr_index : Z }.
Record basic_iterator := Iter { nd : node }.

(** [operator+=(difference_type k)]: [nd.arr_index += k] in [size_t]. *)
Definition iter_add_assign (it : basic_iterator) (k : Z) : basic_iterator :=
  Iter (Node (buf (nd it)) (to_size_t (arr_index (nd it) + k))).
(** [operator-=(difference_type k)] *)
Definition iter_sub_assign (it : basic_iterator) (k : Z) : basic_iterator :=
  Iter (Node (buf (nd it)) (to_size_t (arr_index (nd it) - k))).
(** [operator+(it, k)], [operator-(it, k)] *)
Definition iter_plus (it : basic_iterator) (k : Z) := iter_add_assign it k.
Definition iter_minus (it : basic_iterator) (k : Z) := iter_sub_assign it k.
(** [operator++], [operator--] *)
Definition iter_incr (it : basic_iterator) := iter_add_assign it 1.
Definition iter_decr (it : basic_iterator) := iter_sub_assign it 1.
(** [operator-(a, b)]: [a.nd.arr_index - b.nd.arr_index] computed in
    [size_t] and returned as [difference_type]. *)
Definition iter_diff (a b : basic_iterator) : Z :=
  to_ptrdiff_t (to_size_t (arr_index (nd a) - arr_index (nd b))).

Definition iter_eq (a b : basic_iterator) : bool :=
  (buf (nd a) =? buf (nd b))%N && (arr_index (nd a) =? arr_index (nd b)).
Definition iter_ne (a b : basic_iterator) : bool := negb (iter_eq a b).
Definition iter_lt (a b : basic_iterator) : bool :=
  (buf (nd a) =? buf (nd b))%N && (arr_index (nd a) <? arr_index (nd b)).
Definition iter_gt (a b : basic_iterator) : bool :=
  (buf (nd a) =? buf (nd b))%N && (arr_index (nd a) >? arr_index (nd b)).
Definition iter_le (a b : basic_iterator) : bool :=
  (buf (nd a) =? buf (nd b))%N && (arr_index (nd a) <=? arr_index (nd b)).
Definition iter_ge (a b : basic_iterator) : bool :=
  (buf (nd a) =? buf (nd b))%N && (arr_index (nd a) >=? arr_index (nd b)).
(** [get_arr_index()] *)
Definition get_arr_index (it : basic_iterator) : Z := arr_index (nd it).

(** ** The storage core *)
Section CircularBuffer.
Context {T : Type}.

Record circular_buffer := Buffer {
  head : Z;                  (* int head *)
  sz : Z;                    (* size_t sz *)
  cap : Z;                   (* size_t cap *)
  arr : option (gmap Z T)    (* T* arr *)
}.

(** [circular_buffer()] *)
Definition empty_buffer : circular_buffer := Buffer 0 0 0 None.

Definition size (b : circular_buffer) : Z := sz b.
Definition capacity (b : circular_buffer) : Z := cap b.
Definition empty (b : circular_buffer) : bool := sz b =? 0.

(** [operator[](index)]: [arr[(head + index) % cap]]; the sum is taken
    in [size_t]. *)
Definition at_index (b : circular_buffer) (index : Z) : option T :=
  load (arr b) (to_size_t (to_size_t (head b) + index) mod cap b).

(** [int get_arr_pos(size_t index)] *)
Definition get_arr_pos (b : circular_buffer) (index : Z) : Z :=
  to_int (to_size_t (to_size_t (head b) + index) mod cap b).

(** [int tail()] *)
Definition tail (b : circular_buffer) : Z :=
  if sz b =? 0 then head b
  else to_int (to_size_t (to_size_t (head b) + sz b + cap b - 1) mod cap b).

(** Iterators are resolved against the state of the buffer they point to
    at the moment of the access: [b] is that state. *)
(** [operator*] and [operator->] *)
Definition iter_deref (b : circular_buffer) (it : basic_iterator) : option T :=
  load (arr b) (get_arr_pos b (arr_index (nd it))).

(** [begin()], [end()]; [this] is the address of the buffer. *)
Definition begin (this : N) (b : circular_buffer) : basic_iterator :=
  Iter (Node this 0).
Definition end_ (this : N) (b : circular_buffer) : basic_iterator :=
  Iter (Node this (sz b)).

(** [clear()]: the loop runs [it] from [begin()] to [end()], that is over
    the logical indices [0 .. sz-1], and destroys [*it]. *)
Definition clear (b : circular_buffer) : circular_buffer :=
  let a := foldl (λ a i, destroy_at a (get_arr_pos b i)) (arr b)
                 (seqZ 0 (sz b)) in
  Buffer 0 0 (cap b) a.

(** [copyToArray(dest)] for an element type whose copy constructor does
    not throw (the [catch] blocks are modelled in [Section Throwing]). *)
Definition copyToArray (b : circular_buffer) (dest : option (gmap Z T))
    : option (gmap Z T) :=
  if head b <=? tail b then
    foldl (λ d i, copy_construct_at d (to_size_t (i - head b)) (load (arr b) i))
          dest (seqZ (head b) (sz b))
  else
    let head_len := to_int (to_size_t (cap b - head b)) in
    let d1 :=
      foldl (λ d i, copy_construct_at d (to_size_t (i - head b)) (load (arr b) i))
            dest (seqZ (head b) (cap b - head b)) in
    foldl (λ d i, copy_construct_at d (to_size_t (i + head_len)) (load (arr b) i))
          d1 (seqZ 0 (tail b + 1)).

(** [increase_cap(new_cap)] *)
Definition increase_cap (b : circular_buffer) (new_cap : Z) : circular_buffer :=
  if new_cap >=? cap b then
    (* operator new((new_cap + 1) * sizeof(T)) *)
    let new_arr : option (gmap Z T) := Some ∅ in
    let old_sz := sz b in
    let new_arr := copyToArray b new_arr in
    let b1 := clear b in
    (* operator delete(arr) when arr != nullptr *)
    Buffer (head b1) old_sz (to_size_t (new_cap + 1)) new_arr
  else b.

(** [ensure_cap()] *)
Definition ensure_cap (b : circular_buffer) : circular_buffer :=
  if to_size_t (sz b + 1) >=? cap b then
    if cap b =? 0 then increase_cap b 2
    else increase_cap b (to_size_t (2 * (cap b - 1) + 1))
  else b.

(** [push_back(val)] *)
Definition push_back (b : circular_buffer) (val : T) : circular_buffer :=
  let b1 := ensure_cap b in
  let a :=
    if empty b1 then construct_at (arr b1) 0 val
    else construct_at (arr b1) (to_size_t (tail b1 + 1) mod cap b1) val in
  Buffer (head b1) (to_size_t (sz b1 + 1)) (cap b1) a.

(** [pop_back()] *)
Definition pop_back (b : circular_buffer) : circular_buffer :=
  Buffer (head b) (to_size_t (sz b - 1)) (cap b) (destroy_at (arr b) (tail b)).

(** [back()] *)
Definition back (b : circular_buffer) : option T := load (arr b) (tail b).

(** [push_front(val)] *)
Definition push_front (b : circular_buffer) (val : T) : circular_buffer :=
  let b1 := ensure_cap b in
  let h :=
    if negb (empty b1)
    then to_int (to_size_t (to_size_t (head b1) + cap b1 - 1) mod cap b1)
    else head b1 in
  Buffer h (to_size_t (sz b1 + 1)) (cap b1) (construct_at (arr b1) h val).

(** [pop_front()] *)
Definition pop_front (b : circular_buffer) : circular_buffer :=
  Buffer (to_int (to_size_t (head b + 1) mod cap b)) (to_size_t (sz b - 1))
         (cap b) (destroy_at (arr b) (head b)).

(** [front()] *)
Definition front (b : circular_buffer) : option T := load (arr b) (head b).

(** [reserve(desired_capacity)] *)
Definition reserve (b : circular_buffer) (desired_capacity : Z)
    : circular_buffer :=
  increase_cap b desired_capacity.

(** [swap(other)]: the pair is ([*this], [other]) after the call. *)
Definition swap (b other : circular_buffer)
    : circular_buffer * circular_buffer :=
  (Buffer (head other) (sz other) (cap other) (arr other),
   Buffer (head b) (sz b) (cap b) (arr b)).

(** [circular_buffer(circular_buffer const& other)]: [it] runs over the
    logical indices [0 .. other.sz-1]; copying from a slot that is not
    live is undefined and is skipped. *)
Definition copy_constructor (other_addr : N) (other : circular_buffer)
    : circular_buffer :=
  foldl (λ b i,
           match iter_deref other (Iter (Node other_addr i)) with
           | Some v => push_back b v
           | None => b
           end)
        (reserve empty_buffer (size other)) (seqZ 0 (sz other)).

(** [std::swap] applied to the elements two iterators refer to. *)
Definition iter_swap (b : circular_buffer) (x y : basic_iterator)
    : circular_buffer :=
  Buffer (head b) (sz b) (cap b)
         (swap_elems (arr b) (get_arr_pos b (arr_index (nd x)))
                     (get_arr_pos b (arr_index (nd y)))).

(** [insert(pos, val)]; returns the buffer and the returned iterator. *)
Definition insert (fuel : nat) (this : N) (b : circular_buffer)
    (pos : basic_iterator) (val : T)
    : option (circular_buffer * basic_iterator) :=
  if iter_diff pos (begin this b) <? iter_diff (end_ this b) pos then
    let b1 := push_front b val in
    while_loop fuel
      (λ s, iter_lt (snd s) pos)
      (λ s, let cur := snd s in
            let nxt := iter_plus cur 1 in
            (iter_swap (fst s) cur nxt, iter_incr cur))
      (b1, begin this b1)
  else
    let b1 := push_back b val in
    while_loop fuel
      (λ s, iter_gt (snd s) pos)
      (λ s, let cur := snd s in
            let prv := iter_minus cur 1 in
            (iter_swap (fst s) cur prv, iter_decr cur))
      (b1, iter_minus (end_ this b1) 1).

(** [erase(pos)] *)
Definition erase (fuel : nat) (this : N) (b : circular_buffer)
    (pos : basic_iterator) : option (circular_buffer * basic_iterator) :=
  let index := get_arr_index pos in
  if iter_diff pos (begin this b) <? iter_diff (end_ this b) pos then
    s ← while_loop fuel
          (λ s, iter_gt (snd s) (begin this (fst s)))
          (λ s, let cur := snd s in
                let prv := iter_minus cur 1 in
                (iter_swap (fst s) prv cur, iter_decr cur))
          (b, Iter (Node this index));
    Some (pop_front (fst s), Iter (Node this index))
  else
    s ← while_loop fuel
          (λ s, iter_lt (snd s) (iter_minus (end_ this (fst s)) 1))
          (λ s, let cur := snd s in
                let nxt := iter_plus cur 1 in
                (iter_swap (fst s) nxt cur, iter_incr cur))
          (b, Iter (Node this index));
    Some (pop_back (fst s), Iter (Node this index)).

(** [erase(first, last)] *)
Definition erase_range (fuel : nat) (this : N) (b : circular_buffer)
    (first last : basic_iterator)
    : option (circular_buffer * basic_iterator) :=
  let first_index := get_arr_index first in
  let last_index := get_arr_index last in
  if iter_diff first (begin this b) <? iter_diff (end_ this b) last then
    s ← (if iter_gt first (begin this b) then
           let end_1 := Iter (Node this (to_size_t (first_index - 1))) in
           let end_2 := Iter (Node this (to_size_t (last_index - 1))) in
           while_loop fuel
             (λ s, iter_gt (fst (snd s)) (begin this (fst s)))
             (λ s, let '(b', (e1, e2)) := s in
                   (iter_swap b' e1 e2, (iter_decr e1, iter_decr e2)))
             (b, (end_1, end_2))
         else Some (b, (first, last)));
    Some (Nat.iter (Z.to_nat (to_size_t (last_index - first_index)))
                   pop_front (fst s),
          Iter (Node this first_index))
  else
    s ← (if iter_ne last (end_ this b) then
           let begin_1 := Iter (Node this last_index) in
           let begin_2 := Iter (Node this first_index) in
           while_loop fuel
             (λ s, iter_lt (fst (snd s)) (end_ this (fst s)))
             (λ s, let '(b', (b1, b2)) := s in
                   (iter_swap b' b1 b2, (iter_incr b1, iter_incr b2)))
             (b, (begin_1, begin_2))
         else Some (b, (first, last)));
    Some (Nat.iter (Z.to_nat (to_size_t (last_index - first_index)))
                   pop_back (fst s),
          Iter (Node this first_index)).

(** The logical sequence as read through [operator[]]: entry [i] is what
    [b[i]] yields, [None] for a slot without a live object. *)
Definition to_list (b : circular_buffer) : list (option T) :=
  at_index b <$> seqZ 0 (sz b).

End CircularBuffer.

Arguments circular_buffer : clear implicits.
Arguments Buffer {T} _ _ _ _.

(** ** The state invariant and the abstraction to a logical sequence *)
Section Abstraction.
Context {T : Type}.
Implicit Types (b : circular_buffer T) (l : list T) (m : gmap Z T).

(** The invariant of the data model: the size is below the capacity of an
    allocated buffer and the live slots are exactly the physical slots
    [(head + i) mod cap] of the logical indices [0 ≤ i < sz]. *)
Definition invariant b : Prop :=
  0 ≤ sz b ∧
  (0 < cap b → sz b < cap b) ∧
  ∀ j, is_Some (load (arr b) j) ↔
       ∃ i, 0 ≤ i < sz b ∧ j = (head b + i) mod cap b.

(** What physical slot [j] of a block of [c] slots holds when the logical
    sequence [l] starts at slot [h]. *)
Definition slot_of (h c : Z) l (j : Z) : option T :=
  if decide (0 ≤ j < c) then l !! Z.to_nat ((j - h) mod c) else None.

(** [models b l]: [b] is a well-formed state whose logical sequence is
    [l].  Besides the invariant this records that [head] is a slot of the
    block, that [arr] is null exactly for the never-allocated buffer, and
    that the capacity fits the [int] in which [head] is kept. *)
Definition models b l : Prop :=
  sz b = Z.of_nat (length l) ∧
  0 ≤ cap b ≤ INT_MAX ∧
  match arr b with
  | None => cap b = 0 ∧ head b = 0 ∧ sz b = 0
  | Some m =>
      0 ≤ head b < cap b ∧ sz b < cap b ∧
      ∀ j, m !! j = slot_of (head b) (cap b) l j
  end.

End Abstraction.

(** ** Lists: exchanging two entries, inserting and deleting one *)
Section ListOperations.
Context {T : Type}.
Implicit Types (l : list T) (v x : T) (i j k c : nat).

(** The sequence after [std::swap] of the entries [i] and [j]. *)
Definition list_swap l i j : list T :=
  match l !! i, l !! j with
  | Some x, Some y => <[j := x]> (<[i := y]> l)
  | _, _ => l
  end.

(** [l] with [v] inserted before index [c]. *)
Definition list_ins l v c : list T := take c l ++ v :: drop c l.

(** [l] without the entry of index [c]. *)
Definition list_del l c : list T := take c l ++ drop (S c) l.

End ListOperations.

(** ** Iterators at a logical index *)

(** The iterator of the buffer at address [this] for logical index [k]. *)
Definition iter_at (this : N) (k : nat) : basic_iterator :=
  Iter (Node this (Z.of_nat k)).

(** ** Sequences of operations at the two ends *)
Section Runs.
Context {T : Type}.
Implicit Types (b : circular_buffer T) (l q : list T).

Inductive op : Type :=
| PushBack (v : T)
| PushFront (v : T)
| PopBack
| PopFront.

Definition step b (o : op) : circular_buffer T :=
  match o with
  | PushBack v => push_back b v
  | PushFront v => push_front b v
  | PopBack => pop_back b
  | PopFront => pop_front b
  end.

Definition run b (ops : list op) : circular_buffer T := foldl step b ops.

Definition is_push (o : op) : bool :=
  match o with PushBack _ | PushFront _ => true | _ => false end.

(** Number of pushes and of pops of a sequence. *)
Definition pushes (ops : list op) : nat := length (filter is_push ops).
Definition pops (ops : list op) : nat :=
  length (filter (λ o, negb (is_push o)) ops).

(** No pop is applied to an empty buffer, when the sequence starts on a
    buffer of [n] elements (popping an empty buffer is undefined). *)
Fixpoint pops_valid (n : nat) (ops : list op) : bool :=
  match ops with
  | [] => true
  | o :: rest =>
      if is_push o then pops_valid (S n) rest
      else match n with
           | O => false
           | S n' => pops_valid n' rest
           end
  end.

(** The reference double-ended queue: a list, front first. *)
Definition deque_step q (o : op) : list T :=
  match o with
  | PushBack v => q ++ [v]
  | PushFront v => v :: q
  | PopBack => removelast q
  | PopFront => List.tl q
  end.

(** What a caller observes: [front()], [back()], [size()]. *)
Definition observe b : option T * option T * Z := (front b, back b, size b).
Definition deque_observe q : option T * option T * Z :=
  (List.head q, last q, Z.of_nat (length q)).

(** The observations after each step of a run. *)
Fixpoint trace b (ops : list op) : list (option T * option T * Z) :=
  match ops with
  | [] => []
  | o :: rest => observe (step b o) :: trace (step b o) rest
  end.
Fixpoint deque_trace q (ops : list op) : list (option T * option T * Z) :=
  match ops with
  | [] => []
  | o :: rest => deque_observe (deque_step q o) :: deque_trace (deque_step q o) rest
  end.

End Runs.

Arguments op : clear implicits.

(** ** Growth of the capacity *)

(** The growth rule the specification describes: the new capacity of a
    full buffer of capacity [c]. *)
Definition spec_grown_capacity (c : Z) : Z :=
  if c =? 0 then 2 else 2 * (c - 1) + 1.

(** The growth rule of [ensure_cap]: [increase_cap(n)] allocates [n + 1]
    slots. *)
Definition grown_capacity (c : Z) : Z := if c =? 0 then 3 else 2 * c.

(** The buffer after [n] calls of [push_back] on an empty buffer. *)
Definition push_back_n (n : nat) : circular_buffer Z :=
  foldl push_back empty_buffer (replicate n 0).

(** [capacity()] after 0, 1, .., n-1 calls of [push_back]. *)
Definition capacity_progression (n : nat) : list Z :=
  (λ k, capacity (push_back_n k)) <$> seq 0 n.

(** ** Usable capacity *)
Section UsableCapacity.
Context {T : Type}.
Implicit Types (b : circular_buffer T) (l : list T).

(** The number of elements a buffer holds before [ensure_cap]
    reallocates: one slot of an allocated block is kept free, and a
    buffer without storage holds nothing. *)
Definition usable_capacity b : Z := Z.max 0 (cap b - 1).

End UsableCapacity.

(** ** Element types whose copy constructor throws *)
Section Throwing.
Context {T : Type}.
Implicit Types (b : circular_buffer T) (l : list T).

(** The fault to inject: [Some n] lets [n] copies succeed and makes the
    next one throw, [None] never throws.  After the throw no further
    copy throws. *)
Definition try_copy (c : option nat) : bool * option nat :=
  match c with
  | None => (true, None)
  | Some (S n) => (true, Some n)
  | Some O => (false, None)
  end.

(** A block obtained from [operator new] inside an operation: its live
    slots, and whether [operator delete] was applied to it. *)
Record block := Block { slots : gmap Z T; released : bool }.

Definition fresh_block : block := Block ∅ false.
Definition block_construct (d : block) (i : Z) (v : T) : block :=
  Block (<[i := v]> (slots d)) (released d).
Definition block_destroy (d : block) (i : Z) : block :=
  Block (delete i (slots d)) (released d).
Definition block_release (d : block) : block := Block (slots d) true.

(** [delete_array(array, l, r)] in closed form: [i] runs from [r + 1]
    down to [l + 1] and [array[i - 1]] is destroyed.  This is what the
    loop does when neither [l + 1] nor [r + 1] wraps in [size_t], as in
    the calls of [copyToArray]; the loop itself is [delete_array_loop]. *)
Definition delete_array (d : block) (l r : Z) : block :=
  foldl (λ d i, block_destroy d (i - 1)) d
        (reverse (seqZ (l + 1) (r + 1 - l))).

(** [delete_array(array, l, r)] as the loop is written,
    [for (size_t i = r + 1; i >= l + 1; --i) array[i - 1].~T();], with
    [i], [l + 1] and [r + 1] in [size_t]: for [l = SIZE_MAX] the bound
    [l + 1] is 0 and the test never fails. *)
Definition delete_array_loop (fuel : nat) (d : block) (l r : Z)
    : option block :=
  fst <$>
    while_loop fuel
      (λ s : block * Z, snd s >=? to_size_t (l + 1))
      (λ s : block * Z,
         (block_destroy (fst s) (to_size_t (snd s - 1)),
          to_size_t (snd s - 1)))
      (d, to_size_t (r + 1)).

(** The first two loops of [copyToArray]: a copy that throws makes the
    handler destroy the copies made so far and release [dest], but only
    when [i > head]; then the exception is thrown again.  The [bool] of
    the result tells whether the loop was left by the exception. *)
Fixpoint copy_loop_rethrow b (indices : list Z) (c : option nat) (dest : block)
    : option nat * block * bool :=
  match indices with
  | [] => (c, dest, false)
  | i :: rest =>
      match load (arr b) i with
      | None => copy_loop_rethrow b rest c dest
      | Some v =>
          match try_copy c with
          | (true, c') =>
              copy_loop_rethrow b rest c'
                (block_construct dest (to_size_t (i - head b)) v)
          | (false, c') =>
              (c',
               if i >? head b
               then block_release
                      (delete_array dest 0 (to_size_t (i - head b - 1)))
               else dest,
               true)
          end
      end
  end.

(** The third loop of [copyToArray]: its handler destroys only the copies
    of this loop, releases [dest] when [i > 0], and does not throw
    again, so the loop goes on with the next [i]. *)
Fixpoint copy_loop_swallow b (head_len : Z) (indices : list Z)
    (c : option nat) (dest : block) : option nat * block :=
  match indices with
  | [] => (c, dest)
  | i :: rest =>
      match load (arr b) i with
      | None => copy_loop_swallow b head_len rest c dest
      | Some v =>
          match try_copy c with
          | (true, c') =>
              copy_loop_swallow b head_len rest c'
                (block_construct dest (to_size_t (i + head_len)) v)
          | (false, c') =>
              copy_loop_swallow b head_len rest c'
                (if i >? 0
                 then block_release
                        (delete_array dest head_len
                                      (to_size_t (head_len + i - 1)))
                 else dest)
          end
      end
  end.

(** [copyToArray(dest)] with its handlers. *)
Definition copyToArray_throwing b (c : option nat) (dest : block)
    : option nat * block * bool :=
  if head b <=? tail b then
    copy_loop_rethrow b (seqZ (head b) (sz b)) c dest
  else
    let head_len := to_int (to_size_t (cap b - head b)) in
    match copy_loop_rethrow b (seqZ (head b) (cap b - head b)) c dest with
    | (c1, d1, true) => (c1, d1, true)
    | (c1, d1, false) =>
        let '(c2, d2) :=
          copy_loop_swallow b head_len (seqZ 0 (tail b + 1)) c1 d1 in
        (c2, d2, false)
    end.

(** How a call ends.  [Completed c b dangling]: it returns, the buffer is
    [b], and [dangling] tells that [arr] points to released storage.
    [Propagated c b orphan]: an exception leaves the call, the buffer is
    [b], and [orphan] is the block the call obtained from [operator new]
    and that the buffer does not own, if there is one. *)
Inductive outcome : Type :=
| Completed (c : option nat) (b : circular_buffer T) (dangling : bool)
| Propagated (c : option nat) (b : circular_buffer T) (orphan : option block).

(** [increase_cap(new_cap)] when [operator new] returns the block; the
    request that fails is in [increase_cap_new]. *)
Definition increase_cap_throwing (c : option nat) b (new_cap : Z) : outcome :=
  if new_cap >=? cap b then
    let new_arr := fresh_block in
    let old_sz := sz b in
    match copyToArray_throwing b c new_arr with
    | (c', d, true) => Propagated c' b (Some d)
    | (c', d, false) =>
        let b1 := clear b in
        Completed c'
          (Buffer (head b1) old_sz (to_size_t (new_cap + 1)) (Some (slots d)))
          (released d)
    end
  else Completed c b false.

(** [ensure_cap()] *)
Definition ensure_cap_throwing (c : option nat) b : outcome :=
  if to_size_t (sz b + 1) >=? cap b then
    if cap b =? 0 then increase_cap_throwing c b 2
    else increase_cap_throwing c b (to_size_t (2 * (cap b - 1) + 1))
  else Completed c b false.

(** [reserve(desired_capacity)] *)
Definition reserve_throwing (c : option nat) b (desired_capacity : Z)
    : outcome :=
  increase_cap_throwing c b desired_capacity.

(** [push_back(val)]: the copy [val_copy], [ensure_cap()], then the copy
    into the slot. *)
Definition push_back_throwing (c : option nat) b (val : T) : outcome :=
  match try_copy c with
  | (false, c1) => Propagated c1 b None
  | (true, c1) =>
      match ensure_cap_throwing c1 b with
      | Propagated c2 b' orphan => Propagated c2 b' orphan
      | Completed c2 b1 dangling =>
          match try_copy c2 with
          | (false, c3) => Propagated c3 b1 None
          | (true, c3) =>
              let a :=
                if empty b1 then construct_at (arr b1) 0 val
                else construct_at (arr b1)
                       (to_size_t (tail b1 + 1) mod cap b1) val in
              Completed c3
                (Buffer (head b1) (to_size_t (sz b1 + 1)) (cap b1) a)
                dangling
          end
      end
  end.

(** The strong guarantee of the specification for a call on [b] that
    starts with the fault [c] and ends as [o].  A call that returns has
    met no throwing copy (a fault that was armed is still armed) and its
    storage is not released.  A call that an exception leaves shows the
    size, capacity and sequence of [b], and the block it allocated holds
    no live element and is released. *)
Definition strong_guarantee (c : option nat) b (o : outcome) : Prop :=
  match o with
  | Completed c' _ dangling => (is_Some c → is_Some c') ∧ dangling = false
  | Propagated _ b' orphan =>
      size b' = size b ∧ capacity b' = capacity b ∧
      to_list b' = to_list b ∧
      match orphan with
      | Some d => slots d = ∅ ∧ released d = true
      | None => True
      end
  end.

End Throwing.

(** ** Allocation that may fail *)
Section Allocation.
Context {T : Type}.
Implicit Types (b : circular_buffer T).

(** [sizeof(T)], and the heap: [heap n] tells whether [operator new(n)]
    returns a block; it throws [std::bad_alloc] otherwise. *)
Variable sizeof_T : Z.
Variable heap : Z → bool.

(** The argument of [operator new((new_cap + 1) * sizeof(T))], computed
    in [size_t]. *)
Definition alloc_request (new_cap : Z) : Z :=
  to_size_t (to_size_t (new_cap + 1) * sizeof_T).

(** [increase_cap(new_cap)]: [operator new] comes first; when it throws
    nothing was allocated and the buffer was not touched. *)
Definition increase_cap_new (c : option nat) b (new_cap : Z)
    : @outcome T :=
  if new_cap >=? cap b then
    if heap (alloc_request new_cap) then
      let new_arr := fresh_block in
      let old_sz := sz b in
      match copyToArray_throwing b c new_arr with
      | (c', d, true) => Propagated c' b (Some d)
      | (c', d, false) =>
          let b1 := clear b in
          Completed c'
            (Buffer (head b1) old_sz (to_size_t (new_cap + 1))
                    (Some (slots d)))
            (released d)
      end
    else Propagated c b None
  else Completed c b false.

(** [reserve(desired_capacity)] *)
Definition reserve_new (c : option nat) b (desired_capacity : Z)
    : @outcome T :=
  increase_cap_new c b desired_capacity.

End Allocation.

Arguments outcome : clear implicits.
Arguments block : clear implicits.

(** ** Runs that avoid the defect of [push_back] *)
Section DefectFreeRuns.
Context {T : Type}.
Implicit Types (b : circular_buffer T) (l q : list T).

(** A run that pops no empty buffer and applies [push_back] to no empty
    buffer whose head is not slot [0]. *)
Fixpoint defect_free b (ops : list (op T)) : bool :=
  match ops with
  | [] => true
  | o :: rest =>
      match o with
      | PushBack _ => negb (empty b) || (head (ensure_cap b) =? 0)
      | PushFront _ => true
      | PopBack | PopFront => negb (empty b)
      end && defect_free (step b o) rest
  end.

End DefectFreeRuns.

(** ** Example buffers *)

(** A buffer of capacity 3 whose run wraps: 3 is in slot 2, 4 in slot 0. *)
Definition wrapped_buffer : circular_buffer Z :=
  push_back (pop_front (push_back (pop_front
    (push_back (push_back empty_buffer 1) 2)) 3)) 4.

(** A buffer of capacity 6 holding 10, 20, 30 from slot 0. *)
Definition sample_buffer : circular_buffer Z :=
  foldl push_back empty_buffer [10; 20; 30].


(** [push_back(1); pop_front(); push_back(2)] on a new buffer: the head
    is slot 1 and the element is in slot 0. *)
Definition misplaced_buffer : circular_buffer Z :=
  push_back (pop_front (push_back empty_buffer 1)) 2.

(** ** Assignment *)
Section Assignment.
Context {T : Type}.

(** [operator=(circular_buffer other)]: [other] is the parameter, an
    object of its own however it was initialised, so [this == &other] is
    false; after [swap(other)] it holds the old state of [*this] and is
    cleared.  The pair is [*this] and [other] as they are when the
    operator returns (the destructor of [other] follows). *)
Definition operator_assign (b other : circular_buffer T)
    : circular_buffer T * circular_buffer T :=
  let '(this', other') := swap b other in
  (this', clear other').

(** [a = rhs] for an lvalue [rhs]: the parameter is copy-constructed
    from it.  (For a prvalue the parameter is initialised by the
    expression itself and no copy constructor runs.) *)
Definition assign_from_lvalue (b : circular_buffer T) (rhs_addr : N)
    (rhs : circular_buffer T) : circular_buffer T * circular_buffer T :=
  operator_assign b (copy_constructor rhs_addr rhs).

End Assignment.

(** ** Queue use that never drains the buffer *)
Section QueueUse.
Context {T : Type}.

(** A run of [push_back] and [pop_front] only, on a buffer of [n]
    elements, in which no [pop_front] removes the last element. *)
Fixpoint never_drained (n : nat) (ops : list (op T)) : bool :=
  match ops with
  | [] => true
  | PushBack _ :: rest => never_drained (S n) rest
  | PopFront :: rest =>
      match n with
      | S (S n') => never_drained (S n') rest
      | _ => false
      end
  | _ :: _ => false
  end.

(** A run without [push_back]. *)
Definition no_push_back (ops : list (op T)) : bool :=
  forallb (λ o, match o with PushBack _ => false | _ => true end) ops.

End QueueUse.

(** * Proofs *)

(** ** Facts about the integer conversions *)
Section MachineIntFacts.

Lemma to_size_t_small z : 0 ≤ z < 2 ^ 64 → to_size_t z = z.
Proof. intros. unfold to_size_t. apply Z.mod_small. lia. Qed.

Lemma to_int_small z : - 2 ^ 31 ≤ z < 2 ^ 31 → to_int z = z.
Proof. intros. unfold to_int. rewrite Z.mod_small; lia. Qed.

Lemma to_ptrdiff_t_small z : - 2 ^ 63 ≤ z < 2 ^ 63 → to_ptrdiff_t z = z.
Proof. intros. unfold to_ptrdiff_t. rewrite Z.mod_small; lia. Qed.

Lemma to_size_t_range z : 0 ≤ to_size_t z < 2 ^ 64.
Proof. unfold to_size_t. apply Z.mod_pos_bound. lia. Qed.


Lemma to_size_t_add_l a c : to_size_t (to_size_t a + c) = to_size_t (a + c).
Proof. unfold to_size_t. apply Zplus_mod_idemp_l. Qed.


Lemma to_ptrdiff_t_size_t z : to_ptrdiff_t (to_size_t z) = to_ptrdiff_t z.
Proof.
  unfold to_size_t, to_ptrdiff_t. f_equal.
  rewrite Z.add_comm, Zplus_mod_idemp_r. f_equal. lia.
Qed.

(** Reduction modulo [c] of a value at most one period away. *)
Lemma mod_cases e c :
  0 < c → - c ≤ e < 2 * c →
  e mod c = if decide (e < 0) then e + c
            else if decide (e < c) then e else e - c.
Proof.
  intros Hc He. repeat case_decide.
  - symmetry. apply (Z.mod_unique_pos _ _ (-1)); lia.
  - apply Z.mod_small; lia.
  - symmetry. apply (Z.mod_unique_pos _ _ 1); lia.
Qed.

End MachineIntFacts.

(** Removes the conversions whose argument is in the range of the type. *)
Ltac int_simpl :=
  repeat match goal with
  | |- context [to_size_t ?z] => rewrite (to_size_t_small z) by lia
  | |- context [to_int ?z] => rewrite (to_int_small z) by lia
  | |- context [to_ptrdiff_t ?z] => rewrite (to_ptrdiff_t_small z) by lia
  end.

(** Closes a goal by arithmetic, possibly from contradictory hypotheses. *)
Ltac arith := solve [done | lia | exfalso; lia].

(** Rewrites every [_ mod c] whose argument is within one period of
    [0 .. c-1] and splits on the case it falls in. *)
Ltac mod_split :=
  repeat match goal with
  | |- context [?e mod ?c] => rewrite (mod_cases e c) by lia
  | H : context [?e mod ?c] |- _ => rewrite (mod_cases e c) in H by lia
  end;
  repeat case_decide; try lia.

(** ** Facts about the abstraction *)
Section AbstractionFacts.
Context {T : Type}.
Implicit Types (b : circular_buffer T) (l : list T) (m : gmap Z T).

Lemma INT_MAX_eq : INT_MAX = 2147483647.
Proof. reflexivity. Qed.

Lemma slot_of_phys h c l k :
  0 ≤ h < c → 0 ≤ k < c →
  slot_of h c l ((h + k) mod c) = l !! Z.to_nat k.
Proof.
  intros Hh Hk. unfold slot_of.
  assert (0 ≤ (h + k) mod c < c) by (apply Z.mod_pos_bound; lia).
  rewrite decide_True by done. f_equal. f_equal.
  mod_split.
Qed.

Lemma models_length b l : models b l → sz b = Z.of_nat (length l).
Proof. by intros [? _]. Qed.

Lemma models_bounds b l :
  models b l →
  0 ≤ sz b ≤ cap b ∧ cap b ≤ 2147483647 ∧ 0 ≤ head b ≤ cap b ∧
  (0 < cap b → sz b < cap b ∧ head b < cap b).
Proof.
  intros (Hsz & Hcap & Harr). rewrite INT_MAX_eq in Hcap.
  destruct (arr b); destruct Harr as (? & ? & ?); lia.
Qed.

Lemma models_empty_buffer : models (@empty_buffer T) [].
Proof. repeat split; simpl; rewrite ?INT_MAX_eq; lia. Qed.

(** Under [models] the machine arithmetic of the accessors does not wrap. *)
Lemma models_get_arr_pos b l i :
  models b l → 0 < cap b → 0 ≤ i < 2 ^ 63 →
  get_arr_pos b i = (head b + i) mod cap b.
Proof.
  intros (Hsz & Hcap & Harr) Hpos Hi. rewrite INT_MAX_eq in Hcap.
  assert (0 ≤ head b < cap b) as Hh.
  { destruct (arr b); [tauto | destruct Harr as (? & ? & ?); lia]. }
  unfold get_arr_pos. int_simpl.
  apply to_int_small.
  pose proof (Z.mod_pos_bound (head b + i) (cap b)). lia.
Qed.

Lemma models_at_index b l i :
  models b l → 0 ≤ i < sz b → at_index b i = l !! Z.to_nat i.
Proof.
  intros (Hsz & Hcap & Harr) Hi. rewrite INT_MAX_eq in Hcap.
  unfold at_index. destruct (arr b) as [m|]; [|destruct Harr as (? & ? & ?); lia].
  destruct Harr as (Hh & Hlt & Hm). simpl.
  int_simpl.
  rewrite Hm. apply slot_of_phys; lia.
Qed.

Lemma models_to_list b l : models b l → to_list b = Some <$> l.
Proof.
  intros Hb. pose proof (models_length _ _ Hb) as Hsz.
  unfold to_list. apply list_eq. intros i.
  rewrite !list_lookup_fmap.
  destruct (decide (Z.of_nat i < sz b)) as [Hi|Hi].
  - rewrite lookup_seqZ_lt by done. simpl.
    rewrite (models_at_index b l) by (done || lia).
    rewrite Z.add_0_l, Nat2Z.id.
    destruct (l !! i) eqn:E; [done|].
    apply lookup_ge_None in E. lia.
  - rewrite lookup_seqZ_ge by lia. simpl.
    rewrite (proj2 (lookup_ge_None l i)); [done | lia].
Qed.

Lemma models_tail b l :
  models b l → 0 < sz b → tail b = (head b + sz b - 1) mod cap b.
Proof.
  intros (Hsz & Hcap & Harr) Hpos. rewrite INT_MAX_eq in Hcap.
  unfold tail. destruct (arr b) as [m|]; [|destruct Harr as (? & ? & ?); lia].
  destruct Harr as (Hh & Hlt & Hm).
  rewrite (proj2 (Z.eqb_neq _ _)) by lia.
  int_simpl.
  replace (head b + sz b + cap b - 1) with (head b + sz b - 1 + 1 * cap b)
    by lia.
  rewrite Z_mod_plus_full.
  apply to_int_small. mod_split.
Qed.

Lemma models_invariant b l : models b l → invariant b.
Proof.
  intros (Hsz & Hcap & Harr). rewrite INT_MAX_eq in Hcap.
  split; [lia|]. destruct (arr b) as [m|]; simpl.
  - destruct Harr as (Hh & Hlt & Hm). split; [done|]. intros j.
    rewrite Hm. unfold slot_of. case_decide as Hj.
    + rewrite lookup_lt_is_Some. split.
      * intros Hlen. exists ((j - head b) mod cap b). split.
        -- pose proof (Z.mod_pos_bound (j - head b) (cap b)). lia.
        -- rewrite Zplus_mod_idemp_r.
           replace (head b + (j - head b)) with j by lia.
           by rewrite Z.mod_small.
      * intros (i & Hi & ->).
        rewrite Zminus_mod_idemp_l.
        replace (head b + i - head b) with i by lia.
        rewrite Z.mod_small; lia.
    + split; [by intros [? ?]|]. intros (i & Hi & ->).
      exfalso. apply Hj. apply Z.mod_pos_bound. lia.
  - destruct Harr as (? & ? & ?). split; [lia|]. intros j. split.
    + by intros [? ?].
    + intros (i & ? & _). lia.
Qed.

End AbstractionFacts.

(** ** Counting loops *)
Section Loops.

(** Invariant rule for a [for] loop over [a, a+1, .., a+n-1]. *)
Lemma foldl_seqZ_ind {A : Type} (P : Z → A → Prop) (f : A → Z → A)
    (x0 : A) (a n : Z) :
  0 ≤ n →
  P 0 x0 →
  (∀ k x, 0 ≤ k < n → P k x → P (k + 1) (f x (a + k))) →
  P n (foldl f x0 (seqZ a n)).
Proof.
  intros Hn H0 Hstep.
  rewrite <- (Z2Nat.id n) by done.
  assert (Z.of_nat (Z.to_nat n) ≤ n) as Hle by lia.
  revert Hle. generalize (Z.to_nat n) as k. intros k.
  induction k as [|k IH]; intros Hle.
  - done.
  - rewrite seqZ_S, foldl_snoc.
    replace (Z.of_nat (S k)) with (Z.of_nat k + 1) by lia.
    apply Hstep; [lia|]. apply IH. lia.
Qed.

(** A [while] loop that is given more fuel than it needs. *)
Lemma while_loop_mono {S : Type} (cond : S → bool) (body : S → S) n m s r :
  while_loop n cond body s = Some r → (n ≤ m)%nat →
  while_loop m cond body s = Some r.
Proof.
  revert m s. induction n as [|n IH]; intros m s Hr Hle; simpl in *.
  - destruct (cond s) eqn:E; [done|].
    destruct m; simpl; by rewrite E.
  - destruct m as [|m]; [lia|]. simpl.
    destruct (cond s); [|done]. apply IH; [done | lia].
Qed.

End Loops.

(** ** Effect of the operations on the logical sequence *)
Section Operations.
Context {T : Type}.
Implicit Types (b : circular_buffer T) (l : list T) (m : gmap Z T).

Lemma slot_of_nil h c j : slot_of h c (@nil T) j = None.
Proof. unfold slot_of. by case_decide. Qed.

(** [clear] destroys every live element. *)
Lemma clear_models b l :
  models b l →
  models (clear b) [] ∧ ∀ j, load (arr (clear b)) j = None.
Proof.
  intros Hb. pose proof Hb as (Hsz & Hcap & Harr).
  unfold clear, models. simpl.
  destruct (arr b) as [m|] eqn:Ea.
  - destruct Harr as (Hh & Hlt & Hm). rewrite INT_MAX_eq in Hcap.
    pose proof
      (foldl_seqZ_ind
         (λ k a, ∃ m', a = Some m' ∧
            ∀ j, m' !! j = if decide (0 ≤ (j - head b) mod cap b < k)
                           then None else m !! j)
         (λ a i, destroy_at a (get_arr_pos b i)) (Some m) 0 (sz b)) as HI.
    destruct HI as (m' & -> & Hm').
    + lia.
    + exists m. split; [done|]. intros j. case_decide; [lia | done].
    + intros k a Hk (m1 & -> & Hm1). simpl. eexists. split; [done|].
      intros j. rewrite Z.add_0_l.
      rewrite (models_get_arr_pos b l) by (done || lia).
      destruct (decide ((head b + k) mod cap b = j)) as [<-|Hne].
      * rewrite lookup_delete_eq.
        rewrite decide_True; [done|].
        rewrite Zminus_mod_idemp_l.
        replace (head b + k - head b) with k by lia.
        rewrite Z.mod_small; lia.
      * rewrite lookup_delete_ne by done. rewrite Hm1.
        destruct (decide (0 ≤ j < cap b)) as [Hj|Hj].
        -- assert ((j - head b) mod cap b ≠ k); [|repeat case_decide; try arith].
           intros <-. apply Hne.
           rewrite Zplus_mod_idemp_r.
           replace (head b + (j - head b)) with j by lia.
           by apply Z.mod_small.
        -- rewrite Hm. unfold slot_of.
           rewrite (decide_False (P := 0 ≤ j < cap b)) by done.
           by repeat case_decide.
    + assert (∀ j, m' !! j = None) as Hnone.
      { intros j. rewrite Hm'. case_decide as Hd; [done|].
        rewrite Hm. unfold slot_of. case_decide; [|done].
        apply lookup_ge_None.
        pose proof (Z.mod_pos_bound (j - head b) (cap b)). lia. }
      split; [|done].
      rewrite INT_MAX_eq. repeat split; try lia.
      intros j. by rewrite Hnone, slot_of_nil.
  - destruct Harr as (Hc & Hh & Hs). rewrite Hs. simpl.
    split; [|done]. rewrite INT_MAX_eq. repeat split; lia.
Qed.

(** [copyToArray] lays the logical sequence out from slot [0] of a fresh
    block. *)
Lemma copyToArray_models b l :
  models b l →
  ∃ d, copyToArray b (Some ∅) = Some d ∧
       ∀ j, d !! j = if decide (0 ≤ j) then l !! Z.to_nat j else None.
Proof.
  intros Hb. pose proof Hb as (Hsz & Hcap & Harr).
  rewrite INT_MAX_eq in Hcap. unfold copyToArray.
  destruct (arr b) as [m|] eqn:Ea.
  - destruct Harr as (Hh & Hlt & Hm). cbn [load].
    destruct (Z.leb_spec (head b) (tail b)) as [Hle|Hgt].
    + (* the run does not wrap *)
      assert (head b + sz b ≤ cap b) as Hnw.
      { destruct (decide (sz b = 0)) as [|Hne]; [lia|].
        rewrite (models_tail b l) in Hle by (done || lia).
        revert Hle. mod_split. }
      pose proof
        (foldl_seqZ_ind
           (λ k a, ∃ d, a = Some d ∧
              ∀ j, d !! j = if decide (0 ≤ j < k)
                            then l !! Z.to_nat j else None)
           (λ d i, copy_construct_at d (to_size_t (i - head b)) (m !! i))
           (Some ∅) (head b) (sz b)) as HI.
      destruct HI as (d & -> & Hd).
      * lia.
      * exists ∅. split; [done|]. intros j. rewrite lookup_empty.
        case_decide; [lia | done].
      * intros k a Hk (d & -> & Hd).
        replace (head b + k - head b) with k by lia. int_simpl.
        rewrite Hm. unfold slot_of. rewrite decide_True by lia.
        replace ((head b + k - head b) mod cap b) with k
          by (replace (head b + k - head b) with k by lia;
              rewrite Z.mod_small; lia).
        destruct (lookup_lt_is_Some_2 l (Z.to_nat k)) as [v Hv]; [lia|].
        rewrite Hv. simpl. eexists. split; [done|]. intros j.
        destruct (decide (k = j)) as [<-|Hne].
        -- rewrite lookup_insert_eq. by rewrite decide_True by lia.
        -- rewrite lookup_insert_ne by done. rewrite Hd.
           repeat case_decide; arith.
      * exists d. split; [done|]. intros j. rewrite Hd.
        repeat case_decide; try arith.
        symmetry. apply lookup_ge_None. lia.
    + (* the run wraps at [cap] *)
      assert (0 < sz b) as Hpos.
      { destruct (decide (sz b = 0)) as [E|]; [|lia].
        unfold tail in Hgt. rewrite E in Hgt. simpl in Hgt. lia. }
      rewrite (models_tail b l) in * by (done || lia).
      assert (cap b < head b + sz b) as Hw by (revert Hgt; mod_split).
      replace ((head b + sz b - 1) mod cap b) with (head b + sz b - 1 - cap b)
        by mod_split.
      int_simpl.
      pose proof
        (foldl_seqZ_ind
           (λ k a, ∃ d, a = Some d ∧
              ∀ j, d !! j = if decide (0 ≤ j < k)
                            then l !! Z.to_nat j else None)
           (λ d i, copy_construct_at d (to_size_t (i - head b)) (m !! i))
           (Some ∅) (head b) (cap b - head b)) as HI.
      destruct HI as (d1 & -> & Hd1).
      * lia.
      * exists ∅. split; [done|]. intros j. rewrite lookup_empty.
        case_decide; [lia | done].
      * intros k a Hk (d & -> & Hd).
        replace (head b + k - head b) with k by lia. int_simpl.
        rewrite Hm. unfold slot_of. rewrite decide_True by lia.
        replace ((head b + k - head b) mod cap b) with k
          by (replace (head b + k - head b) with k by lia;
              rewrite Z.mod_small; lia).
        destruct (lookup_lt_is_Some_2 l (Z.to_nat k)) as [v Hv]; [lia|].
        rewrite Hv. simpl. eexists. split; [done|]. intros j.
        destruct (decide (k = j)) as [<-|Hne].
        -- rewrite lookup_insert_eq. by rewrite decide_True by lia.
        -- rewrite lookup_insert_ne by done. rewrite Hd.
           repeat case_decide; arith.
      * pose proof
          (foldl_seqZ_ind
             (λ k a, ∃ d, a = Some d ∧
                ∀ j, d !! j = if decide (0 ≤ j < cap b - head b + k)
                              then l !! Z.to_nat j else None)
             (λ d i, copy_construct_at d (to_size_t (i + (cap b - head b)))
                                       (m !! i))
             (Some d1) 0 (head b + sz b - 1 - cap b + 1)) as HI.
        destruct HI as (d2 & -> & Hd2).
        -- lia.
        -- exists d1. split; [done|]. intros j. rewrite Hd1.
           repeat case_decide; arith.
        -- intros k a Hk (d & -> & Hd). rewrite Z.add_0_l. int_simpl.
           rewrite Hm. unfold slot_of. rewrite decide_True by lia.
           replace ((k - head b) mod cap b) with (k + (cap b - head b))
             by mod_split.
           destruct (lookup_lt_is_Some_2 l (Z.to_nat (k + (cap b - head b))))
             as [v Hv]; [lia|].
           rewrite Hv. simpl. eexists. split; [done|]. intros j.
           destruct (decide (k + (cap b - head b) = j)) as [<-|Hne].
           ++ rewrite lookup_insert_eq. by rewrite decide_True by lia.
           ++ rewrite lookup_insert_ne by done. rewrite Hd.
              repeat case_decide; arith.
        -- exists d2. split; [done|]. intros j. rewrite Hd2.
           repeat case_decide; try arith.
           symmetry. apply lookup_ge_None. lia.
  - destruct Harr as (Hc & Hh & Hs). unfold tail.
    rewrite Hs, Hh. simpl. exists ∅. split; [done|].
    intros j. rewrite lookup_empty. case_decide; [|done].
    symmetry. apply lookup_ge_None. lia.
Qed.

End Operations.

Section Growth.
Context {T : Type}.
Implicit Types (b : circular_buffer T) (l : list T) (m : gmap Z T).

Lemma phys_inv h c q : 0 ≤ h < c → 0 ≤ q < c → (h + (q - h) mod c) mod c = q.
Proof.
  intros. rewrite Zplus_mod_idemp_r.
  replace (h + (q - h)) with q by lia. by apply Z.mod_small.
Qed.

Lemma inv_phys h c k : 0 ≤ h < c → 0 ≤ k < c → ((h + k) mod c - h) mod c = k.
Proof.
  intros. rewrite Zminus_mod_idemp_l.
  replace (h + k - h) with k by lia. by apply Z.mod_small.
Qed.

(** [increase_cap] moves the sequence to the start of a block of
    [new_cap + 1] slots. *)
Lemma increase_cap_models b l n :
  models b l → cap b ≤ n → n < INT_MAX →
  models (increase_cap b n) l ∧
  cap (increase_cap b n) = n + 1 ∧
  head (increase_cap b n) = 0 ∧
  sz (increase_cap b n) = sz b ∧
  is_Some (arr (increase_cap b n)).
Proof.
  intros Hb Hn Hmax. pose proof Hb as (Hsz & Hcap & Harr).
  rewrite INT_MAX_eq in *.
  destruct (copyToArray_models b l Hb) as (d & Hd & Hlk).
  unfold increase_cap.
  rewrite (proj2 (Z.geb_le _ _)) by lia.
  rewrite Hd. cbn [clear head]. int_simpl.
  assert (sz b ≤ n) as Hsn.
  { destruct (arr b); destruct Harr as (? & ? & ?); lia. }
  split; [|by eauto].
  split; [done|]. split; [simpl; rewrite INT_MAX_eq; lia|]. simpl.
  split; [lia|]. split; [lia|].
  intros j. rewrite Hlk. unfold slot_of.
  repeat case_decide; try arith.
  - rewrite Z.sub_0_r, Z.mod_small by lia. done.
  - apply lookup_ge_None. lia.
Qed.

Lemma increase_cap_noop b n : n < cap b → increase_cap b n = b.
Proof.
  intros. unfold increase_cap.
  destruct (Z.geb_spec n (cap b)); [lia | done].
Qed.

Lemma ensure_cap_noop b :
  0 ≤ sz b < 2 ^ 63 → sz b + 1 < cap b → ensure_cap b = b.
Proof.
  intros. unfold ensure_cap. int_simpl.
  destruct (Z.geb_spec (sz b + 1) (cap b)); [lia | done].
Qed.

(** [ensure_cap] on a full buffer: the capacity doubles, or becomes 3 for
    a buffer that was never allocated. *)
Lemma ensure_cap_grows b l :
  models b l → cap b ≤ sz b + 1 → 2 * cap b ≤ INT_MAX →
  models (ensure_cap b) l ∧
  head (ensure_cap b) = 0 ∧
  cap (ensure_cap b) = (if cap b =? 0 then 3 else 2 * cap b).
Proof.
  intros Hb Hfull Hmax. pose proof (models_bounds _ _ Hb) as Hbd.
  rewrite INT_MAX_eq in *.
  unfold ensure_cap. int_simpl.
  rewrite (proj2 (Z.geb_le _ _)) by lia.
  destruct (Z.eqb_spec (cap b) 0) as [E|E].
  - destruct (increase_cap_models b l 2 Hb) as (? & ? & ? & ?);
      rewrite ?INT_MAX_eq; try lia.
    split; [done|]. split; [done | lia].
  - int_simpl.
    destruct (increase_cap_models b l (2 * (cap b - 1) + 1) Hb)
      as (? & ? & ? & ?); rewrite ?INT_MAX_eq; try lia.
    split; [done|]. split; [done | lia].
Qed.

(** In both cases there is room for one more element afterwards, and the
    head is moved only to slot [0]. *)
Lemma ensure_cap_models b l :
  models b l → 2 * cap b ≤ INT_MAX →
  models (ensure_cap b) l ∧
  sz (ensure_cap b) + 1 < cap (ensure_cap b) ∧
  (head (ensure_cap b) = head b ∨ head (ensure_cap b) = 0).
Proof.
  intros Hb Hmax. pose proof (models_bounds _ _ Hb) as Hbd.
  destruct (decide (sz b + 1 < cap b)) as [Hroom|Hfull].
  - rewrite ensure_cap_noop by lia. auto.
  - destruct (ensure_cap_grows b l) as (Hb' & Hh & Hc); try (done || lia).
    split; [done|]. split; [|by right].
    rewrite Hc. rewrite (models_length _ _ Hb'), <- (models_length _ _ Hb).
    destruct (Z.eqb_spec (cap b) 0); lia.
Qed.

End Growth.

Section EndOperations.
Context {T : Type}.
Implicit Types (b : circular_buffer T) (l : list T) (m : gmap Z T) (v x : T).

Lemma lookup_cons_succ v l k :
  0 ≤ k → (v :: l) !! Z.to_nat (k + 1) = l !! Z.to_nat k.
Proof.
  intros. rewrite Z2Nat.inj_add by lia.
  by rewrite Nat.add_comm.
Qed.

(** An allocated buffer, taken apart. *)
Lemma models_allocated b l :
  models b l → 0 < cap b →
  ∃ m, arr b = Some m ∧ ∀ j, m !! j = slot_of (head b) (cap b) l j.
Proof.
  intros (Hsz & Hcap & Harr) Hpos.
  destruct (arr b) as [m|]; destruct Harr as (? & ? & ?); [eauto | lia].
Qed.

Lemma models_intro h s c m' l :
  s = Z.of_nat (length l) → 0 ≤ h < c → s < c → c ≤ 2147483647 →
  (∀ j, 0 ≤ j < c → m' !! j = l !! Z.to_nat ((j - h) mod c)) →
  (∀ j, ¬ 0 ≤ j < c → m' !! j = None) →
  models (Buffer h s c (Some m')) l.
Proof.
  intros Hs Hh Hlt Hc Hin Hout. split; [done|]. rewrite INT_MAX_eq.
  split; [simpl; lia|]. simpl. split; [done|]. split; [done|].
  intros j. unfold slot_of. case_decide; auto.
Qed.

Lemma models_slot_in b l m j :
  models b l → arr b = Some m → 0 ≤ j < cap b →
  m !! j = l !! Z.to_nat ((j - head b) mod cap b).
Proof.
  intros (Hsz & Hcap & Harr) Ea Hj. rewrite Ea in Harr.
  destruct Harr as (? & ? & ->). unfold slot_of. by rewrite decide_True.
Qed.

Lemma models_slot_out b l m j :
  models b l → arr b = Some m → ¬ 0 ≤ j < cap b → m !! j = None.
Proof.
  intros (Hsz & Hcap & Harr) Ea Hj. rewrite Ea in Harr.
  destruct Harr as (? & ? & ->). unfold slot_of. by rewrite decide_False.
Qed.

(** [push_front] when there is room: the value is put before the logical
    sequence and the block is kept. *)
Lemma push_front_room b l v :
  models b l → sz b + 1 < cap b →
  models (push_front b v) (v :: l) ∧ cap (push_front b v) = cap b.
Proof.
  intros Hb Hroom.
  pose proof (models_bounds _ _ Hb) as Hbd.
  pose proof (models_length _ _ Hb) as Hlen.
  destruct (models_allocated b l Hb) as (m & Ea & _); [lia|].
  unfold push_front. rewrite ensure_cap_noop by lia.
  split; [|done].
  rewrite Ea. cbn [construct_at]. unfold empty. int_simpl.
  destruct (Z.eqb_spec (sz b) 0) as [E|E]; cbn [negb].
  - (* empty: the element goes to [arr + head] *)
    destruct l; [|simpl in Hlen; lia].
    apply models_intro; simpl; try lia.
    + intros j Hj. destruct (decide (head b = j)) as [<-|Hne].
      * rewrite lookup_insert_eq, Z.sub_diag, Z.mod_0_l by lia. done.
      * rewrite lookup_insert_ne by done.
        rewrite (models_slot_in b [] m j) by done.
        rewrite lookup_nil. symmetry. apply lookup_ge_None. simpl.
        mod_split.
    + intros j Hj. rewrite lookup_insert_ne by lia.
      by apply (models_slot_out b []).
  - assert (to_int ((head b + cap b - 1) mod cap b)
            = (head b + cap b - 1) mod cap b) as ->.
    { apply to_int_small. mod_split. }
    set (h := (head b + cap b - 1) mod cap b).
    assert (0 ≤ h < cap b) by (apply Z.mod_pos_bound; lia).
    apply models_intro; simpl; try lia.
    + intros j Hj. destruct (decide (h = j)) as [<-|Hne].
      * rewrite lookup_insert_eq, Z.sub_diag, Z.mod_0_l by lia. done.
      * rewrite lookup_insert_ne by done.
        rewrite (models_slot_in b l m j) by done.
        assert ((j - h) mod cap b = (j - head b) mod cap b + 1) as ->.
        { subst h. revert Hne.
          rewrite (mod_cases (head b + cap b - 1)) by lia.
          repeat case_decide; try lia; intros; mod_split. }
        rewrite lookup_cons_succ; [done|].
        apply Z.mod_pos_bound. lia.
    + intros j Hj. rewrite lookup_insert_ne by lia.
      by apply (models_slot_out b l).
Qed.

(** After [ensure_cap] a second [ensure_cap] does nothing, so a push on
    [b] is the push on the grown buffer. *)
Lemma push_front_ensure b l v :
  models b l → 2 * cap b ≤ INT_MAX →
  push_front b v = push_front (ensure_cap b) v.
Proof.
  intros Hb Hmax.
  destruct (ensure_cap_models b l Hb Hmax) as (Hb1 & Hroom & _).
  pose proof (models_bounds _ _ Hb1).
  unfold push_front. by rewrite (ensure_cap_noop (ensure_cap b)) by lia.
Qed.

Lemma push_back_ensure b l v :
  models b l → 2 * cap b ≤ INT_MAX →
  push_back b v = push_back (ensure_cap b) v.
Proof.
  intros Hb Hmax.
  destruct (ensure_cap_models b l Hb Hmax) as (Hb1 & Hroom & _).
  pose proof (models_bounds _ _ Hb1).
  unfold push_back. by rewrite (ensure_cap_noop (ensure_cap b)) by lia.
Qed.

(** [push_front] puts the value before the logical sequence. *)
Lemma push_front_models b l v :
  models b l → 2 * cap b ≤ INT_MAX →
  models (push_front b v) (v :: l).
Proof.
  intros Hb Hmax.
  destruct (ensure_cap_models b l Hb Hmax) as (Hb1 & Hroom & _).
  rewrite (push_front_ensure b l) by done.
  by apply push_front_room.
Qed.

(** [push_back] when there is room appends the value and keeps the block,
    except on an empty buffer whose head is not slot [0]: see
    [push_back_empty_uses_slot_0]. *)
Lemma push_back_room b l v :
  models b l → sz b + 1 < cap b →
  l ≠ [] ∨ head b = 0 →
  models (push_back b v) (l ++ [v]) ∧ cap (push_back b v) = cap b.
Proof.
  intros Hb Hroom Hguard.
  pose proof (models_bounds _ _ Hb) as Hbd.
  pose proof (models_length _ _ Hb) as Hlen.
  destruct (models_allocated b l Hb) as (m & Ea & _); [lia|].
  unfold push_back. rewrite ensure_cap_noop by lia.
  split; [|done].
  rewrite Ea. unfold empty. int_simpl.
  destruct (Z.eqb_spec (sz b) 0) as [E|E]; cbn [construct_at].
  - destruct l; [|simpl in Hlen; lia].
    destruct Hguard as [|Hh]; [done|]. rewrite Hh in *.
    apply models_intro; simpl; try lia.
    + intros j Hj. destruct (decide (0 = j)) as [<-|Hne].
      * rewrite lookup_insert_eq, Z.sub_diag, Z.mod_0_l by lia. done.
      * rewrite lookup_insert_ne by done.
        rewrite (models_slot_in b [] m j) by (done || lia).
        rewrite lookup_nil. symmetry. apply lookup_ge_None. simpl.
        rewrite Z.sub_0_r, Z.mod_small; lia.
    + intros j Hj. rewrite lookup_insert_ne by lia.
      by apply (models_slot_out b []).
  - rewrite (models_tail b l) by (done || lia).
    assert (0 ≤ (head b + sz b - 1) mod cap b < cap b)
      by (apply Z.mod_pos_bound; lia).
    int_simpl.
    assert (((head b + sz b - 1) mod cap b + 1) mod cap b
            = (head b + sz b) mod cap b) as ->.
    { rewrite Zplus_mod_idemp_l. f_equal. lia. }
    set (p := (head b + sz b) mod cap b).
    assert (0 ≤ p < cap b) by (apply Z.mod_pos_bound; lia).
    apply models_intro; simpl; try lia.
    + rewrite length_app. simpl. lia.
    + intros j Hj. destruct (decide (p = j)) as [<-|Hne].
      * rewrite lookup_insert_eq. subst p.
        rewrite inv_phys by lia.
        rewrite lookup_app_r by lia.
        replace (Z.to_nat (sz b) - length l)%nat with 0%nat by lia. done.
      * rewrite lookup_insert_ne by done.
        rewrite (models_slot_in b l m j) by done.
        pose proof (Z.mod_pos_bound (j - head b) (cap b)).
        assert ((j - head b) mod cap b ≠ sz b) as Hk.
        { intros Hk. apply Hne. subst p. rewrite <- Hk.
          apply phys_inv; lia. }
        destruct (decide ((j - head b) mod cap b < sz b)).
        -- by rewrite lookup_app_l by lia.
        -- rewrite !(proj2 (lookup_ge_None _ _)); [done | |lia].
           rewrite length_app. simpl. lia.
    + intros j Hj. rewrite lookup_insert_ne by lia.
      by apply (models_slot_out b l).
Qed.

(** [push_back] appends the value, under the same proviso. *)
Lemma push_back_models b l v :
  models b l → 2 * cap b ≤ INT_MAX →
  l ≠ [] ∨ head (ensure_cap b) = 0 →
  models (push_back b v) (l ++ [v]).
Proof.
  intros Hb Hmax Hguard.
  destruct (ensure_cap_models b l Hb Hmax) as (Hb1 & Hroom & _).
  rewrite (push_back_ensure b l) by done.
  by apply push_back_room.
Qed.

(** The defect of [push_back]: on an empty buffer the element is
    constructed in slot [0] whatever [head] is. *)
Lemma push_back_empty_uses_slot_0 b v :
  models b [] → 1 < cap b →
  push_back b v
  = Buffer (head b) 1 (cap b) (construct_at (arr b) 0 v).
Proof.
  intros Hb Hc. pose proof (models_length _ _ Hb) as Hlen. simpl in Hlen.
  unfold push_back. rewrite ensure_cap_noop by lia.
  unfold empty. rewrite Hlen. done.
Qed.

(** [pop_front] removes the first element. *)
Lemma pop_front_models b x l :
  models b (x :: l) → models (pop_front b) l ∧ front b = Some x.
Proof.
  intros Hb.
  pose proof (models_bounds _ _ Hb) as Hbd.
  pose proof (models_length _ _ Hb) as Hlen. simpl in Hlen.
  destruct (models_allocated b _ Hb) as (m & Ea & _); [lia|].
  unfold pop_front, front. rewrite Ea. cbn [destroy_at load].
  split.
  - int_simpl.
    assert (0 ≤ (head b + 1) mod cap b < cap b)
      by (apply Z.mod_pos_bound; lia).
    int_simpl. set (h := (head b + 1) mod cap b).
    apply models_intro; simpl; try lia.
    + intros j Hj. destruct (decide (head b = j)) as [<-|Hne].
      * rewrite lookup_delete_eq. symmetry. apply lookup_ge_None.
        subst h. mod_split.
      * rewrite lookup_delete_ne by done.
        rewrite (models_slot_in b _ m j Hb) by done.
        assert ((j - head b) mod cap b = (j - h) mod cap b + 1) as ->.
        { subst h. revert Hne. rewrite (mod_cases (head b + 1)) by lia.
          repeat case_decide; try lia; intros; mod_split. }
        apply lookup_cons_succ. apply Z.mod_pos_bound. lia.
    + intros j Hj. rewrite lookup_delete_ne by lia.
      by apply (models_slot_out b (x :: l)).
  - rewrite (models_slot_in b _ m (head b) Hb) by (done || lia).
    by rewrite Z.sub_diag, Z.mod_0_l by lia.
Qed.

(** [pop_back] removes the last element. *)
Lemma pop_back_models b l x :
  models b (l ++ [x]) → models (pop_back b) l ∧ back b = Some x.
Proof.
  intros Hb.
  pose proof (models_bounds _ _ Hb) as Hbd.
  pose proof (models_length _ _ Hb) as Hlen.
  rewrite length_app in Hlen. simpl in Hlen.
  destruct (models_allocated b _ Hb) as (m & Ea & _); [lia|].
  unfold pop_back, back. rewrite Ea. cbn [destroy_at load].
  rewrite (models_tail b _ Hb) by lia.
  set (t := (head b + sz b - 1) mod cap b).
  assert (0 ≤ t < cap b) by (apply Z.mod_pos_bound; lia).
  assert ((t - head b) mod cap b = sz b - 1) as Ht.
  { subst t. replace (head b + sz b - 1) with (head b + (sz b - 1)) by lia.
    apply inv_phys; lia. }
  split.
  - int_simpl.
    apply models_intro; simpl; try lia.
    + intros j Hj. destruct (decide (t = j)) as [<-|Hne].
      * rewrite lookup_delete_eq. symmetry. apply lookup_ge_None. lia.
      * rewrite lookup_delete_ne by done.
        rewrite (models_slot_in b _ m j Hb) by done.
        pose proof (Z.mod_pos_bound (j - head b) (cap b)).
        assert ((j - head b) mod cap b ≠ sz b - 1) as Hk.
        { intros Hk. apply Hne. subst t.
          replace (head b + sz b - 1) with (head b + (sz b - 1)) by lia.
          rewrite <- Hk. apply phys_inv; lia. }
        destruct (decide ((j - head b) mod cap b < sz b - 1)).
        -- by rewrite lookup_app_l by lia.
        -- rewrite !(proj2 (lookup_ge_None _ _)); [done |lia|].
           rewrite length_app. simpl. lia.
    + intros j Hj. rewrite lookup_delete_ne by lia.
      by apply (models_slot_out b (l ++ [x])).
  - rewrite (models_slot_in b _ m t Hb) by done. rewrite Ht.
    rewrite lookup_app_r by lia.
    replace (Z.to_nat (sz b - 1) - length l)%nat with 0%nat by lia. done.
Qed.

End EndOperations.

(** ** Facts about these list operations *)
Section ListFacts.
Context {T : Type}.
Implicit Types (l : list T) (v x : T) (i j k c : nat).

Lemma lookup_list_swap l i j k :
  (i < length l)%nat → (j < length l)%nat →
  list_swap l i j !! k
  = if decide (k = j) then l !! i
    else if decide (k = i) then l !! j else l !! k.
Proof.
  intros Hi Hj. unfold list_swap.
  destruct (lookup_lt_is_Some_2 l i Hi) as [x Hx].
  destruct (lookup_lt_is_Some_2 l j Hj) as [y Hy].
  rewrite Hx, Hy. repeat case_decide; subst.
  - rewrite list_lookup_insert_eq; [done|]. by rewrite length_insert.
  - rewrite list_lookup_insert_ne by done.
    by rewrite list_lookup_insert_eq.
  - by rewrite !list_lookup_insert_ne by done.
Qed.

Lemma length_list_swap l i j : length (list_swap l i j) = length l.
Proof.
  unfold list_swap. repeat case_match; by rewrite ?length_insert.
Qed.

Lemma length_list_ins l v c : length (list_ins l v c) = S (length l).
Proof.
  unfold list_ins. rewrite length_app. simpl.
  rewrite length_take, length_drop. lia.
Qed.

Lemma lookup_list_ins l v c k :
  (c ≤ length l)%nat →
  list_ins l v c !! k
  = if decide (k < c)%nat then l !! k
    else if decide (k = c) then Some v else l !! pred k.
Proof.
  intros Hc. unfold list_ins. repeat case_decide.
  - rewrite lookup_app_l by (rewrite length_take; lia).
    by rewrite lookup_take_lt.
  - subst. rewrite lookup_app_r by (rewrite length_take; lia).
    rewrite length_take. by replace (c - c `min` length l)%nat with 0%nat by lia.
  - rewrite lookup_app_r by (rewrite length_take; lia).
    rewrite length_take.
    replace (k - c `min` length l)%nat with (S (k - c - 1)) by lia.
    simpl. rewrite lookup_drop. f_equal. lia.
Qed.

Lemma list_ins_0 l v : list_ins l v 0 = v :: l.
Proof. done. Qed.

Lemma list_ins_length l v : list_ins l v (length l) = l ++ [v].
Proof. unfold list_ins. by rewrite firstn_all, drop_all. Qed.

(** Moving the inserted entry one place to the right or to the left is a
    swap with its neighbour, in either argument order. *)
Lemma list_swap_ins_right l v c :
  (c < length l)%nat →
  list_swap (list_ins l v c) c (S c) = list_ins l v (S c).
Proof.
  intros Hc. apply list_eq. intros k.
  rewrite lookup_list_swap by (rewrite length_list_ins; lia).
  rewrite !lookup_list_ins by lia.
  repeat case_decide; try arith. subst. simpl. done.
Qed.

Lemma list_swap_ins_right' l v c :
  (c < length l)%nat →
  list_swap (list_ins l v c) (S c) c = list_ins l v (S c).
Proof.
  intros Hc. apply list_eq. intros k.
  rewrite lookup_list_swap by (rewrite length_list_ins; lia).
  rewrite !lookup_list_ins by lia.
  repeat case_decide; try arith. subst. simpl. done.
Qed.

Lemma list_swap_ins_left l v c :
  (c < length l)%nat →
  list_swap (list_ins l v (S c)) (S c) c = list_ins l v c.
Proof.
  intros Hc. apply list_eq. intros k.
  rewrite lookup_list_swap by (rewrite length_list_ins; lia).
  rewrite !lookup_list_ins by lia.
  repeat case_decide; try arith. subst. simpl. done.
Qed.

Lemma list_swap_ins_left' l v c :
  (c < length l)%nat →
  list_swap (list_ins l v (S c)) c (S c) = list_ins l v c.
Proof.
  intros Hc. apply list_eq. intros k.
  rewrite lookup_list_swap by (rewrite length_list_ins; lia).
  rewrite !lookup_list_ins by lia.
  repeat case_decide; try arith. subst. simpl. done.
Qed.

Lemma length_list_del l c :
  (c < length l)%nat → length (list_del l c) = pred (length l).
Proof.
  intros. unfold list_del.
  rewrite length_app, length_take, length_drop. lia.
Qed.

(** Putting the deleted entry back gives the list. *)
Lemma list_ins_del l x c :
  l !! c = Some x → list_ins (list_del l c) x c = l.
Proof.
  intros Hx. pose proof (lookup_lt_Some _ _ _ Hx) as Hc.
  unfold list_ins, list_del.
  rewrite take_app_le by (rewrite length_take; lia).
  rewrite take_take, Nat.min_id.
  rewrite drop_app_ge by (rewrite length_take; lia).
  rewrite length_take.
  replace (c - c `min` length l)%nat with 0%nat by lia. rewrite drop_0.
  rewrite <- (take_drop c l) at 3. f_equal.
  symmetry. by apply drop_S.
Qed.

End ListFacts.

(** ** Insertion and erasure at a position *)
Section Shifting.
Context {T : Type}.
Implicit Types (b : circular_buffer T) (l : list T) (m : gmap Z T) (v x : T).

Lemma iter_swap_models b l (x y : basic_iterator) :
  models b l →
  0 ≤ arr_index (nd x) < sz b → 0 ≤ arr_index (nd y) < sz b →
  models (iter_swap b x y)
         (list_swap l (Z.to_nat (arr_index (nd x))) (Z.to_nat (arr_index (nd y)))).
Proof.
  intros Hb Hx Hy.
  pose proof (models_bounds _ _ Hb) as Hbd.
  pose proof (models_length _ _ Hb) as Hlen.
  destruct (models_allocated b _ Hb) as (m & Ea & _); [lia|].
  set (i := arr_index (nd x)) in *. set (j := arr_index (nd y)) in *.
  unfold iter_swap. fold i j.
  rewrite !(models_get_arr_pos b l) by (done || lia).
  set (pi := (head b + i) mod cap b). set (pj := (head b + j) mod cap b).
  assert (0 ≤ pi < cap b) by (apply Z.mod_pos_bound; lia).
  assert (0 ≤ pj < cap b) by (apply Z.mod_pos_bound; lia).
  assert ((pi - head b) mod cap b = i) as Hpi by (apply inv_phys; lia).
  assert ((pj - head b) mod cap b = j) as Hpj by (apply inv_phys; lia).
  rewrite Ea. unfold swap_elems. cbn [load].
  rewrite (models_slot_in b l m pi Hb Ea), (models_slot_in b l m pj Hb Ea),
    Hpi, Hpj by done.
  destruct (lookup_lt_is_Some_2 l (Z.to_nat i)) as [vi Hvi]; [lia|].
  destruct (lookup_lt_is_Some_2 l (Z.to_nat j)) as [vj Hvj]; [lia|].
  rewrite Hvi, Hvj. cbn [construct_at].
  apply models_intro; try lia.
  - by rewrite length_list_swap.
  - intros q Hq. rewrite lookup_list_swap by lia.
    pose proof (Z.mod_pos_bound (q - head b) (cap b)).
    assert ((head b + (q - head b) mod cap b) mod cap b = q) as Hq'
      by (apply phys_inv; lia).
    destruct (decide (pj = q)) as [<-|Hnj].
    + rewrite lookup_insert_eq, Hpj, decide_True by done. done.
    + rewrite lookup_insert_ne by done.
      rewrite decide_False.
      2:{ intros Hk. apply Hnj. rewrite <- Hq'. subst pj. f_equal. lia. }
      destruct (decide (pi = q)) as [<-|Hni].
      * rewrite lookup_insert_eq, Hpi, decide_True by done. done.
      * rewrite lookup_insert_ne by done.
        rewrite decide_False.
        2:{ intros Hk. apply Hni. rewrite <- Hq'. subst pi. f_equal. lia. }
        by apply (models_slot_in b l).
  - intros q Hq. rewrite !lookup_insert_ne by lia.
    by apply (models_slot_out b l).
Qed.

Lemma iter_at_succ this k :
  Z.of_nat k < 2 ^ 63 → iter_plus (iter_at this k) 1 = iter_at this (S k).
Proof.
  intros. unfold iter_plus, iter_add_assign, iter_at. simpl.
  int_simpl. do 2 f_equal. lia.
Qed.

Lemma iter_at_pred this k :
  Z.of_nat k < 2 ^ 63 → iter_minus (iter_at this (S k)) 1 = iter_at this k.
Proof.
  intros. unfold iter_minus, iter_sub_assign, iter_at. simpl.
  int_simpl. do 2 f_equal. lia.
Qed.

Lemma iter_lt_at this i j :
  iter_lt (iter_at this i) (iter_at this j) = bool_decide (i < j)%nat.
Proof.
  unfold iter_lt, iter_at. simpl. rewrite N.eqb_refl. simpl.
  case_bool_decide; [apply Z.ltb_lt | apply Z.ltb_ge]; lia.
Qed.

Lemma iter_gt_at this i j :
  iter_gt (iter_at this i) (iter_at this j) = bool_decide (j < i)%nat.
Proof.
  unfold iter_gt, iter_at. simpl. rewrite N.eqb_refl. simpl.
  rewrite Z.gtb_ltb.
  case_bool_decide; [apply Z.ltb_lt | apply Z.ltb_ge]; lia.
Qed.

(** The loop of the front branch of [insert]: the new element travels
    from index [k] up to index [p]. *)
Lemma insert_front_loop this l v p n : ∀ k b fuel,
  models b (list_ins l v k) → (k + n = p)%nat → (p ≤ length l)%nat →
  (n ≤ fuel)%nat →
  ∃ b', while_loop fuel
          (λ s, iter_lt (snd s) (iter_at this p))
          (λ s, let cur := snd s in
                let nxt := iter_plus cur 1 in
                (iter_swap (fst s) cur nxt, iter_incr cur))
          (b, iter_at this k) = Some (b', iter_at this p) ∧
        models b' (list_ins l v p).
Proof.
  induction n as [|n IH]; intros k b fuel Hb Hk Hp Hfuel.
  - replace k with p in * by lia. exists b. split; [|done].
    destruct fuel; simpl; rewrite iter_lt_at, bool_decide_eq_false_2; (done || lia).
  - destruct fuel as [|fuel]; [lia|].
    pose proof (models_bounds _ _ Hb) as Hbd.
    pose proof (models_length _ _ Hb) as Hlen.
    rewrite length_list_ins in Hlen.
    cbn [while_loop snd fst]. rewrite iter_lt_at, bool_decide_eq_true_2 by lia.
    unfold iter_incr. fold (iter_plus (iter_at this k) 1).
    rewrite iter_at_succ by lia.
    apply IH; try lia.
    rewrite <- (list_swap_ins_right l v k) by lia.
    pose proof (iter_swap_models b _ (iter_at this k) (iter_at this (S k)) Hb)
      as Hs.
    unfold iter_at in Hs. cbn [nd arr_index] in Hs.
    rewrite !Nat2Z.id in Hs. apply Hs; lia.
Qed.

(** The loop of the back branch of [insert]: the new element travels from
    index [k] down to index [p]. *)
Lemma insert_back_loop this l v p n : ∀ k b fuel,
  models b (list_ins l v k) → (k = p + n)%nat → (k ≤ length l)%nat →
  (n ≤ fuel)%nat →
  ∃ b', while_loop fuel
          (λ s, iter_gt (snd s) (iter_at this p))
          (λ s, let cur := snd s in
                let prv := iter_minus cur 1 in
                (iter_swap (fst s) cur prv, iter_decr cur))
          (b, iter_at this k) = Some (b', iter_at this p) ∧
        models b' (list_ins l v p).
Proof.
  induction n as [|n IH]; intros k b fuel Hb Hk Hp Hfuel.
  - replace k with p in * by lia. exists b. split; [|done].
    destruct fuel; simpl; rewrite iter_gt_at, bool_decide_eq_false_2; (done || lia).
  - destruct fuel as [|fuel]; [lia|].
    destruct k as [|k]; [lia|].
    pose proof (models_bounds _ _ Hb) as Hbd.
    pose proof (models_length _ _ Hb) as Hlen.
    rewrite length_list_ins in Hlen.
    cbn [while_loop snd fst]. rewrite iter_gt_at, bool_decide_eq_true_2 by lia.
    unfold iter_decr. fold (iter_minus (iter_at this (S k)) 1).
    rewrite iter_at_pred by lia.
    apply IH; try lia.
    rewrite <- (list_swap_ins_left l v k) by lia.
    pose proof (iter_swap_models b _ (iter_at this (S k)) (iter_at this k) Hb)
      as Hs.
    unfold iter_at in Hs. cbn [nd arr_index] in Hs.
    rewrite !Nat2Z.id in Hs. apply Hs; lia.
Qed.

Lemma begin_at this b : begin this b = iter_at this 0.
Proof. done. Qed.

(** The loop of the front branch of [erase]: the element to remove
    travels from index [k] down to the front. *)
Lemma erase_front_loop this l x k : ∀ b fuel,
  models b (list_ins l x k) → (k ≤ length l)%nat → (k ≤ fuel)%nat →
  ∃ b', while_loop fuel
          (λ s, iter_gt (snd s) (begin this (fst s)))
          (λ s, let cur := snd s in
                let prv := iter_minus cur 1 in
                (iter_swap (fst s) prv cur, iter_decr cur))
          (b, iter_at this k) = Some (b', iter_at this 0) ∧
        models b' (x :: l).
Proof.
  induction k as [|k IH]; intros b fuel Hb Hk Hfuel.
  - exists b. split; [|done].
    destruct fuel; cbn [while_loop snd fst];
      rewrite begin_at, iter_gt_at, bool_decide_eq_false_2; (done || lia).
  - destruct fuel as [|fuel]; [lia|].
    pose proof (models_bounds _ _ Hb) as Hbd.
    pose proof (models_length _ _ Hb) as Hlen.
    rewrite length_list_ins in Hlen.
    cbn [while_loop snd fst].
    rewrite begin_at, iter_gt_at, bool_decide_eq_true_2 by lia.
    unfold iter_decr. fold (iter_minus (iter_at this (S k)) 1).
    rewrite iter_at_pred by lia.
    apply IH; try lia.
    rewrite <- (list_swap_ins_left' l x k) by lia.
    pose proof (iter_swap_models b _ (iter_at this k) (iter_at this (S k)) Hb)
      as Hs.
    unfold iter_at in Hs. cbn [nd arr_index] in Hs.
    rewrite !Nat2Z.id in Hs. apply Hs; lia.
Qed.

(** The loop of the back branch of [erase]: the element to remove travels
    from index [k] up to the back. *)
Lemma erase_back_loop this l x n : ∀ k b fuel,
  models b (list_ins l x k) → (k + n = length l)%nat → (n ≤ fuel)%nat →
  ∃ b', while_loop fuel
          (λ s, iter_lt (snd s) (iter_minus (end_ this (fst s)) 1))
          (λ s, let cur := snd s in
                let nxt := iter_plus cur 1 in
                (iter_swap (fst s) nxt cur, iter_incr cur))
          (b, iter_at this k) = Some (b', iter_at this (length l)) ∧
        models b' (l ++ [x]).
Proof.
  induction n as [|n IH]; intros k b fuel Hb Hk Hfuel.
  - replace k with (length l) in * by lia. exists b.
    rewrite list_ins_length in Hb. split; [|done].
    pose proof (models_bounds _ _ Hb) as Hbd.
    pose proof (models_length _ _ Hb) as Hlen.
    rewrite length_app in Hlen. simpl in Hlen.
    assert (iter_minus (end_ this b) 1 = iter_at this (length l)) as Hend.
    { unfold end_. rewrite Hlen.
      replace (Z.of_nat (length l + 1)) with (Z.of_nat (S (length l))) by lia.
      apply iter_at_pred. lia. }
    destruct fuel; cbn [while_loop snd fst];
      rewrite Hend, iter_lt_at, bool_decide_eq_false_2; (done || lia).
  - destruct fuel as [|fuel]; [lia|].
    pose proof (models_bounds _ _ Hb) as Hbd.
    pose proof (models_length _ _ Hb) as Hlen.
    rewrite length_list_ins in Hlen.
    assert (iter_minus (end_ this b) 1 = iter_at this (length l)) as Hend.
    { unfold end_. rewrite Hlen. apply iter_at_pred. lia. }
    cbn [while_loop snd fst].
    rewrite Hend, iter_lt_at, bool_decide_eq_true_2 by lia.
    unfold iter_incr. fold (iter_plus (iter_at this k) 1).
    rewrite iter_at_succ by lia.
    apply IH; try lia.
    rewrite <- (list_swap_ins_right' l x k) by lia.
    pose proof (iter_swap_models b _ (iter_at this (S k)) (iter_at this k) Hb)
      as Hs.
    unfold iter_at in Hs. cbn [nd arr_index] in Hs.
    rewrite !Nat2Z.id in Hs. apply Hs; lia.
Qed.

Lemma iter_diff_at this i j :
  Z.of_nat i < 2 ^ 62 → Z.of_nat j < 2 ^ 62 →
  iter_diff (iter_at this i) (iter_at this j) = Z.of_nat i - Z.of_nat j.
Proof.
  intros. unfold iter_diff, iter_at. cbn [nd arr_index].
  rewrite to_ptrdiff_t_size_t. apply to_ptrdiff_t_small. lia.
Qed.

(** The test that selects the branch of [insert] and [erase]. *)
Lemma front_branch_at this b l (p : nat) :
  models b l → (p ≤ length l)%nat →
  (iter_diff (iter_at this p) (begin this b)
     <? iter_diff (end_ this b) (iter_at this p))
  = bool_decide (p < length l - p)%nat.
Proof.
  intros Hb Hp.
  pose proof (models_bounds _ _ Hb) as Hbd.
  pose proof (models_length _ _ Hb) as Hlen.
  unfold begin, end_. rewrite Hlen.
  change 0 with (Z.of_nat 0). fold (iter_at this 0) (iter_at this (length l)).
  rewrite !iter_diff_at by lia.
  case_bool_decide; [apply Z.ltb_lt | apply Z.ltb_ge]; lia.
Qed.

Lemma end_pred_at this b l x :
  models b (l ++ [x]) → iter_minus (end_ this b) 1 = iter_at this (length l).
Proof.
  intros Hb.
  pose proof (models_bounds _ _ Hb) as Hbd.
  pose proof (models_length _ _ Hb) as Hlen.
  rewrite length_app in Hlen. simpl in Hlen.
  unfold end_. rewrite Hlen.
  replace (Z.of_nat (length l + 1)) with (Z.of_nat (S (length l))) by lia.
  apply iter_at_pred. lia.
Qed.

(** [insert] at a valid position of a buffer on which [push_back] works
    (see [push_back_models]) puts the value at that logical index. *)
Lemma insert_models fuel this b l (p : nat) v :
  models b l → 2 * cap b ≤ INT_MAX → (p ≤ length l)%nat →
  (length l ≤ fuel)%nat →
  l ≠ [] ∨ head (ensure_cap b) = 0 →
  ∃ b', insert fuel this b (iter_at this p) v = Some (b', iter_at this p) ∧
        models b' (list_ins l v p).
Proof.
  intros Hb Hmax Hp Hfuel Hguard.
  unfold insert. rewrite (front_branch_at this b l p Hb Hp).
  case_bool_decide as Hlt.
  - rewrite begin_at.
    apply (insert_front_loop this l v p p 0%nat); try lia.
    rewrite list_ins_0. by apply push_front_models.
  - pose proof (push_back_models b l v Hb Hmax Hguard) as Hb1.
    rewrite (end_pred_at this _ l v Hb1).
    apply (insert_back_loop this l v p (length l - p)); try lia.
    by rewrite list_ins_length.
Qed.

(** [erase] at a valid position removes exactly that element. *)
Lemma erase_models fuel this b l (p : nat) :
  models b l → (p < length l)%nat → (length l ≤ fuel)%nat →
  ∃ b', erase fuel this b (iter_at this p) = Some (b', iter_at this p) ∧
        models b' (list_del l p).
Proof.
  intros Hb Hp Hfuel.
  destruct (lookup_lt_is_Some_2 l p Hp) as [x Hx].
  pose proof (length_list_del l p Hp) as Hdl.
  unfold erase. rewrite (front_branch_at this b l p Hb) by lia.
  change (Iter (Node this (get_arr_index (iter_at this p))))
    with (iter_at this p).
  rewrite <- (list_ins_del l x p Hx) in Hb.
  case_bool_decide as Hlt.
  - destruct (erase_front_loop this (list_del l p) x p b fuel Hb)
      as (b' & Hloop & Hb'); try lia.
    cbv zeta in Hloop. rewrite Hloop. cbn [mbind option_bind fst].
    eexists. split; [done|]. by apply (pop_front_models b' x).
  - destruct (erase_back_loop this (list_del l p) x (length l - 1 - p) p b fuel Hb)
      as (b' & Hloop & Hb'); try lia.
    cbv zeta in Hloop. rewrite Hloop. cbn [mbind option_bind fst].
    eexists. split; [done|]. by apply (pop_back_models b' _ x).
Qed.

End Shifting.

(** ** Erasure of a range *)
Section RangeErase.
Context {T : Type}.
Implicit Types (b : circular_buffer T) (l L : list T) (f la t d : nat).

Lemma pop_back_iter_models b L d :
  models b L → (d ≤ length L)%nat →
  models (Nat.iter d pop_back b) (take (length L - d) L).
Proof.
  intros Hb. induction d as [|d IH]; intros Hd.
  - rewrite Nat.sub_0_r, firstn_all. done.
  - simpl.
    destruct (lookup_lt_is_Some_2 L (length L - S d)) as [x Hx]; [lia|].
    apply (pop_back_models _ _ x).
    rewrite <- (take_S_r _ _ _ Hx).
    replace (S (length L - S d)) with (length L - d)%nat by lia.
    apply IH. lia.
Qed.

Lemma pop_front_iter_models b L d :
  models b L → (d ≤ length L)%nat →
  models (Nat.iter d pop_front b) (drop d L).
Proof.
  intros Hb. induction d as [|d IH]; intros Hd.
  - by rewrite drop_0.
  - simpl.
    destruct (lookup_lt_is_Some_2 L d) as [x Hx]; [lia|].
    apply (pop_front_models _ x).
    rewrite <- (drop_S _ _ _ Hx). apply IH. lia.
Qed.

Lemma end_at this b L : models b L → end_ this b = iter_at this (length L).
Proof. intros Hb. unfold end_. by rewrite (models_length _ _ Hb). Qed.

Lemma list_swap_same L i : list_swap L i i = L.
Proof.
  unfold list_swap. destruct (L !! i) as [x|] eqn:E; [|done].
  by rewrite list_insert_insert_eq, list_insert_id.
Qed.

(** The loop of the back branch: the entries from [la] on are swapped
    down to [f], one by one. *)
Lemma erase_range_back_loop this l f la m : ∀ t b L fuel,
  models b L → length L = length l → (f ≤ la)%nat →
  (la + t + m = length l)%nat → (m ≤ fuel)%nat →
  (∀ i, (i < f + t)%nat → L !! i = (take f l ++ drop la l) !! i) →
  (∀ i, (la + t ≤ i)%nat → L !! i = l !! i) →
  ∃ b' L' s',
    while_loop fuel
      (λ s, iter_lt (fst (snd s)) (end_ this (fst s)))
      (λ s, let '(b', (b1, b2)) := s in
            (iter_swap b' b1 b2, (iter_incr b1, iter_incr b2)))
      (b, (iter_at this (la + t), iter_at this (f + t))) = Some (b', s') ∧
    models b' L' ∧ length L' = length l ∧
    ∀ i, (i < f + (length l - la))%nat →
         L' !! i = (take f l ++ drop la l) !! i.
Proof.
  induction m as [|m IH]; intros t b L fuel Hb HL Hf Hm Hfuel Hlow Hhigh.
  - exists b, L. eexists. split; [|split; [done|split; [done|]]].
    + destruct fuel; cbn [while_loop snd fst];
        rewrite (end_at this b L Hb), iter_lt_at, bool_decide_eq_false_2;
        (done || lia).
    + intros i Hi. apply Hlow. lia.
  - destruct fuel as [|fuel]; [lia|].
    pose proof (models_bounds _ _ Hb) as Hbd.
    pose proof (models_length _ _ Hb) as Hlen.
    cbn [while_loop snd fst].
    rewrite (end_at this b L Hb), iter_lt_at, bool_decide_eq_true_2 by lia.
    unfold iter_incr.
    fold (iter_plus (iter_at this (la + t)) 1).
    fold (iter_plus (iter_at this (f + t)) 1).
    rewrite !iter_at_succ by lia.
    replace (S (la + t)) with (la + S t)%nat by lia.
    replace (S (f + t)) with (f + S t)%nat by lia.
    pose proof (iter_swap_models b L (iter_at this (la + t))
                  (iter_at this (f + t)) Hb) as Hs.
    unfold iter_at in Hs. cbn [nd arr_index] in Hs.
    rewrite !Nat2Z.id in Hs.
    apply (IH (S t) _ (list_swap L (la + t) (f + t))); try lia.
    + apply Hs; lia.
    + by rewrite length_list_swap.
    + intros i Hi. rewrite lookup_list_swap by lia.
      case_decide as E1.
      * subst i. rewrite Hhigh by lia.
        rewrite lookup_app_r by (rewrite length_take; lia).
        rewrite length_take, lookup_drop. f_equal. lia.
      * rewrite decide_False by lia. apply Hlow. lia.
    + intros i Hi. rewrite lookup_list_swap by lia.
      rewrite !decide_False by lia. apply Hhigh. lia.
Qed.

(** The loop of the front branch when the range is empty: every swap
    exchanges an entry with itself. *)
Lemma erase_range_front_loop_same this k : ∀ b L fuel,
  models b L → (k < length L)%nat → (k ≤ fuel)%nat →
  ∃ s', while_loop fuel
          (λ s, iter_gt (fst (snd s)) (begin this (fst s)))
          (λ s, let '(b', (e1, e2)) := s in
                (iter_swap b' e1 e2, (iter_decr e1, iter_decr e2)))
          (b, (iter_at this k, iter_at this k)) = Some (b, s').
Proof.
  induction k as [|k IH]; intros b L fuel Hb Hk Hfuel.
  - exists (iter_at this 0, iter_at this 0).
    destruct fuel; cbn [while_loop snd fst];
      rewrite begin_at, iter_gt_at, bool_decide_eq_false_2; (done || lia).
  - destruct fuel as [|fuel]; [lia|].
    pose proof (models_bounds _ _ Hb) as Hbd.
    pose proof (models_length _ _ Hb) as Hlen.
    cbn [while_loop snd fst].
    rewrite begin_at, iter_gt_at, bool_decide_eq_true_2 by lia.
    unfold iter_decr. fold (iter_minus (iter_at this (S k)) 1).
    rewrite iter_at_pred by lia.
    assert (iter_swap b (iter_at this (S k)) (iter_at this (S k)) = b) as ->.
    { destruct b as [h s c a]. unfold iter_swap. cbn [head sz cap arr].
      f_equal. unfold swap_elems.
      destruct (load a _) as [x|] eqn:E; [|done].
      destruct a as [m|]; [|done]. simpl in *.
      by rewrite insert_insert_eq, insert_id. }
    apply (IH b L); (done || lia).
Qed.

Lemma range_branch_at this b l f la :
  models b l → (f ≤ la)%nat → (la ≤ length l)%nat →
  (iter_diff (iter_at this f) (begin this b)
     <? iter_diff (end_ this b) (iter_at this la))
  = bool_decide (f < length l - la)%nat.
Proof.
  intros Hb Hf Hla.
  pose proof (models_bounds _ _ Hb) as Hbd.
  pose proof (models_length _ _ Hb) as Hlen.
  rewrite begin_at, (end_at this b l Hb).
  rewrite !iter_diff_at by lia.
  case_bool_decide; [apply Z.ltb_lt | apply Z.ltb_ge]; lia.
Qed.

(** [erase(first, last)] removes the range when the front branch has
    nothing to shift ([first] is [begin()] or the range is empty) and
    whenever the back branch is taken. *)
Lemma erase_range_models fuel this b l f la :
  models b l → (f ≤ la)%nat → (la ≤ length l)%nat → (length l ≤ fuel)%nat →
  f = 0%nat ∨ f = la ∨ (length l - la ≤ f)%nat →
  ∃ b', erase_range fuel this b (iter_at this f) (iter_at this la)
        = Some (b', iter_at this f) ∧
        models b' (take f l ++ drop la l).
Proof.
  intros Hb Hf Hla Hfuel Hcase.
  pose proof (models_bounds _ _ Hb) as Hbd.
  pose proof (models_length _ _ Hb) as Hlen.
  unfold erase_range. rewrite (range_branch_at this b l f la Hb Hf Hla).
  unfold get_arr_index. cbn [iter_at nd arr_index].
  fold (iter_at this f) (iter_at this la).
  replace (Z.to_nat (to_size_t (Z.of_nat la - Z.of_nat f)))
    with (la - f)%nat by (rewrite to_size_t_small; lia).
  case_bool_decide as Hbr.
  - (* front branch *)
    destruct Hcase as [-> | [-> | ?]]; [| |lia].
    + rewrite begin_at, iter_gt_at, bool_decide_eq_false_2 by lia.
      cbn [mbind option_bind fst]. eexists. split; [done|].
      rewrite Nat.sub_0_r, take_0. simpl.
      by apply pop_front_iter_models.
    + rewrite begin_at, iter_gt_at.
      replace (la - la)%nat with 0%nat by lia.
      rewrite take_drop. case_bool_decide as Hpos.
      * int_simpl.
        replace (Z.of_nat la - 1) with (Z.of_nat (la - 1)) by lia.
        fold (iter_at this (la - 1)).
        destruct (erase_range_front_loop_same this (la - 1) b l fuel Hb)
          as (s' & Hloop); [lia | lia |].
        cbv zeta in Hloop. rewrite Hloop. cbn [mbind option_bind fst].
        eexists. split; done.
      * cbn [mbind option_bind fst]. eexists. split; done.
  - (* back branch *)
    rewrite (end_at this b l Hb). unfold iter_ne, iter_eq, iter_at.
    cbn [nd buf arr_index]. rewrite N.eqb_refl. cbn [andb].
    fold (iter_at this f) (iter_at this la).
    destruct (Z.eqb_spec (Z.of_nat la) (Z.of_nat (length l))) as [E|E];
      cbn [negb].
    + cbn [mbind option_bind fst]. eexists. split; [done|].
      replace la with (length l) by lia.
      rewrite drop_all, app_nil_r.
      replace f with (length l - (length l - f))%nat at 2 by lia.
      apply pop_back_iter_models; [done | lia].
    + destruct (erase_range_back_loop this l f la (length l - la) 0 b l fuel)
        as (b' & L' & s' & Hloop & Hb' & HL' & Hlow);
        try (done || lia).
      { intros i Hi. rewrite lookup_app_l by (rewrite length_take; lia).
        rewrite lookup_take_lt by lia. done. }
      rewrite !Nat.add_0_r in Hloop. cbv zeta in Hloop.
      rewrite Hloop. cbn [mbind option_bind fst].
      eexists. split; [done|].
      replace (take f l ++ drop la l)
        with (take (length L' - (la - f)) L').
      * apply pop_back_iter_models; [done | lia].
      * apply list_eq. intros i.
        destruct (decide (i < f + (length l - la))%nat).
        -- rewrite lookup_take_lt by lia. by apply Hlow.
        -- rewrite lookup_take_ge by lia. symmetry.
           apply lookup_ge_None.
           rewrite length_app, length_take, length_drop. lia.
Qed.

End RangeErase.

(** ** The size counter along a run *)
Section RunFacts.
Context {T : Type}.
Implicit Types (b : circular_buffer T) (l q : list T).
Implicit Types (o : op T) (ops : list (op T)).

Lemma sz_increase_cap b n : sz (increase_cap b n) = sz b.
Proof. unfold increase_cap. by case_match. Qed.

Lemma sz_ensure_cap b : sz (ensure_cap b) = sz b.
Proof.
  unfold ensure_cap.
  destruct (to_size_t (sz b + 1) >=? cap b); [|done].
  destruct (cap b =? 0); apply sz_increase_cap.
Qed.

Lemma sz_step b o :
  sz (step b o) = to_size_t (sz b + (if is_push o then 1 else -1)).
Proof. destruct o; simpl; by rewrite ?sz_ensure_cap. Qed.

(** The size counter after a run, in [size_t] arithmetic. *)
Lemma sz_run ops : ∀ b,
  to_size_t (sz (run b ops))
  = to_size_t (sz b + (Z.of_nat (pushes ops) - Z.of_nat (pops ops))).
Proof.
  unfold run, pushes, pops.
  induction ops as [|o ops IH]; intros b; simpl.
  - f_equal. lia.
  - rewrite IH, sz_step. rewrite !filter_cons.
    set (P := length (filter is_push ops)).
    set (Q := length (filter (λ o, negb (is_push o)) ops)).
    rewrite !to_size_t_add_l.
    destruct (is_push o); simpl; fold P Q; f_equal; lia.
Qed.

Lemma sz_run_range ops : ∀ b,
  0 ≤ sz b < 2 ^ 64 → 0 ≤ sz (run b ops) < 2 ^ 64.
Proof.
  unfold run. induction ops as [|o ops IH]; intros b Hb; simpl; [done|].
  apply IH. rewrite sz_step. apply to_size_t_range.
Qed.

Lemma pops_valid_count ops : ∀ n,
  pops_valid n ops = true → (pops ops ≤ n + pushes ops)%nat.
Proof.
  unfold pushes, pops.
  induction ops as [|o ops IH]; intros n Hv; simpl in *; [lia|].
  rewrite !filter_cons.
  destruct (is_push o); simpl.
  - apply IH in Hv. lia.
  - destruct n; [done|]. apply IH in Hv. lia.
Qed.

End RunFacts.

(** ** Repeated [push_back] from the empty buffer *)
Section GrowthSequence.

Lemma push_back_n_S n : push_back_n (S n) = push_back (push_back_n n) 0.
Proof.
  unfold push_back_n.
  replace (replicate (S n) 0) with (replicate n 0 ++ [0]).
  - by rewrite foldl_snoc.
  - change [0] with (replicate 1 0). rewrite <- replicate_add.
    f_equal. lia.
Qed.

Lemma ensure_cap_head_0 {T} (b : circular_buffer T) l :
  models b l → 2 * cap b ≤ INT_MAX → head b = 0 → head (ensure_cap b) = 0.
Proof.
  intros Hb Hmax Hh.
  destruct (ensure_cap_models b l Hb Hmax) as (_ & _ & [-> | ->]); done.
Qed.

Lemma head_push_back {T} (b : circular_buffer T) v :
  head (push_back b v) = head (ensure_cap b).
Proof. done. Qed.

Lemma cap_push_back {T} (b : circular_buffer T) v :
  cap (push_back b v) = cap (ensure_cap b).
Proof. done. Qed.

(** Pushing a whole list onto the empty buffer with [push_back] never
    meets that case: the head stays at slot [0]. *)
Lemma foldl_push_back_models {T} (l : list T) :
  4 * Z.of_nat (length l) + 6 ≤ INT_MAX →
  models (foldl push_back empty_buffer l) l ∧
  head (foldl push_back empty_buffer l) = 0 ∧
  cap (foldl push_back empty_buffer l) ≤ 2 * Z.of_nat (length l) + 3.
Proof.
  induction l as [|v l IH] using rev_ind; intros Hn.
  - split; [apply models_empty_buffer|]. simpl. lia.
  - rewrite length_app in *. simpl in Hn.
    destruct IH as (Hb & Hh & Hc); [lia|].
    rewrite foldl_snoc. set (b := foldl push_back empty_buffer l) in *.
    pose proof (models_bounds _ _ Hb) as Hbd.
    pose proof (models_length _ _ Hb) as Hlen.
    assert (2 * cap b ≤ INT_MAX) as Hmax by lia.
    pose proof (ensure_cap_head_0 _ _ Hb Hmax Hh) as Hh'.
    split; [|split].
    + apply push_back_models; auto.
    + by rewrite head_push_back.
    + rewrite cap_push_back. simpl.
      destruct (decide (sz b + 1 < cap b)).
      * rewrite ensure_cap_noop by lia. lia.
      * destruct (ensure_cap_grows _ _ Hb) as (_ & _ & ->); [lia | done |].
        destruct (Z.eqb_spec (cap b) 0); lia.
Qed.

(** In particular for [push_back_n]. *)
Lemma push_back_n_models n :
  4 * Z.of_nat n + 6 ≤ INT_MAX →
  models (push_back_n n) (replicate n 0) ∧
  head (push_back_n n) = 0 ∧
  cap (push_back_n n) ≤ 2 * Z.of_nat n + 3.
Proof.
  intros Hn. pose proof (foldl_push_back_models (replicate n 0)) as H.
  rewrite length_replicate in H. by apply H.
Qed.

End GrowthSequence.

(** ** Usable capacity and [ensure_cap] *)
Section Reserve.
Context {T : Type}.
Implicit Types (b : circular_buffer T) (l : list T).

(** A push leaves the capacity alone exactly while the size is below the
    usable capacity. *)
Lemma usable_capacity_room b l :
  models b l → 2 * cap b ≤ INT_MAX →
  (sz b < usable_capacity b ↔ cap (ensure_cap b) = cap b).
Proof.
  intros Hb Hmax. pose proof (models_bounds _ _ Hb) as Hbd.
  unfold usable_capacity. split.
  - intros Hlt. rewrite ensure_cap_noop by lia. done.
  - intros Hc. destruct (decide (sz b + 1 < cap b)); [lia|].
    destruct (ensure_cap_grows b l Hb) as (_ & _ & Hc'); [lia | done |].
    rewrite Hc' in Hc. destruct (Z.eqb_spec (cap b) 0); lia.
Qed.

End Reserve.

(** ** Without a fault the operations with handlers are those of the storage core *)
Section NoThrow.
Context {T : Type}.
Implicit Types (b : circular_buffer T) (d : block T).

Lemma copy_loop_rethrow_None b indices : ∀ d,
  ∃ d', copy_loop_rethrow b indices None d = (None, d', false) ∧
        released d' = released d ∧
        Some (slots d')
        = foldl (λ a i, copy_construct_at a (to_size_t (i - head b))
                                          (load (arr b) i))
                (Some (slots d)) indices.
Proof.
  induction indices as [|i rest IH]; intros d; simpl.
  - by exists d.
  - destruct (load (arr b) i) as [v|]; simpl; [|apply IH].
    destruct (IH (block_construct d (to_size_t (i - head b)) v))
      as (d' & -> & Hr & Hs).
    by exists d'.
Qed.

Lemma copy_loop_swallow_None b head_len indices : ∀ d,
  ∃ d', copy_loop_swallow b head_len indices None d = (None, d') ∧
        released d' = released d ∧
        Some (slots d')
        = foldl (λ a i, copy_construct_at a (to_size_t (i + head_len))
                                          (load (arr b) i))
                (Some (slots d)) indices.
Proof.
  induction indices as [|i rest IH]; intros d; simpl.
  - by exists d.
  - destruct (load (arr b) i) as [v|]; simpl; [|apply IH].
    destruct (IH (block_construct d (to_size_t (i + head_len)) v))
      as (d' & -> & Hr & Hs).
    by exists d'.
Qed.

Lemma copyToArray_throwing_None b :
  ∃ d, copyToArray_throwing b None fresh_block = (None, d, false) ∧
       released d = false ∧ Some (slots d) = copyToArray b (Some ∅).
Proof.
  unfold copyToArray_throwing, copyToArray.
  destruct (head b <=? tail b).
  - destruct (copy_loop_rethrow_None b (seqZ (head b) (sz b)) fresh_block)
      as (d & -> & Hr & Hs).
    by exists d.
  - destruct (copy_loop_rethrow_None b (seqZ (head b) (cap b - head b))
                fresh_block) as (d1 & -> & Hr1 & Hs1).
    destruct (copy_loop_swallow_None b (to_int (to_size_t (cap b - head b)))
                (seqZ 0 (tail b + 1)) d1) as (d2 & -> & Hr2 & Hs2).
    exists d2. split; [done|]. split; [by rewrite Hr2|].
    rewrite Hs2. f_equal. done.
Qed.

Lemma increase_cap_throwing_None b n :
  increase_cap_throwing None b n = Completed None (increase_cap b n) false.
Proof.
  unfold increase_cap_throwing, increase_cap.
  destruct (n >=? cap b); [|done].
  destruct (copyToArray_throwing_None b) as (d & -> & -> & <-). done.
Qed.

Lemma reserve_throwing_None b n :
  reserve_throwing None b n = Completed None (reserve b n) false.
Proof. apply increase_cap_throwing_None. Qed.

(** With a heap that serves the request [increase_cap_new] is
    [increase_cap_throwing]; with one that refuses it the exception of
    [operator new] leaves the call at once. *)
Lemma increase_cap_new_served (sizeof_T : Z) (heap : Z → bool) c b n :
  heap (alloc_request sizeof_T n) = true →
  increase_cap_new sizeof_T heap c b n = increase_cap_throwing c b n.
Proof.
  intros Hh. unfold increase_cap_new, increase_cap_throwing.
  by rewrite Hh.
Qed.

Lemma increase_cap_new_refused (sizeof_T : Z) (heap : Z → bool) c b n :
  cap b ≤ n → heap (alloc_request sizeof_T n) = false →
  increase_cap_new sizeof_T heap c b n = Propagated c b None.
Proof.
  intros Hn Hh. unfold increase_cap_new.
  by rewrite (proj2 (Z.geb_le _ _)), Hh by lia.
Qed.

Lemma alloc_request_small (sizeof_T n : Z) :
  0 ≤ n → 0 < sizeof_T → (n + 1) * sizeof_T < 2 ^ 64 →
  alloc_request sizeof_T n = (n + 1) * sizeof_T.
Proof.
  intros Hn Hs Hb. unfold alloc_request.
  rewrite (to_size_t_small (n + 1)) by nia.
  apply to_size_t_small. nia.
Qed.

Lemma ensure_cap_throwing_None b :
  ensure_cap_throwing None b = Completed None (ensure_cap b) false.
Proof.
  unfold ensure_cap_throwing, ensure_cap.
  repeat case_match; by rewrite ?increase_cap_throwing_None.
Qed.

Lemma push_back_throwing_None b v :
  push_back_throwing None b v = Completed None (push_back b v) false.
Proof.
  unfold push_back_throwing. simpl. by rewrite ensure_cap_throwing_None.
Qed.

End NoThrow.

(** ** Where [push_back] goes wrong, and what still holds *)
Section PushBackDefect.
Context {T : Type}.
Implicit Types (b : circular_buffer T) (l q : list T).

(** After [push_back] on an empty buffer whose head is not slot [0] the
    live slot is not the slot the head designates. *)
Lemma push_back_breaks_invariant b v :
  models b [] → 1 < cap b → head b ≠ 0 → ¬ invariant (push_back b v).
Proof.
  intros Hb Hc Hh (_ & _ & Hlive).
  pose proof (models_bounds _ _ Hb) as Hbd.
  rewrite push_back_empty_uses_slot_0 in Hlive by done.
  destruct (models_allocated b [] Hb) as (m & Ea & _); [lia|].
  cbn [arr head sz cap] in Hlive. rewrite Ea in Hlive.
  destruct (proj1 (Hlive 0)) as (i & Hi & Heq).
  - simpl. rewrite lookup_insert_eq. eauto.
  - replace i with 0 in Heq by lia.
    rewrite Z.add_0_r, Z.mod_small in Heq by lia. lia.
Qed.

(** On a well-formed buffer the observations are those of the reference
    queue. *)
Lemma models_observe b q : models b q → observe b = deque_observe q.
Proof.
  intros Hb. unfold observe, deque_observe, size.
  rewrite (models_length _ _ Hb).
  destruct (decide (q = [])) as [->|Hq].
  - pose proof (models_length _ _ Hb) as Hlen. simpl in Hlen.
    unfold front, back, tail. rewrite Hlen. simpl.
    destruct Hb as (_ & _ & Harr).
    destruct (arr b) as [m|]; [|done]. destruct Harr as (? & ? & Hm).
    cbn [load]. by rewrite Hm, slot_of_nil.
  - f_equal. f_equal.
    + destruct q as [|x q]; [done|].
      by destruct (pop_front_models b x q Hb) as (_ & ->).
    + destruct (exists_last Hq) as (q' & y & ->).
      destruct (pop_back_models b q' y Hb) as (_ & ->).
      by rewrite last_snoc.
Qed.

(** One step of the buffer simulates one step of the reference queue,
    unless it is a [push_back] on an empty buffer whose head is not
    slot [0] or a pop of an empty buffer. *)
Lemma step_models b q (o : op T) :
  models b q → 2 * cap b ≤ INT_MAX →
  match o with
  | PushBack _ => q ≠ [] ∨ head (ensure_cap b) = 0
  | PushFront _ => True
  | PopBack | PopFront => q ≠ []
  end →
  models (step b o) (deque_step q o).
Proof.
  intros Hb Hmax Hok. destruct o as [v|v| |]; simpl.
  - by apply push_back_models.
  - by apply push_front_models.
  - destruct (exists_last Hok) as (q' & y & ->).
    rewrite removelast_last. by apply (pop_back_models b q' y).
  - destruct q as [|x q]; [done|]. by apply (pop_front_models b x q).
Qed.

Lemma cap_step_bound b q (o : op T) (k : nat) :
  models b q → (length q ≤ k)%nat → cap b ≤ 2 * Z.of_nat k + 3 →
  2 * cap b ≤ INT_MAX →
  cap (step b o) ≤ 2 * Z.of_nat (if is_push o then S k else k) + 3.
Proof.
  intros Hb Hk Hc Hmax.
  pose proof (models_bounds _ _ Hb) as Hbd.
  pose proof (models_length _ _ Hb) as Hlen.
  assert (cap (ensure_cap b) ≤ 2 * Z.of_nat (S k) + 3) as Hgrow.
  { destruct (decide (sz b + 1 < cap b)).
    - rewrite ensure_cap_noop by lia. lia.
    - destruct (ensure_cap_grows _ _ Hb) as (_ & _ & ->); [lia | done |].
      destruct (Z.eqb_spec (cap b) 0); lia. }
  destruct o; simpl; (done || lia).
Qed.

(** Step by step, a defect-free run shows the observations of the
    reference queue. *)
Lemma run_simulates (ops : list (op T)) : ∀ b q (k : nat),
  models b q → (length q ≤ k)%nat → cap b ≤ 2 * Z.of_nat k + 3 →
  4 * Z.of_nat (k + pushes ops) + 6 ≤ INT_MAX →
  defect_free b ops = true →
  trace b ops = deque_trace q ops ∧
  models (run b ops) (foldl deque_step q ops).
Proof.
  unfold run, pushes.
  induction ops as [|o ops IH]; intros b q k Hb Hk Hc Hmax Hfree;
    [done|].
  cbn [defect_free] in Hfree. apply andb_prop in Hfree as [Hok Hfree].
  cbn [trace deque_trace foldl].
  pose proof (models_length _ _ Hb) as Hlen.
  assert (2 * cap b ≤ INT_MAX) as Hmax' by lia.
  assert (models (step b o) (deque_step q o)) as Hb'.
  { apply step_models; [done..|]. unfold empty in Hok.
    destruct o; [|done|..].
    - apply orb_prop in Hok as [Hok|Hok].
      + left. intros ->. simpl in Hlen. rewrite Hlen in Hok. done.
      + right. by apply Z.eqb_eq.
    - intros ->. simpl in Hlen. rewrite Hlen in Hok. done.
    - intros ->. simpl in Hlen. rewrite Hlen in Hok. done. }
  rewrite (models_observe _ _ Hb').
  destruct (IH (step b o) (deque_step q o)
               (if is_push o then S k else k)) as (-> & Hrun);
    [done | | | | done | done].
  - destruct o; simpl; rewrite ?length_app; simpl; try lia.
    + destruct q using rev_ind; [simpl; lia|].
      rewrite removelast_last. rewrite length_app in Hk. lia.
    + destruct q; simpl in *; lia.
  - by apply (cap_step_bound b q).
  - rewrite filter_cons in Hmax. destruct (is_push o); simpl in *; lia.
Qed.

(** A run of [push_front] and [pop_back] alone is defect-free when no
    pop meets an empty buffer. *)
Lemma defect_free_reversed (ops : list (op T)) : ∀ b (n : nat),
  sz b = Z.of_nat n → Z.of_nat (n + pushes ops) < 2 ^ 63 →
  Forall (λ o, match o with PushFront _ | PopBack => True | _ => False end)
         ops →
  pops_valid n ops = true → defect_free b ops = true.
Proof.
  unfold pushes.
  induction ops as [|o ops IH]; intros b n Hsz Hn Hall Hv; [done|].
  inversion Hall as [|? ? Ho Hrest]; subst.
  rewrite filter_cons in Hn.
  destruct o as [v|v| |]; try done; cbn [defect_free pops_valid is_push] in *.
  - apply (IH _ (S n)); [|simpl in Hn; lia|done..].
    rewrite sz_step. simpl. rewrite to_size_t_small; lia.
  - destruct n as [|n]; [done|]. unfold empty. rewrite Hsz.
    simpl. apply (IH _ n); [|simpl in Hn; lia|done..].
    unfold pop_back. cbn [sz]. rewrite to_size_t_small; lia.
Qed.

(** The reversed FIFO: [push_front] and [pop_back] alone match the
    reference queue at every step. *)
Lemma reversed_fifo_simulates (ops : list (op T)) :
  Forall (λ o, match o with PushFront _ | PopBack => True | _ => False end)
         ops →
  pops_valid 0 ops = true →
  4 * Z.of_nat (pushes ops) + 6 ≤ INT_MAX →
  trace empty_buffer ops = deque_trace [] ops.
Proof.
  intros Hall Hv Hmax. rewrite INT_MAX_eq in Hmax.
  apply (run_simulates ops empty_buffer [] 0).
  - apply models_empty_buffer.
  - done.
  - simpl. lia.
  - rewrite INT_MAX_eq. simpl. lia.
  - apply (defect_free_reversed ops _ 0%nat); (done || simpl; lia).
Qed.

End PushBackDefect.

Lemma ensure_cap_step {T : Type} (b : circular_buffer T) (l : list T) :
  models b l → 2 * cap b ≤ INT_MAX →
  models (ensure_cap b) l ∧
  capacity (ensure_cap b)
  = if decide (capacity b ≤ size b + 1) then grown_capacity (capacity b)
    else capacity b.
Proof.
  intros Hb Hmax. pose proof (models_bounds _ _ Hb) as Hbd.
  unfold capacity, size, grown_capacity. case_decide as Hfull.
  - destruct (ensure_cap_grows b l Hb) as (? & _ & ?); done.
  - by rewrite ensure_cap_noop by lia.
Qed.

(** ** Properties of the interface *)
Section Interface.
Context {T : Type}.
Implicit Types (b : circular_buffer T) (l : list T).

(** C3 (amended): a push on a buffer whose [size + 1] reaches the capacity
    makes [ensure_cap] raise the capacity to twice its value, or to 3
    slots for a buffer that was never allocated, and keeps the sequence;
    otherwise the capacity stays.  Starting from the empty buffer the
    capacity after [n + 1] calls of [push_back] follows from the capacity
    after [n] calls by this rule, which gives the progression
    0, 3, 6, 12, 24. *)
Theorem ensure_cap_capacity b l :
  models b l → 2 * cap b ≤ INT_MAX →
  (models (ensure_cap b) l ∧
   capacity (ensure_cap b)
   = if decide (capacity b ≤ size b + 1) then grown_capacity (capacity b)
     else capacity b) ∧
  (∀ n, 4 * Z.of_nat n + 6 ≤ INT_MAX →
        size (push_back_n n) = Z.of_nat n ∧
        capacity (push_back_n (S n))
        = if decide (capacity (push_back_n n) ≤ Z.of_nat n + 1)
          then grown_capacity (capacity (push_back_n n))
          else capacity (push_back_n n)) ∧
  capacity_progression 14 = [0; 3; 3; 6; 6; 6; 12; 12; 12; 12; 12; 12; 24; 24].
Proof.
  intros Hb Hmax.
  split; [by apply ensure_cap_step|]. split; [|by vm_compute].
  intros n Hn. destruct (push_back_n_models n Hn) as (Hbn & Hh & Hc).
  pose proof (models_length _ _ Hbn) as Hlen.
  rewrite length_replicate in Hlen. split; [done|].
  rewrite push_back_n_S. unfold capacity at 1. rewrite cap_push_back.
  destruct (ensure_cap_step _ _ Hbn) as (_ & Hcap); [lia|].
  unfold capacity, size in *. by rewrite Hcap, Hlen.
Qed.

(** C5 (amended): on a well-formed buffer and for [n] below [INT_MAX],
    [reserve(n)] with [n >= capacity()] moves the sequence to a block of
    [n + 1] slots, which holds [n] elements; with [n < capacity()] it
    leaves the buffer as it is.  On an allocated buffer [n >= capacity()]
    says that [n] exceeds the usable capacity.  The block is the one
    [operator new] returns for [(n + 1) * sizeof(T)] bytes: when the heap
    serves that request the call returns with the buffer so moved, and
    when it refuses it the exception leaves the buffer as it was. *)
Theorem reserve_capacity b l (n : Z) :
  models b l → 0 ≤ n < INT_MAX →
  (capacity b ≤ n →
     models (reserve b n) l ∧ capacity (reserve b n) = n + 1 ∧
     usable_capacity (reserve b n) = n) ∧
  (n < capacity b → reserve b n = b) ∧
  (0 < capacity b → (capacity b ≤ n ↔ usable_capacity b < n)) ∧
  (∀ (sizeof_T : Z) (heap : Z → bool),
     0 < sizeof_T → (n + 1) * sizeof_T < 2 ^ 64 →
     (heap ((n + 1) * sizeof_T) = true →
      reserve_new sizeof_T heap None b n = Completed None (reserve b n) false) ∧
     (capacity b ≤ n → heap ((n + 1) * sizeof_T) = false →
      reserve_new sizeof_T heap None b n = Propagated None b None)).
Proof.
  intros Hb Hn. unfold reserve, capacity, usable_capacity.
  split; [|split; [|split]].
  - intros Hc.
    destruct (increase_cap_models b l n Hb) as (? & -> & ?); [lia..|].
    split; [done|]. split; lia.
  - apply increase_cap_noop.
  - lia.
  - intros sizeof_T heap Hs Hreq. unfold reserve_new.
    rewrite <- (alloc_request_small sizeof_T n) by (done || lia). split.
    + intros Hh. rewrite increase_cap_new_served by done.
      apply increase_cap_throwing_None.
    + intros Hc Hh. by apply increase_cap_new_refused.
Qed.


(** [pop_back], [pop_front] and [clear] leave [capacity()] as it is;
    [clear] on a well-formed buffer leaves no live element, size 0 and
    head 0 (it is a total function: nothing is thrown); and after a run
    of pushes and pops from the empty buffer in which no pop meets an
    empty buffer, [size()] is the number of pushes minus the number of
    pops. *)
Theorem pop_clear_size b l (ops : list (op T)) :
  models b l →
  pops_valid 0 ops = true → Z.of_nat (pushes ops) < 2 ^ 63 →
  (capacity (pop_back b) = capacity b ∧
   capacity (pop_front b) = capacity b ∧
   capacity (clear b) = capacity b) ∧
  (size (clear b) = 0 ∧ head (clear b) = 0 ∧
   (∀ j, load (arr (clear b)) j = None) ∧ models (clear b) []) ∧
  (pops ops ≤ pushes ops)%nat ∧
  size (run empty_buffer ops) = Z.of_nat (pushes ops) - Z.of_nat (pops ops).
Proof.
  intros Hb Hv Hk. split; [done|]. split.
  - destruct (clear_models b l Hb) as (Hc & Hnone). done.
  - pose proof (pops_valid_count ops 0 Hv) as Hle. split; [lia|].
    unfold size.
    rewrite <- (to_size_t_small (sz (run empty_buffer ops))).
    + rewrite sz_run. simpl. apply to_size_t_small. lia.
    + apply sz_run_range. simpl. lia.
Qed.

(** C10: the copy of a well-formed buffer has capacity [size + 1],
    whatever the capacity of the source; it holds the same sequence and
    owns storage, also when the source is empty. *)
Theorem copy_constructor_capacity (other_addr : N) (other : circular_buffer T) l :
  models other l →
  capacity (copy_constructor other_addr other) = size other + 1 ∧
  models (copy_constructor other_addr other) l ∧
  is_Some (arr (copy_constructor other_addr other)).
Proof.
  intros Ho. pose proof (models_bounds _ _ Ho) as Hbd.
  pose proof (models_length _ _ Ho) as Hlen.
  unfold copy_constructor, size, capacity, reserve.
  set (n := sz other) in *.
  destruct (increase_cap_models (@empty_buffer T) [] n models_empty_buffer)
    as (H0 & Hc0 & Hh0 & Hs0 & Ha0); [simpl; lia | rewrite INT_MAX_eq; lia |].
  pose proof
    (foldl_seqZ_ind
       (λ k (c : circular_buffer T),
          models c (take (Z.to_nat k) l) ∧ cap c = n + 1 ∧ head c = 0 ∧
          is_Some (arr c))
       (λ c i, match iter_deref other (Iter (Node other_addr i)) with
               | Some v => push_back c v
               | None => c
               end)
       (increase_cap empty_buffer n) 0 n) as HI.
  destruct HI as (Hm & Hc & _ & Ha).
  - lia.
  - done.
  - intros k c Hk (Hm & Hc & Hh & Ha). rewrite Z.add_0_l.
    unfold iter_deref. cbn [nd arr_index].
    rewrite (models_get_arr_pos other l) by (done || lia).
    destruct (models_allocated other l Ho) as (m & Ea & _); [lia|].
    rewrite Ea. cbn [load].
    rewrite (models_slot_in other l m) by
      (done || (apply Z.mod_pos_bound; lia)).
    rewrite inv_phys by lia.
    destruct (lookup_lt_is_Some_2 l (Z.to_nat k)) as [v Hv]; [lia|].
    rewrite Hv.
    pose proof (models_length _ _ Hm) as Hlc.
    rewrite length_take in Hlc.
    destruct (push_back_room c _ v Hm) as (Hm' & Hc'); [lia | by right |].
    replace (Z.to_nat (k + 1)) with (S (Z.to_nat k)) by lia.
    rewrite (take_S_r _ _ _ Hv).
    split; [done|]. split; [lia|]. split; [by rewrite head_push_back,
      ensure_cap_noop by lia|].
    unfold push_back. rewrite ensure_cap_noop by lia.
    destruct Ha as [a ->]. unfold empty. by destruct (sz c =? 0).
  - split; [lia|]. split; [|done].
    rewrite firstn_all2 in Hm by lia. done.
Qed.

End Interface.

(** ** Evaluations of the code at failing inputs *)
Section Evaluations.

(** C1: the front branch of [erase(first, last)] leaves the element of
    logical index 0 where it is, so that the pops remove it instead of
    the range.  On [10, 20, 30, 40] the call [erase(begin() + 1,
    begin() + 2)] yields [20, 30, 40], where [10, 30, 40] is due. *)
Theorem erase_range_front_branch_pops_first_element :
  let l := [10; 20; 30; 40] in
  let b := foldl push_back (@empty_buffer Z) l in
  models b l ∧
  (λ r, to_list (fst r)) <$> erase_range 4 7 b (iter_at 7 1) (iter_at 7 2)
  = Some [Some 20; Some 30; Some 40] ∧
  take 1 l ++ drop 2 l = [10; 30; 40].
Proof.
  split; [|by vm_compute].
  apply (foldl_push_back_models [10; 20; 30; 40]). by vm_compute.
Qed.

(** C4: [insert] into a buffer that was emptied by [pop_front] takes the
    back branch, and [push_back] constructs the element in slot 0 while
    the head is slot 1: the sequence read back is one uninitialised
    slot, not the inserted value. *)
Theorem insert_into_emptied_buffer_loses_value :
  let b := pop_front (push_back (@empty_buffer Z) 1) in
  models b [] ∧
  (λ r, to_list (fst r)) <$> insert 1 7 b (begin 7 b) 2 = Some [None] ∧
  list_ins [] 2 0 = [2].
Proof.
  split; [|by vm_compute].
  apply (pop_front_models _ 1 []).
  apply (foldl_push_back_models [1]). by vm_compute.
Qed.

(** C6: after [push_back(1); pop_front(); push_back(2)] the reference
    queue shows 2 at its front and back, the buffer reads an
    uninitialised slot. *)
Theorem fifo_trace_diverges :
  let ops := [PushBack 1; PopFront; PushBack 2] in
  trace (@empty_buffer Z) ops
  = [(Some 1, Some 1, 1); (None, None, 0); (None, None, 1)] ∧
  deque_trace [] ops
  = [(Some 1, Some 1, 1); (None, None, 0); (Some 2, Some 2, 1)].
Proof. by vm_compute. Qed.

(** C7: [push_back] does not preserve the invariant: the buffer emptied
    by [pop_front] satisfies it, and after [push_back] the live slot is
    slot 0 while the run of one element starts at the head, slot 1. *)
Theorem push_back_on_emptied_buffer_breaks_invariant :
  let b := pop_front (push_back (@empty_buffer Z) 1) in
  invariant b ∧ head b = 1 ∧ ¬ invariant (push_back b 2).
Proof.
  assert (models (pop_front (push_back (@empty_buffer Z) 1)) []) as Hb.
  { apply (pop_front_models _ 1 []).
    apply (foldl_push_back_models [1]). by vm_compute. }
  split; [by apply (models_invariant _ [])|]. split; [done|].
  apply push_back_breaks_invariant; [done | by vm_compute | by vm_compute].
Qed.

(** C9: [clear] does not destroy every live element of every buffer.
    After [push_back(1); pop_front(); push_back(2)] the element is in
    slot 0 and the head is slot 1; the loop of [clear] visits the one
    logical index 0, that is slot 1, which holds no object, and the
    element of slot 0 is still alive when [clear] has set the size and
    the head to 0. *)
Theorem clear_keeps_misplaced_element :
  invariant (pop_front (push_back (@empty_buffer Z) 1)) ∧
  (size misplaced_buffer = 1 ∧ head misplaced_buffer = 1 ∧
   load (arr misplaced_buffer) 0 = Some 2) ∧
  (get_arr_pos misplaced_buffer 0 = 1 ∧ load (arr misplaced_buffer) 1 = None) ∧
  size (clear misplaced_buffer) = 0 ∧ head (clear misplaced_buffer) = 0 ∧
  load (arr (clear misplaced_buffer)) 0 = Some 2.
Proof.
  split; [|by vm_compute].
  apply (models_invariant _ []). apply (pop_front_models _ 1 []).
  apply (foldl_push_back_models [1]). by vm_compute.
Qed.

(** C2: three calls in which a copy throws and the strong guarantee
    fails.  [push_back] on the never-allocated buffer, second copy
    throwing: the exception leaves a buffer of capacity 3.  [reserve(5)]
    on a one-element buffer, first copy throwing: the new block is not
    released.  [reserve(5)] on a wrapped buffer, second copy throwing:
    the exception is swallowed and the buffer is left with size 2 and one
    live element. *)
Theorem throwing_copy_breaks_strong_guarantee :
  (push_back_throwing (Some 1%nat) (@empty_buffer Z) 7
   = Propagated None (Buffer 0 0 3 (Some ∅)) None ∧
   ¬ strong_guarantee (Some 1%nat) (@empty_buffer Z)
       (push_back_throwing (Some 1%nat) (@empty_buffer Z) 7)) ∧
  (reserve_throwing (Some 0%nat) (push_back (@empty_buffer Z) 7) 5
   = Propagated None (push_back (@empty_buffer Z) 7) (Some fresh_block) ∧
   ¬ strong_guarantee (Some 0%nat) (push_back (@empty_buffer Z) 7)
       (reserve_throwing (Some 0%nat) (push_back (@empty_buffer Z) 7) 5)) ∧
  (to_list wrapped_buffer = [Some 3; Some 4] ∧
   reserve_throwing (Some 1%nat) wrapped_buffer 5
   = Completed None (Buffer 0 2 6 (Some {[0 := 3]})) false ∧
   ¬ strong_guarantee (Some 1%nat) wrapped_buffer
       (reserve_throwing (Some 1%nat) wrapped_buffer 5)).
Proof.
  split; [|split].
  - split; [by vm_compute|]. intros (_ & Hc & _). by vm_compute in Hc.
  - split; [by vm_compute|]. intros (_ & _ & _ & _ & Hr).
    by vm_compute in Hr.
  - split; [by vm_compute|]. split; [by vm_compute|].
    intros (Hs & _). destruct Hs as [? Hs]; [by eexists|].
    by vm_compute in Hs.
Qed.

End Evaluations.

(** ** The theorems at concrete buffers *)
Section Instances.

Lemma models_push_back_2 : models (push_back_n 2) [0; 0].
Proof. apply (push_back_n_models 2). by vm_compute. Qed.

(** C3 as the specification states it fails on the never-allocated
    buffer, whose capacity becomes 3 and not 2, on a full buffer of
    capacity 3, whose capacity becomes 6 and not 5, and in the
    progression, which is 0, 3, 6, 12, 24 and not 0, 2, 3, 5, 9. *)
Lemma ensure_cap_capacity_counterexample :
  capacity (ensure_cap (@empty_buffer Z))
  ≠ spec_grown_capacity (capacity (@empty_buffer Z)) ∧
  (size (push_back_n 2) + 1 = capacity (push_back_n 2) ∧
   capacity (ensure_cap (push_back_n 2))
   ≠ spec_grown_capacity (capacity (push_back_n 2))) ∧
  take 5 (remove_dups (capacity_progression 25)) ≠ [0; 2; 3; 5; 9].
Proof. by vm_compute. Qed.

(** The growth rule on the full buffer of two elements and capacity 3. *)
Lemma ensure_cap_capacity_instance :
  (models (push_back_n 2) [0; 0] ∧ 2 * cap (push_back_n 2) ≤ INT_MAX) ∧
  capacity (ensure_cap (push_back_n 2)) = 6 ∧
  capacity (push_back_n 3) = 6 ∧
  take 5 (remove_dups (capacity_progression 14)) = [0; 3; 6; 12; 24].
Proof.
  assert (2 * cap (push_back_n 2) ≤ INT_MAX) as Hmax by (by vm_compute).
  destruct (ensure_cap_capacity (push_back_n 2) [0; 0] models_push_back_2 Hmax)
    as ((_ & Hc) & Hn & Hp).
  destruct (Hn 2%nat) as (_ & Hc3); [by vm_compute|].
  split; [split; [exact models_push_back_2 | exact Hmax]|].
  split; [exact Hc|]. split; [exact Hc3|].
  rewrite Hp. reflexivity.
Defined.

(** C5 as the specification states it fails for [reserve(0)] on the
    never-allocated buffer: 0 does not exceed the usable capacity 0, and
    the capacity changes from 0 to 1. *)
Lemma reserve_capacity_counterexample :
  0 ≤ usable_capacity (@empty_buffer Z) ∧
  capacity (reserve (@empty_buffer Z) 0) ≠ capacity (@empty_buffer Z).
Proof. by vm_compute. Qed.

(** [reserve(7)] and [reserve(2)] on a buffer of capacity 3. *)
Lemma reserve_capacity_instance :
  (models (push_back_n 2) [0; 0] ∧ 0 ≤ 7 < INT_MAX ∧ 0 ≤ 2 < INT_MAX) ∧
  models (reserve (push_back_n 2) 7) [0; 0] ∧
  capacity (reserve (push_back_n 2) 7) = 8 ∧
  reserve (push_back_n 2) 2 = push_back_n 2.
Proof.
  assert (0 ≤ 7 < INT_MAX) as H7 by (by vm_compute).
  assert (0 ≤ 2 < INT_MAX) as H2 by (by vm_compute).
  destruct (reserve_capacity (push_back_n 2) [0; 0] 7 models_push_back_2 H7)
    as (Hgrow & _ & _).
  destruct (reserve_capacity (push_back_n 2) [0; 0] 2 models_push_back_2 H2)
    as (_ & Hnoop & _).
  destruct Hgrow as (Hm & Hc & _); [by vm_compute|].
  split; [split; [exact models_push_back_2 | split; [exact H7 | exact H2]]|].
  split; [exact Hm|]. split; [exact Hc|]. apply Hnoop. by vm_compute.
Defined.



(** [clear] on a buffer of two elements, and the size after three pushes
    and one pop. *)
Lemma pop_clear_size_instance :
  (models (push_back_n 2) [0; 0] ∧
   pops_valid 0 [PushBack 1; PushFront 2; PopBack; PushBack 3] = true ∧
   Z.of_nat (pushes [PushBack 1; PushFront 2; PopBack; PushBack 3]) < 2 ^ 63) ∧
  capacity (clear (push_back_n 2)) = capacity (push_back_n 2) ∧
  models (clear (push_back_n 2)) [] ∧
  size (run (@empty_buffer Z) [PushBack 1; PushFront 2; PopBack; PushBack 3])
  = 2.
Proof.
  assert (pops_valid 0 [PushBack 1; PushFront 2; PopBack; PushBack 3] = true)
    as Hv by reflexivity.
  assert (Z.of_nat (pushes [PushBack 1; PushFront 2; PopBack; PushBack 3])
          < 2 ^ 63) as Hk by (by vm_compute).
  destruct (pop_clear_size (push_back_n 2) [0; 0]
              [PushBack 1; PushFront 2; PopBack; PushBack 3]
              models_push_back_2 Hv Hk)
    as ((_ & _ & Hc) & (_ & _ & _ & Hm) & _ & Hs).
  split; [split; [exact models_push_back_2 | split; [exact Hv | exact Hk]]|].
  split; [exact Hc|]. split; [exact Hm | exact Hs].
Defined.

(** The copy of a buffer of 12 elements and capacity 24, and the copy of
    the never-allocated buffer. *)
Lemma copy_constructor_capacity_instance :
  (models (push_back_n 12) (replicate 12 0) ∧ models (@empty_buffer Z) []) ∧
  capacity (push_back_n 12) = 24 ∧
  capacity (copy_constructor 9 (push_back_n 12)) = 13 ∧
  capacity (copy_constructor 9 (@empty_buffer Z)) = 1 ∧
  is_Some (arr (copy_constructor 9 (@empty_buffer Z))).
Proof.
  assert (models (push_back_n 12) (replicate 12 0)) as H12.
  { apply (push_back_n_models 12). by vm_compute. }
  destruct (copy_constructor_capacity 9 (push_back_n 12) (replicate 12 0) H12)
    as (Hc & _ & _).
  destruct (copy_constructor_capacity 9 (@empty_buffer Z) [] models_empty_buffer)
    as (Hc0 & _ & Ha0).
  split; [split; [exact H12 | exact models_empty_buffer]|].
  split; [reflexivity|].
  split; [exact Hc|]. split; [exact Hc0 | exact Ha0].
Defined.

End Instances.

(** * Further properties of the operations *)

(** ** Pushes and pops at the two ends *)
Section Ends.
Context {T : Type}.
Implicit Types (b : circular_buffer T) (l : list T) (v x : T).

Lemma cap_ensure_cap_ge b l :
  models b l → 2 * cap b ≤ INT_MAX → cap b ≤ cap (ensure_cap b).
Proof.
  intros Hb Hmax. pose proof (models_bounds _ _ Hb) as Hbd.
  destruct (decide (sz b + 1 < cap b)).
  - rewrite ensure_cap_noop by lia. lia.
  - destruct (ensure_cap_grows b l Hb) as (_ & _ & ->); [lia | done |].
    destruct (Z.eqb_spec (cap b) 0); lia.
Qed.

(** X1: [push_front] on any well-formed buffer, also one that was emptied and
    whose head is not slot 0: the value becomes the first element, the
    rest keeps its order, and the capacity does not shrink. *)
Theorem push_front_puts_front b l v :
  models b l → 2 * cap b ≤ INT_MAX →
  to_list (push_front b v) = Some <$> (v :: l) ∧
  front (push_front b v) = Some v ∧
  size (push_front b v) = size b + 1 ∧
  capacity b ≤ capacity (push_front b v) ∧
  invariant (push_front b v).
Proof.
  intros Hb Hmax. pose proof (push_front_models b l v Hb Hmax) as Hb'.
  split; [by apply models_to_list|].
  split; [by destruct (pop_front_models _ v l Hb')|].
  split.
  { unfold size. rewrite (models_length _ _ Hb'), (models_length _ _ Hb).
    simpl. lia. }
  split; [|by apply (models_invariant _ (v :: l))].
  unfold capacity. change (cap (push_front b v)) with (cap (ensure_cap b)).
  by apply (cap_ensure_cap_ge b l).
Qed.

(** X2: [push_back] on a well-formed buffer that is not empty, or whose head
    is slot 0: the value becomes the last element and [back()] shows it. *)
Theorem push_back_appends b l v :
  models b l → 2 * cap b ≤ INT_MAX → l ≠ [] ∨ head b = 0 →
  to_list (push_back b v) = Some <$> (l ++ [v]) ∧
  back (push_back b v) = Some v ∧
  size (push_back b v) = size b + 1 ∧
  capacity b ≤ capacity (push_back b v) ∧
  invariant (push_back b v).
Proof.
  intros Hb Hmax Hguard.
  assert (models (push_back b v) (l ++ [v])) as Hb'.
  { apply push_back_models; [done..|].
    destruct Hguard as [?|Hh]; [by left|right].
    by apply (ensure_cap_head_0 b l). }
  split; [by apply models_to_list|].
  split; [by destruct (pop_back_models _ l v Hb')|].
  split.
  { unfold size. rewrite (models_length _ _ Hb'), (models_length _ _ Hb).
    rewrite length_app. simpl. lia. }
  split; [|by apply (models_invariant _ (l ++ [v]))].
  unfold capacity. rewrite cap_push_back. by apply (cap_ensure_cap_ge b l).
Qed.

(** X3: [pop_front] on a non-empty well-formed buffer removes the element that
    [front()] shows and keeps the rest in order. *)
Theorem pop_front_removes_front b x l :
  models b (x :: l) →
  front b = Some x ∧
  to_list (pop_front b) = Some <$> l ∧
  size (pop_front b) = size b - 1 ∧
  invariant (pop_front b).
Proof.
  intros Hb. destruct (pop_front_models b x l Hb) as (Hb' & Hf).
  split; [done|]. split; [by apply models_to_list|].
  split; [|by apply (models_invariant _ l)].
  unfold size. rewrite (models_length _ _ Hb'), (models_length _ _ Hb).
  simpl. lia.
Qed.

(** X4: [pop_back] on a non-empty well-formed buffer removes the element that
    [back()] shows and keeps the rest in order. *)
Theorem pop_back_removes_back b l x :
  models b (l ++ [x]) →
  back b = Some x ∧
  to_list (pop_back b) = Some <$> l ∧
  size (pop_back b) = size b - 1 ∧
  invariant (pop_back b).
Proof.
  intros Hb. destruct (pop_back_models b l x Hb) as (Hb' & Hf).
  split; [done|]. split; [by apply models_to_list|].
  split; [|by apply (models_invariant _ l)].
  unfold size. rewrite (models_length _ _ Hb'), (models_length _ _ Hb).
  rewrite length_app. simpl. lia.
Qed.

(** X5: A push followed by the pop at the same end gives the sequence back
    (the storage may have grown). *)
Theorem push_pop_round_trip b l v :
  models b l → 2 * cap b ≤ INT_MAX →
  to_list (pop_front (push_front b v)) = to_list b ∧
  (l ≠ [] ∨ head b = 0 → to_list (pop_back (push_back b v)) = to_list b).
Proof.
  intros Hb Hmax. rewrite (models_to_list b l Hb). split.
  - apply models_to_list. apply (pop_front_models _ v).
    by apply push_front_models.
  - intros Hguard. apply models_to_list. apply (pop_back_models _ _ v).
    apply push_back_models; [done..|].
    destruct Hguard as [?|Hh]; [by left|right].
    by apply (ensure_cap_head_0 b l).
Qed.
End Ends.

(** ** Indexed access *)
Section Indexing.
Context {T : Type}.
Implicit Types (b : circular_buffer T) (l : list T) (v x : T).

Lemma iter_deref_at_index b l this (i : Z) :
  models b l → 0 ≤ i < sz b →
  iter_deref b (Iter (Node this i)) = at_index b i.
Proof.
  intros Hb Hi. pose proof (models_bounds _ _ Hb) as Hbd.
  unfold iter_deref, at_index. cbn [nd arr_index].
  rewrite (models_get_arr_pos b l) by (done || lia).
  by int_simpl.
Qed.

Lemma models_iter_deref b l this (i : nat) :
  models b l → (i < length l)%nat → iter_deref b (iter_at this i) = l !! i.
Proof.
  intros Hb Hi. pose proof (models_length _ _ Hb) as Hlen.
  unfold iter_at. rewrite (iter_deref_at_index b l) by (done || lia).
  rewrite (models_at_index b l) by (done || lia). by rewrite Nat2Z.id.
Qed.

(** X6: On a well-formed buffer [b[i]] is the element of logical index [i]
    for every [i] below the size, it is what [*(begin() + i)] yields,
    [front()] is [b[0]] and [back()] is [b[size() - 1]]. *)
Theorem index_front_back b l this :
  models b l →
  (∀ i, 0 ≤ i < size b →
     at_index b i = l !! Z.to_nat i ∧ is_Some (at_index b i) ∧
     iter_deref b (iter_plus (begin this b) i) = at_index b i) ∧
  (0 < size b → front b = at_index b 0 ∧ back b = at_index b (size b - 1)).
Proof.
  intros Hb. unfold size.
  pose proof (models_bounds _ _ Hb) as Hbd.
  pose proof (models_length _ _ Hb) as Hlen. split.
  - intros i Hi. rewrite (models_at_index b l) by done.
    split; [done|]. split; [apply lookup_lt_is_Some; lia|].
    unfold iter_plus, iter_add_assign, begin. cbn [nd arr_index buf].
    int_simpl. rewrite Z.add_0_l.
    rewrite (iter_deref_at_index b l) by done.
    by apply models_at_index.
  - intros Hpos. rewrite !(models_at_index b l) by (done || lia).
    destruct l as [|x l]; [simpl in Hlen; lia|]. split.
    + by destruct (pop_front_models b x l Hb) as (_ & ->).
    + destruct (exists_last (l := x :: l)) as (l' & y & E); [done|].
      rewrite E in Hb, Hlen |- *.
      destruct (pop_back_models b l' y Hb) as (_ & ->).
      rewrite length_app in Hlen. simpl in Hlen.
      rewrite lookup_app_r by lia.
      by replace (Z.to_nat (sz b - 1) - length l')%nat with 0%nat by lia.
Qed.
End Indexing.

(** ** Insertion and erasure, as a caller sees them *)
Section InsertErase.
Context {T : Type}.
Implicit Types (b : circular_buffer T) (l : list T) (v x : T).

Lemma list_del_ins l v (p : nat) :
  (p ≤ length l)%nat → list_del (list_ins l v p) p = l.
Proof.
  intros Hp. apply list_eq. intros k. unfold list_del.
  destruct (decide (k < p)%nat).
  - rewrite lookup_app_l by (rewrite length_take, length_list_ins; lia).
    rewrite lookup_take_lt by lia. rewrite lookup_list_ins by lia.
    by rewrite decide_True by lia.
  - rewrite lookup_app_r by (rewrite length_take, length_list_ins; lia).
    rewrite length_take, length_list_ins, lookup_drop.
    rewrite lookup_list_ins by lia.
    rewrite !decide_False by lia. f_equal. lia.
Qed.

(** X7: [insert] at a valid position of a well-formed buffer that is not
    empty, or whose head is slot 0: the value stands at that logical
    index, the other elements keep their order, and the returned iterator
    designates the value. *)
Theorem insert_at_position fuel this b l (p : nat) v :
  models b l → 2 * cap b ≤ INT_MAX → (p ≤ length l)%nat →
  (length l ≤ fuel)%nat → l ≠ [] ∨ head b = 0 →
  ∃ b' it,
    insert fuel this b (iter_at this p) v = Some (b', it) ∧
    to_list b' = Some <$> (take p l ++ v :: drop p l) ∧
    size b' = size b + 1 ∧
    it = iter_at this p ∧ iter_deref b' it = Some v ∧
    invariant b'.
Proof.
  intros Hb Hmax Hp Hfuel Hguard.
  destruct (insert_models fuel this b l p v Hb Hmax Hp Hfuel)
    as (b' & Hins & Hb').
  { destruct Hguard as [?|Hh]; [by left|right].
    by apply (ensure_cap_head_0 b l). }
  exists b', (iter_at this p). split; [done|].
  split; [by apply models_to_list|]. split.
  { unfold size. rewrite (models_length _ _ Hb'), (models_length _ _ Hb).
    rewrite length_list_ins. lia. }
  split; [done|]. split; [|by apply (models_invariant _ (list_ins l v p))].
  rewrite (models_iter_deref b' _ this p Hb')
    by (rewrite length_list_ins; lia).
  rewrite lookup_list_ins by done.
  by rewrite decide_False, decide_True by lia.
Qed.

(** X8: [erase] at a valid position of a well-formed buffer removes that
    element and keeps the order of the others; the returned iterator
    designates the element that followed it, or is [end()]. *)
Theorem erase_at_position fuel this b l (p : nat) :
  models b l → (p < length l)%nat → (length l ≤ fuel)%nat →
  ∃ b' it,
    erase fuel this b (iter_at this p) = Some (b', it) ∧
    to_list b' = Some <$> (take p l ++ drop (S p) l) ∧
    size b' = size b - 1 ∧
    it = iter_at this p ∧
    (if decide (S p < length l)%nat then iter_deref b' it = l !! S p
     else it = end_ this b') ∧
    invariant b'.
Proof.
  intros Hb Hp Hfuel.
  destruct (erase_models fuel this b l p Hb Hp Hfuel) as (b' & Hers & Hb').
  pose proof (models_length _ _ Hb') as Hlen'.
  rewrite length_list_del in Hlen' by done.
  exists b', (iter_at this p). split; [done|].
  split; [by apply models_to_list|]. split.
  { unfold size. rewrite Hlen', (models_length _ _ Hb). lia. }
  split; [done|]. split; [|by apply (models_invariant _ (list_del l p))].
  case_decide.
  - rewrite (models_iter_deref b' _ this p Hb')
      by (rewrite length_list_del; lia).
    unfold list_del.
    rewrite lookup_app_r by (rewrite length_take; lia).
    rewrite length_take, lookup_drop. f_equal. lia.
  - unfold end_, iter_at. rewrite Hlen'. do 3 f_equal. lia.
Qed.

(** X9: [erase(first, last)] on a well-formed buffer removes the range
    whenever [first] is [begin()], the range is empty, or at most as many
    elements follow the range as precede it. *)
Theorem erase_range_removes_range fuel this b l (f la : nat) :
  models b l → (f ≤ la)%nat → (la ≤ length l)%nat → (length l ≤ fuel)%nat →
  f = 0%nat ∨ f = la ∨ (length l - la ≤ f)%nat →
  ∃ b' it,
    erase_range fuel this b (iter_at this f) (iter_at this la) = Some (b', it) ∧
    to_list b' = Some <$> (take f l ++ drop la l) ∧
    size b' = size b - (Z.of_nat la - Z.of_nat f) ∧
    it = iter_at this f ∧
    invariant b'.
Proof.
  intros Hb Hf Hla Hfuel Hcase.
  destruct (erase_range_models fuel this b l f la Hb Hf Hla Hfuel Hcase)
    as (b' & Hers & Hb').
  exists b', (iter_at this f). split; [done|].
  split; [by apply models_to_list|]. split.
  { unfold size. rewrite (models_length _ _ Hb'), (models_length _ _ Hb).
    rewrite length_app, length_take, length_drop. lia. }
  split; [done|]. by apply (models_invariant _ (take f l ++ drop la l)).
Qed.

(** X10: [erase] applied to the iterator that [insert] returns gives the
    sequence back. *)
Theorem insert_erase_round_trip fuel this b l (p : nat) v :
  models b l → 2 * cap b ≤ INT_MAX → (p ≤ length l)%nat →
  (length l < fuel)%nat → l ≠ [] ∨ head b = 0 →
  ∃ b1 it b2 it',
    insert fuel this b (iter_at this p) v = Some (b1, it) ∧
    erase fuel this b1 it = Some (b2, it') ∧
    to_list b2 = to_list b ∧ it' = it.
Proof.
  intros Hb Hmax Hp Hfuel Hguard.
  destruct (insert_models fuel this b l p v Hb Hmax Hp) as (b1 & Hins & Hb1);
    [lia | |].
  { destruct Hguard as [?|Hh]; [by left|right].
    by apply (ensure_cap_head_0 b l). }
  destruct (erase_models fuel this b1 _ p Hb1) as (b2 & Hers & Hb2);
    [rewrite length_list_ins; lia..|].
  rewrite list_del_ins in Hb2 by done.
  exists b1, (iter_at this p), b2, (iter_at this p).
  split; [done|]. split; [done|]. split; [|done].
  by rewrite (models_to_list b2 l), (models_to_list b l).
Qed.
End InsertErase.

(** ** Pushes after [clear] and after [reserve] *)
Section Refill.
Context {T : Type}.
Implicit Types (b : circular_buffer T) (l vs : list T) (v x : T).

(** Pushes that fit the capacity keep the block. *)
Lemma foldl_push_back_room vs : ∀ b l,
  models b l → l ≠ [] ∨ head b = 0 →
  Z.of_nat (length l + length vs) < cap b →
  models (foldl push_back b vs) (l ++ vs) ∧
  cap (foldl push_back b vs) = cap b.
Proof.
  induction vs as [|v vs IH]; intros b l Hb Hguard Hroom.
  - by rewrite app_nil_r.
  - cbn [foldl length] in *. pose proof (models_length _ _ Hb) as Hlen.
    destruct (push_back_room b l v Hb) as (Hb' & Hc); [lia | done |].
    destruct (IH (push_back b v) (l ++ [v]) Hb') as (Hm & Hc').
    + left. by destruct l.
    + rewrite length_app. cbn [length]. lia.
    + rewrite <- app_assoc in Hm. split; [done | lia].
Qed.

(** Pushes onto a buffer whose head is slot 0, or which is not empty,
    with growth: the capacity stays below [c0 + 2 size + 3]. *)
Lemma foldl_push_back_from vs : ∀ b l (c0 : Z),
  models b l → l ≠ [] ∨ head b = 0 → 0 ≤ c0 →
  cap b ≤ c0 + 2 * Z.of_nat (length l) + 3 →
  2 * c0 + 4 * Z.of_nat (length l + length vs) + 6 ≤ INT_MAX →
  models (foldl push_back b vs) (l ++ vs) ∧
  cap b ≤ cap (foldl push_back b vs).
Proof.
  induction vs as [|v vs IH]; intros b l c0 Hb Hguard Hc0 Hc Hmax.
  - rewrite app_nil_r. split; [done | cbn [foldl]; lia].
  - cbn [foldl length] in *. pose proof (models_length _ _ Hb) as Hlen.
    pose proof (models_bounds _ _ Hb) as Hbd.
    assert (2 * cap b ≤ INT_MAX) as Hmax' by lia.
    assert (models (push_back b v) (l ++ [v])) as Hb'.
    { apply push_back_models; [done..|].
      destruct Hguard as [?|Hh]; [by left|right].
      by apply (ensure_cap_head_0 b l). }
    pose proof (cap_ensure_cap_ge b l Hb Hmax') as Hge.
    destruct (IH (push_back b v) (l ++ [v]) c0 Hb') as (Hm & Hc').
    + left. by destruct l.
    + done.
    + rewrite cap_push_back, length_app. cbn [length].
      destruct (decide (sz b + 1 < cap b)).
      * rewrite ensure_cap_noop by lia. lia.
      * destruct (ensure_cap_grows _ _ Hb) as (_ & _ & ->); [lia | done |].
        destruct (Z.eqb_spec (cap b) 0); lia.
    + rewrite length_app. cbn [length]. lia.
    + rewrite <- app_assoc in Hm. split; [done|].
      rewrite cap_push_back in Hc'. lia.
Qed.

(** X11: After [clear] a well-formed buffer is refilled by [push_back] in
    order, whatever its head was: [clear] puts the head back to slot 0.
    The capacity is not given up. *)
Theorem clear_then_push_back b l vs :
  models b l →
  2 * cap b + 4 * Z.of_nat (length vs) + 6 ≤ INT_MAX →
  to_list (foldl push_back (clear b) vs) = Some <$> vs ∧
  capacity b ≤ capacity (foldl push_back (clear b) vs) ∧
  invariant (foldl push_back (clear b) vs).
Proof.
  intros Hb Hmax. destruct (clear_models b l Hb) as (Hc & _).
  pose proof (models_bounds _ _ Hb) as Hbd.
  destruct (foldl_push_back_from vs (clear b) [] (cap b) Hc) as (Hm & Hge).
  - by right.
  - lia.
  - simpl. lia.
  - simpl. lia.
  - simpl in Hm. split; [by apply models_to_list|].
    split; [done|]. by apply (models_invariant _ vs).
Qed.

(** X12: After [reserve(n)] with [n >= capacity()] the buffer takes elements up
    to size [n] without another reallocation: the capacity stays
    [n + 1]. *)
Theorem reserve_then_push_back b l vs (n : Z) :
  models b l → capacity b ≤ n < INT_MAX →
  Z.of_nat (length l + length vs) ≤ n →
  to_list (foldl push_back (reserve b n) vs) = Some <$> (l ++ vs) ∧
  capacity (foldl push_back (reserve b n) vs) = n + 1 ∧
  invariant (foldl push_back (reserve b n) vs).
Proof.
  intros Hb Hn Hfit. unfold reserve, capacity in *.
  destruct (increase_cap_models b l n Hb) as (Hm & Hc & Hh & _); [lia..|].
  destruct (foldl_push_back_room vs (increase_cap b n) l Hm) as (Hm' & Hc').
  - by right.
  - lia.
  - split; [by apply models_to_list|]. split; [lia|].
    by apply (models_invariant _ (l ++ vs)).
Qed.
End Refill.

(** ** Copy and assignment *)
Section CopyAssign.
Context {T : Type}.
Implicit Types (b : circular_buffer T) (l r : list T).

(** The copy of a well-formed buffer holds its sequence in a block of
    [size + 1] slots. *)
Lemma copy_constructor_models (other_addr : N) (other : circular_buffer T) l :
  models other l →
  models (copy_constructor other_addr other) l ∧
  cap (copy_constructor other_addr other) = sz other + 1.
Proof.
  intros Ho. pose proof (models_bounds _ _ Ho) as Hbd.
  pose proof (models_length _ _ Ho) as Hlen.
  unfold copy_constructor, size, reserve.
  set (n := sz other) in *.
  destruct (increase_cap_models (@empty_buffer T) [] n models_empty_buffer)
    as (H0 & Hc0 & Hh0 & Hs0 & Ha0); [simpl; lia | rewrite INT_MAX_eq; lia |].
  pose proof
    (foldl_seqZ_ind
       (λ k (c : circular_buffer T),
          models c (take (Z.to_nat k) l) ∧ cap c = n + 1 ∧ head c = 0)
       (λ c i, match iter_deref other (Iter (Node other_addr i)) with
               | Some v => push_back c v
               | None => c
               end)
       (increase_cap empty_buffer n) 0 n) as HI.
  destruct HI as (Hm & Hc & _).
  - lia.
  - done.
  - intros k c Hk (Hm & Hc & Hh). rewrite Z.add_0_l.
    rewrite (iter_deref_at_index other l) by (done || (subst n; lia)).
    rewrite (models_at_index other l) by (done || (subst n; lia)).
    destruct (lookup_lt_is_Some_2 l (Z.to_nat k)) as [v Hv]; [lia|].
    rewrite Hv.
    pose proof (models_length _ _ Hm) as Hlc.
    rewrite length_take in Hlc.
    destruct (push_back_room c _ v Hm) as (Hm' & Hc'); [lia | by right |].
    replace (Z.to_nat (k + 1)) with (S (Z.to_nat k)) by lia.
    rewrite (take_S_r _ _ _ Hv).
    split; [done|]. split; [lia|].
    by rewrite head_push_back, ensure_cap_noop by lia.
  - rewrite firstn_all2 in Hm by lia. done.
Qed.

(** X13: [operator=] on a well-formed [*this] whose parameter is
    well-formed: [*this] takes over the parameter's block, and with it
    its sequence, size and capacity; the elements [*this] held are all
    destroyed in the parameter, which keeps the old block.  For an lvalue
    right-hand side the parameter is its copy, so that [*this] shows the
    sequence of the right-hand side in a block of [size + 1] slots. *)
Theorem assign_swaps_with_parameter b l (other : circular_buffer T) r
    (rhs_addr : N) (rhs : circular_buffer T) q :
  models b l → models other r → models rhs q →
  (to_list (fst (operator_assign b other)) = to_list other ∧
   size (fst (operator_assign b other)) = size other ∧
   capacity (fst (operator_assign b other)) = capacity other ∧
   invariant (fst (operator_assign b other))) ∧
  ((∀ j, load (arr (snd (operator_assign b other))) j = None) ∧
   size (snd (operator_assign b other)) = 0 ∧
   capacity (snd (operator_assign b other)) = capacity b) ∧
  (to_list (fst (assign_from_lvalue b rhs_addr rhs)) = to_list rhs ∧
   capacity (fst (assign_from_lvalue b rhs_addr rhs)) = size rhs + 1 ∧
   invariant (fst (assign_from_lvalue b rhs_addr rhs))).
Proof.
  intros Hb Ho Hr.
  assert (∀ o : circular_buffer T,
            operator_assign b o = (o, clear b)) as Hop.
  { intros o. unfold operator_assign, swap. by destruct o, b. }
  unfold assign_from_lvalue. rewrite !Hop. cbn [fst snd].
  destruct (copy_constructor_models rhs_addr rhs q Hr) as (Hm & Hc).
  destruct (clear_models b l Hb) as (Hcl & Hdead).
  split; [|split].
  - split; [done|]. split; [done|]. split; [done|].
    by apply (models_invariant _ r).
  - split; [done|]. split; [|done].
    unfold size. by rewrite (models_length _ _ Hcl).
  - split; [by rewrite (models_to_list _ q Hm), (models_to_list rhs q)|].
    split; [done|]. by apply (models_invariant _ q).
Qed.
End CopyAssign.

(** ** Iterator arithmetic and comparisons *)
Section Iterators.
Context {T : Type}.
Implicit Types (b : circular_buffer T) (l : list T) (a it : basic_iterator).

Lemma to_size_t_sub_l x c : to_size_t (to_size_t x - c) = to_size_t (x - c).
Proof. unfold to_size_t. apply Zminus_mod_idemp_l. Qed.

Lemma iter_eta it : Iter (Node (buf (nd it)) (arr_index (nd it))) = it.
Proof. by destruct it as [[? ?]]. Qed.

(** X14: The index of an iterator is a [size_t], so moving it wraps around; the
    moves still undo each other and add up, for every offset, and the
    difference gives back the offset of a move. *)
Theorem iterator_arithmetic it (j k : Z) :
  0 ≤ arr_index (nd it) < 2 ^ 64 →
  iter_minus (iter_plus it k) k = it ∧
  iter_plus (iter_minus it k) k = it ∧
  iter_decr (iter_incr it) = it ∧
  iter_incr (iter_decr it) = it ∧
  iter_plus (iter_plus it j) k = iter_plus it (j + k) ∧
  (- 2 ^ 63 ≤ k < 2 ^ 63 → iter_diff (iter_plus it k) it = k).
Proof.
  intros Hi.
  unfold iter_decr, iter_incr, iter_minus, iter_plus, iter_sub_assign,
    iter_add_assign, iter_diff.
  cbn [nd buf arr_index].
  rewrite !to_size_t_sub_l, !to_size_t_add_l.
  replace (arr_index (nd it) + k - k) with (arr_index (nd it)) by lia.
  replace (arr_index (nd it) - k + k) with (arr_index (nd it)) by lia.
  replace (arr_index (nd it) + 1 - 1) with (arr_index (nd it)) by lia.
  replace (arr_index (nd it) - 1 + 1) with (arr_index (nd it)) by lia.
  rewrite (to_size_t_small (arr_index (nd it))) by done.
  rewrite iter_eta.
  repeat split; try done.
  - do 3 f_equal. lia.
  - intros Hk. rewrite to_ptrdiff_t_size_t.
    replace (arr_index (nd it) + k - arr_index (nd it)) with k by lia.
    by apply to_ptrdiff_t_small.
Qed.

(** X15: The six comparisons order the iterators of one buffer by their index
    and relate no two iterators of different buffers: of [<], [==], [>]
    exactly one holds for the same buffer and none otherwise. *)
Theorem iterator_trichotomy a it :
  (buf (nd a) = buf (nd it)
   ↔ iter_lt a it || iter_eq a it || iter_gt a it = true) ∧
  iter_lt a it && iter_eq a it = false ∧
  iter_lt a it && iter_gt a it = false ∧
  iter_eq a it && iter_gt a it = false ∧
  iter_le a it = iter_lt a it || iter_eq a it ∧
  iter_ge a it = iter_gt a it || iter_eq a it ∧
  iter_ne a it = negb (iter_le a it && iter_ge a it) ∧
  iter_gt a it = iter_lt it a.
Proof.
  unfold iter_ne, iter_lt, iter_eq, iter_gt, iter_le, iter_ge.
  rewrite Z.gtb_ltb, Z.geb_leb, (N.eqb_sym (buf (nd it))).
  destruct (N.eqb_spec (buf (nd a)) (buf (nd it))) as [E|E];
    destruct (Z.ltb_spec (arr_index (nd a)) (arr_index (nd it)));
    destruct (Z.ltb_spec (arr_index (nd it)) (arr_index (nd a)));
    destruct (Z.eqb_spec (arr_index (nd a)) (arr_index (nd it)));
    destruct (Z.leb_spec (arr_index (nd a)) (arr_index (nd it)));
    destruct (Z.leb_spec (arr_index (nd it)) (arr_index (nd a)));
    simpl; try lia; repeat split; try done; try (intros; congruence).
Qed.

(** X16: For two iterators of one buffer whose indices are below [2^63] the
    comparisons agree with the sign of the difference. *)
Theorem iterator_order_matches_difference a it :
  buf (nd a) = buf (nd it) →
  0 ≤ arr_index (nd a) < 2 ^ 63 → 0 ≤ arr_index (nd it) < 2 ^ 63 →
  iter_lt a it = (iter_diff a it <? 0) ∧
  iter_eq a it = (iter_diff a it =? 0) ∧
  iter_gt a it = (0 <? iter_diff a it).
Proof.
  intros E Ha Hi. unfold iter_lt, iter_eq, iter_gt, iter_diff.
  rewrite E, N.eqb_refl, to_ptrdiff_t_size_t, Z.gtb_ltb.
  rewrite to_ptrdiff_t_small by lia. simpl.
  repeat split.
  - destruct (Z.ltb_spec (arr_index (nd a)) (arr_index (nd it)));
      symmetry; [apply Z.ltb_lt | apply Z.ltb_ge]; lia.
  - destruct (Z.eqb_spec (arr_index (nd a)) (arr_index (nd it)));
      symmetry; [apply Z.eqb_eq | apply Z.eqb_neq]; lia.
  - destruct (Z.ltb_spec (arr_index (nd it)) (arr_index (nd a)));
      symmetry; [apply Z.ltb_lt | apply Z.ltb_ge]; lia.
Qed.

(** X17: [begin()] and [end()] of a well-formed buffer delimit its [size()]
    positions: their difference is the size, [begin() + size()] is
    [end()], they are equal exactly for the empty buffer, and every
    position [begin() + i] with [i < size()] lies before [end()] and
    refers to an element. *)
Theorem begin_end_range (this : N) b l :
  models b l →
  iter_diff (end_ this b) (begin this b) = size b ∧
  iter_plus (begin this b) (size b) = end_ this b ∧
  iter_eq (begin this b) (end_ this b) = empty b ∧
  iter_le (begin this b) (end_ this b) = true ∧
  ∀ i, 0 ≤ i < size b →
    iter_lt (iter_plus (begin this b) i) (end_ this b) = true ∧
    iter_ge (iter_plus (begin this b) i) (begin this b) = true ∧
    is_Some (iter_deref b (iter_plus (begin this b) i)).
Proof.
  intros Hb. pose proof (models_bounds _ _ Hb) as Hbd.
  pose proof (models_length _ _ Hb) as Hlen.
  unfold iter_diff, iter_plus, iter_add_assign, iter_eq, iter_le, iter_lt,
    iter_ge, begin, end_, size, empty.
  cbn [nd buf arr_index]. rewrite N.eqb_refl. cbn [andb].
  rewrite Z.sub_0_r, Z.add_0_l. int_simpl.
  split; [done|]. split; [done|]. split; [by rewrite Z.eqb_sym|].
  split; [apply Z.leb_le; lia|].
  intros i Hi. rewrite Z.add_0_l. int_simpl.
  split; [apply Z.ltb_lt; lia|]. split; [apply Z.geb_le; lia|].
  rewrite (iter_deref_at_index b l) by (done || lia).
  rewrite (models_at_index b l) by (done || lia).
  apply lookup_lt_is_Some_2. lia.
Qed.

(** X18: Stepping back from [begin()] wraps the index to [2^64 - 1]: the
    iterator is one step before [begin()] by difference and by [++], but
    the comparisons place it after [end()], not before [begin()]. *)
Theorem before_begin_compares_greater (this : N) b l :
  models b l →
  arr_index (nd (iter_decr (begin this b))) = 2 ^ 64 - 1 ∧
  iter_diff (iter_decr (begin this b)) (begin this b) = -1 ∧
  iter_incr (iter_decr (begin this b)) = begin this b ∧
  iter_lt (iter_decr (begin this b)) (begin this b) = false ∧
  iter_gt (iter_decr (begin this b)) (end_ this b) = true.
Proof.
  intros Hb. pose proof (models_bounds _ _ Hb) as Hbd.
  unfold iter_decr, iter_incr, iter_sub_assign, iter_add_assign, iter_diff,
    iter_lt, iter_gt, begin, end_.
  cbn [nd buf arr_index]. rewrite N.eqb_refl. cbn [andb].
  assert (to_size_t (0 - 1) = 2 ^ 64 - 1) as -> by reflexivity.
  split; [done|]. split; [reflexivity|]. split; [reflexivity|].
  split; [reflexivity|]. apply Z.gtb_gt. lia.
Qed.
End Iterators.

(** ** Runs of operations at the two ends *)
Section MoreRuns.
Context {T : Type}.
Implicit Types (b : circular_buffer T) (l q : list T).
Implicit Types (o : op T) (ops : list (op T)).

Lemma cap_increase_cap b n :
  cap (increase_cap b n) = if n >=? cap b then to_size_t (n + 1) else cap b.
Proof. unfold increase_cap. by destruct (n >=? cap b). Qed.

(** The counters alone: [ensure_cap] leaves room for one element and at
    most doubles the capacity, whatever the block holds. *)
Lemma ensure_cap_counters b (K : Z) :
  0 ≤ sz b < K → K < 2 ^ 62 → 0 ≤ cap b ≤ 2 * K + 3 →
  (0 < cap b → sz b < cap b) → (cap b = 0 → sz b = 0) →
  cap b ≤ cap (ensure_cap b) ≤ 2 * K + 3 ∧ sz b + 1 < cap (ensure_cap b).
Proof.
  intros Hs HK Hc Hlt H0. unfold ensure_cap. int_simpl.
  destruct (Z.geb_spec (sz b + 1) (cap b)); [|lia].
  destruct (Z.eqb_spec (cap b) 0) as [E|E]; rewrite cap_increase_cap.
  - rewrite E. simpl. rewrite to_size_t_small; lia.
  - int_simpl. rewrite (proj2 (Z.geb_le _ _)) by lia. int_simpl. lia.
Qed.

Lemma step_counters b o (K : Z) :
  0 ≤ sz b < K → K < 2 ^ 62 → 0 ≤ cap b ≤ 2 * K + 3 →
  (0 < cap b → sz b < cap b) → (cap b = 0 → sz b = 0) →
  (is_push o = false → 0 < sz b) →
  cap b ≤ cap (step b o) ≤ 2 * K + 3 ∧
  sz (step b o) = sz b + (if is_push o then 1 else -1) ∧
  sz (step b o) < cap (step b o).
Proof.
  intros Hs HK Hc Hlt H0 Hpop.
  destruct (ensure_cap_counters b K) as (Hc' & Hroom); [done..|].
  rewrite sz_step.
  destruct o as [v|v| |]; cbn [is_push step];
    rewrite ?cap_push_back; try specialize (Hpop eq_refl); int_simpl.
  - done.
  - change (cap (push_front b v)) with (cap (ensure_cap b)). done.
  - change (cap (pop_back b)) with (cap b). lia.
  - change (cap (pop_front b)) with (cap b). lia.
Qed.

Lemma run_counters ops : ∀ b (n : nat) (K : Z),
  sz b = Z.of_nat n → Z.of_nat n + Z.of_nat (length ops) ≤ K → K < 2 ^ 62 →
  0 ≤ cap b ≤ 2 * K + 3 → (0 < cap b → sz b < cap b) →
  (cap b = 0 → sz b = 0) →
  pops_valid n ops = true →
  cap b ≤ cap (run b ops) ≤ 2 * K + 3 ∧
  (0 < cap (run b ops) → sz (run b ops) < cap (run b ops)) ∧
  (cap (run b ops) = 0 → sz (run b ops) = 0) ∧
  ∃ n' : nat, sz (run b ops) = Z.of_nat n' ∧
              (n' + length ops ≤ n + 2 * length ops)%nat.
Proof.
  unfold run.
  induction ops as [|o ops IH]; intros b n K Hn HK HK' Hc Hlt H0 Hv.
  - cbn [foldl]. split; [lia|]. split; [done|]. split; [done|].
    exists n. split; [done | lia].
  - cbn [foldl length pops_valid] in *.
    destruct (step_counters b o K) as (Hc1 & Hs1 & Hlt1); [lia | done.. | |].
    { intros Ho. rewrite Ho in Hv. destruct n; [done|]. lia. }
    destruct (IH (step b o) (if is_push o then S n else pred n) K)
      as (Hc2 & Hlt2 & H02 & n' & Hn' & Hle).
    + rewrite Hs1. destruct (is_push o) eqn:Ho; [lia|].
      destruct n; [done | lia].
    + destruct (is_push o); lia.
    + done.
    + lia.
    + done.
    + intros E. rewrite Hs1 in *. destruct (is_push o) eqn:Ho; [lia|].
      destruct n; [done | lia].
    + destruct (is_push o); [done|]. by destruct n.
    + split; [lia|]. split; [done|]. split; [done|].
      exists n'. split; [done|]. destruct (is_push o); lia.
Qed.

Lemma pops_valid_app ops1 : ∀ ops2 (n : nat) b,
  sz b = Z.of_nat n → Z.of_nat n + Z.of_nat (length ops1) < 2 ^ 63 →
  pops_valid n (ops1 ++ ops2) = true →
  pops_valid n ops1 = true ∧
  ∃ n' : nat, sz (run b ops1) = Z.of_nat n' ∧ pops_valid n' ops2 = true.
Proof.
  unfold run.
  induction ops1 as [|o ops1 IH]; intros ops2 n b Hn Hmax Hv.
  - split; [done|]. by exists n.
  - cbn [app foldl length pops_valid] in *.
    destruct (is_push o) eqn:Ho.
    + apply (IH ops2 (S n)); [|lia|done].
      rewrite sz_step, Ho. rewrite to_size_t_small; lia.
    + destruct n as [|n]; [done|].
      apply (IH ops2 n); [|lia|done].
      rewrite sz_step, Ho. rewrite to_size_t_small; lia.
Qed.

(** X19: Whatever pushes and pops are applied to a well-formed buffer, with no
    pop on an empty one, the capacity never shrinks and the size stays
    below the capacity.  This is a property of the counters alone: it
    also holds through the states in which [push_back] has misplaced an
    element. *)
Theorem capacity_never_shrinks b l ops1 ops2 :
  models b l →
  pops_valid (length l) (ops1 ++ ops2) = true →
  Z.of_nat (length (ops1 ++ ops2)) < 2 ^ 61 →
  capacity b ≤ capacity (run b ops1) ∧
  capacity (run b ops1) ≤ capacity (run b (ops1 ++ ops2)) ∧
  (0 < capacity (run b (ops1 ++ ops2)) →
   size (run b (ops1 ++ ops2)) < capacity (run b (ops1 ++ ops2))).
Proof.
  intros Hb Hv Hlen. rewrite length_app in Hlen.
  pose proof (models_bounds _ _ Hb) as Hbd.
  pose proof (models_length _ _ Hb) as Hsz.
  unfold capacity, size.
  set (K := cap b + Z.of_nat (length ops1 + length ops2)).
  destruct (pops_valid_app ops1 ops2 (length l) b Hsz) as (Hv1 & n1 & Hn1 & Hv2);
    [lia | done |].
  destruct (run_counters ops1 b (length l) K Hsz)
    as (Hc1 & Hlt1 & H01 & n' & Hn' & Hle); [subst K; lia.. | done |].
  destruct (run_counters ops2 (run b ops1) n1 K Hn1)
    as (Hc2 & Hlt2 & _); [subst K; lia.. | done | done | done |].
  unfold run in *. rewrite foldl_app.
  split; [lia|]. split; [lia | done].
Qed.

Lemma no_push_back_defect_free ops : ∀ b (n : nat),
  sz b = Z.of_nat n → Z.of_nat (n + pushes ops) < 2 ^ 63 →
  no_push_back ops = true →
  pops_valid n ops = true → defect_free b ops = true.
Proof.
  unfold pushes, no_push_back.
  induction ops as [|o ops IH]; intros b n Hsz Hn Hall Hv; [done|].
  cbn [forallb] in Hall. apply andb_prop in Hall as [Ho Hall].
  rewrite filter_cons in Hn.
  destruct o as [v|v| |]; try done; cbn [defect_free pops_valid is_push] in *.
  - apply (IH _ (S n)); [|simpl in Hn; lia|done..].
    rewrite sz_step. simpl. rewrite to_size_t_small; lia.
  - destruct n as [|n]; [done|]. unfold empty. rewrite Hsz.
    simpl. apply (IH _ n); [|simpl in Hn; lia|done..].
    unfold pop_back. cbn [sz]. rewrite to_size_t_small; lia.
  - destruct n as [|n]; [done|]. unfold empty. rewrite Hsz.
    simpl. apply (IH _ n); [|simpl in Hn; lia|done..].
    unfold pop_front. cbn [sz]. rewrite to_size_t_small; lia.
Qed.

Lemma never_drained_defect_free ops : ∀ b (n : nat),
  sz b = Z.of_nat n → (n = 0%nat → head (ensure_cap b) = 0) →
  Z.of_nat (n + pushes ops) < 2 ^ 63 →
  never_drained n ops = true → defect_free b ops = true.
Proof.
  unfold pushes.
  induction ops as [|o ops IH]; intros b n Hsz Hh Hn Hv; [done|].
  rewrite filter_cons in Hn.
  destruct o as [v|v| |]; try done; cbn [defect_free never_drained is_push] in *.
  - apply andb_true_intro. split.
    + unfold empty. rewrite Hsz. destruct n as [|n]; [|done].
      simpl. apply Z.eqb_eq. by apply Hh.
    + apply (IH _ (S n)); [|done|simpl in Hn; lia|done].
      rewrite sz_step. simpl. rewrite to_size_t_small; lia.
  - destruct n as [|[|n]]; [done..|]. unfold empty. rewrite Hsz.
    simpl. apply (IH _ (S n)); [|done|simpl in Hn; lia|done].
    unfold pop_front. cbn [sz]. rewrite to_size_t_small; lia.
Qed.

Lemma never_drained_pops_valid ops : ∀ n : nat,
  never_drained n ops = true → pops_valid n ops = true.
Proof.
  induction ops as [|o ops IH]; intros n Hv; [done|].
  destruct o as [v|v| |]; try done; cbn [never_drained pops_valid is_push] in *.
  - by apply IH.
  - destruct n as [|[|n]]; [done..|]. by apply IH.
Qed.

(** X20: Every run of [push_front], [pop_front] and [pop_back] on a
    well-formed buffer, with no pop on an empty one, shows at each step
    the front, back and size of the reference double-ended queue, and
    ends in the sequence the reference holds. *)
Theorem runs_without_push_back b q ops :
  models b q →
  no_push_back ops = true →
  pops_valid (length q) ops = true →
  4 * (cap b + Z.of_nat (pushes ops)) + 6 ≤ INT_MAX →
  trace b ops = deque_trace q ops ∧
  to_list (run b ops) = Some <$> foldl deque_step q ops ∧
  invariant (run b ops).
Proof.
  intros Hb Hnp Hv Hmax.
  pose proof (models_bounds _ _ Hb) as Hbd.
  pose proof (models_length _ _ Hb) as Hsz.
  rewrite INT_MAX_eq in Hmax.
  destruct (run_simulates ops b q (Z.to_nat (cap b)) Hb) as (Htr & Hm).
  - lia.
  - lia.
  - rewrite INT_MAX_eq. lia.
  - apply (no_push_back_defect_free ops b (length q)); [done | lia | done..].
  - split; [done|]. split; [by apply models_to_list|].
    by apply (models_invariant _ (foldl deque_step q ops)).
Qed.

(** X21: First-in first-out use, [push_back] and [pop_front], matches the
    reference queue at every step as long as the queue is never drained:
    it starts non-empty or with its head at slot 0, and no [pop_front]
    removes the last element. *)
Theorem fifo_runs_never_drained b q ops :
  models b q →
  q ≠ [] ∨ head b = 0 →
  never_drained (length q) ops = true →
  4 * (cap b + Z.of_nat (pushes ops)) + 6 ≤ INT_MAX →
  trace b ops = deque_trace q ops ∧
  to_list (run b ops) = Some <$> foldl deque_step q ops ∧
  invariant (run b ops).
Proof.
  intros Hb Hguard Hnd Hmax.
  pose proof (models_bounds _ _ Hb) as Hbd.
  pose proof (models_length _ _ Hb) as Hsz.
  assert (2 * cap b ≤ INT_MAX) as Hmax' by lia.
  rewrite INT_MAX_eq in Hmax.
  destruct (run_simulates ops b q (Z.to_nat (cap b)) Hb) as (Htr & Hm).
  - lia.
  - lia.
  - rewrite INT_MAX_eq. lia.
  - apply (never_drained_defect_free ops b (length q)); [done | | lia | done].
    intros E. destruct Hguard as [Hq|Hh]; [by destruct q|].
    by apply (ensure_cap_head_0 b q).
  - split; [done|]. split; [by apply models_to_list|].
    by apply (models_invariant _ (foldl deque_step q ops)).
Qed.
End MoreRuns.

(** ** Reallocation when a copy throws *)
Section MoreThrowing.
Context {T : Type}.
Implicit Types (b : circular_buffer T) (l : list T) (d dest : @block T).

Lemma destroy_all_lookup (indices : list Z) : ∀ d (i : Z),
  slots (foldl (λ d i, block_destroy d (i - 1)) d indices) !! i
  = (if decide (i + 1 ∈ indices) then None else slots d !! i) ∧
  released (foldl (λ d i, block_destroy d (i - 1)) d indices) = released d.
Proof.
  induction indices as [|x rest IH]; intros d i; cbn [foldl].
  - rewrite decide_False; [done | apply not_elem_of_nil].
  - destruct (IH (block_destroy d (x - 1)) i) as (-> & ->).
    split; [|done]. cbn [block_destroy slots].
    destruct (decide (i + 1 ∈ rest)) as [Hin|Hin].
    + rewrite decide_True; [done | apply elem_of_cons; by right].
    + destruct (decide (x - 1 = i)) as [<-|Hx].
      * rewrite lookup_delete_eq, decide_True; [done|].
        replace (x - 1 + 1) with x by lia. apply elem_of_cons. by left.
      * rewrite lookup_delete_ne by done.
        rewrite decide_False; [done|].
        intros [E|E]%elem_of_cons; [lia | done].
Qed.

Lemma delete_array_lookup d (lo hi i : Z) :
  slots (delete_array d lo hi) !! i
  = (if decide (lo ≤ i ≤ hi) then None else slots d !! i) ∧
  released (delete_array d lo hi) = released d.
Proof.
  unfold delete_array.
  destruct (destroy_all_lookup (reverse (seqZ (lo + 1) (hi + 1 - lo))) d i)
    as (-> & ->).
  split; [|done].
  destruct (decide (lo ≤ i ≤ hi)) as [Hi|Hi].
  - rewrite decide_True; [done|].
    apply elem_of_reverse, elem_of_seqZ. lia.
  - rewrite decide_False; [done|].
    intros Hin%elem_of_reverse%elem_of_seqZ. lia.
Qed.

(** The loop of [delete_array] started at [i = l + n] with [l + 1] and
    [i] in the range of [size_t]: it ends after [n] rounds, having
    destroyed the slots [l + n - 1] down to [l]. *)
Lemma delete_array_loop_rounds (lo : Z) :
  0 ≤ lo → lo + 1 < 2 ^ 64 →
  ∀ (n : nat) d (fuel : nat),
    lo + Z.of_nat n < 2 ^ 64 → (n < fuel)%nat →
    while_loop fuel
      (λ s : @block T * Z, snd s >=? to_size_t (lo + 1))
      (λ s : @block T * Z,
         (block_destroy (fst s) (to_size_t (snd s - 1)),
          to_size_t (snd s - 1)))
      (d, lo + Z.of_nat n)
    = Some (foldl (λ d i, block_destroy d (i - 1)) d
                  (reverse (seqZ (lo + 1) (Z.of_nat n))), lo).
Proof.
  intros Hlo Hl. rewrite (to_size_t_small (lo + 1)) by lia.
  induction n as [|n IH]; intros d fuel Hn Hfuel.
  - destruct fuel as [|fuel]; [lia|]. cbn [while_loop snd].
    rewrite Z.add_0_r.
    destruct (Z.geb_spec lo (lo + 1)); [lia | done].
  - destruct fuel as [|fuel]; [lia|]. cbn [while_loop snd fst].
    destruct (Z.geb_spec (lo + Z.of_nat (S n)) (lo + 1)); [|lia].
    rewrite (to_size_t_small (lo + Z.of_nat (S n) - 1)) by lia.
    replace (lo + Z.of_nat (S n) - 1) with (lo + Z.of_nat n) by lia.
    rewrite IH by lia. do 2 f_equal.
    replace (Z.of_nat (S n)) with (Z.of_nat n + 1) by lia.
    rewrite seqZ_app by lia. rewrite reverse_app.
    change (seqZ (lo + 1 + Z.of_nat n) 1) with [0 + (lo + 1 + Z.of_nat n)].
    cbn [reverse rev_append app foldl]. do 2 f_equal. lia.
Qed.

(** With [l = SIZE_MAX] the bound [l + 1] wraps to 0 and the test
    [i >= l + 1] holds for every [i]. *)
Lemma delete_array_loop_never_ends (fuel : nat) : ∀ (d : @block T) (i : Z),
  while_loop fuel
    (λ s : @block T * Z, snd s >=? to_size_t (2 ^ 64 - 1 + 1))
    (λ s : @block T * Z,
       (block_destroy (fst s) (to_size_t (snd s - 1)), to_size_t (snd s - 1)))
    (d, to_size_t i)
  = None.
Proof.
  change (to_size_t (2 ^ 64 - 1 + 1)) with 0.
  induction fuel as [|fuel IH]; intros d i; cbn [while_loop snd fst];
    pose proof (to_size_t_range i);
    destruct (Z.geb_spec (to_size_t i) 0); try lia; [done|].
  apply IH.
Qed.

(** X22: [delete_array(array, l, r)] with [l] and [r] below [SIZE_MAX]:
    the loop ends, having destroyed the slots [l .. r], both included,
    and no other, and it does not release the block; when [r + 1 < l]
    it destroys nothing.  With [l = SIZE_MAX] the loop does not end. *)
Theorem delete_array_destroys_range (fuel : nat) d (lo hi : Z) :
  0 ≤ lo < 2 ^ 64 - 1 → 0 ≤ hi < 2 ^ 64 - 1 →
  (Z.to_nat (hi + 1 - lo) < fuel)%nat →
  (∃ d', delete_array_loop fuel d lo hi = Some d' ∧
         (∀ i, slots d' !! i
               = if decide (lo ≤ i ≤ hi) then None else slots d !! i) ∧
         released d' = released d ∧
         d' = delete_array d lo hi) ∧
  (∀ fuel', delete_array_loop fuel' d (2 ^ 64 - 1) hi = None).
Proof.
  intros Hlo Hhi Hfuel. split.
  - exists (delete_array d lo hi).
    split; [|split; [|split]]; [| |by destruct (delete_array_lookup d lo hi 0)
                                | done].
    + unfold delete_array_loop, delete_array.
      rewrite (to_size_t_small (hi + 1)) by lia.
      destruct (decide (lo ≤ hi + 1)) as [Hle|Hgt].
      * replace (hi + 1) with (lo + Z.of_nat (Z.to_nat (hi + 1 - lo))) at 1
          by lia.
        rewrite (delete_array_loop_rounds lo) by lia.
        cbn [fmap option_fmap option_map fst]. by rewrite Z2Nat.id by lia.
      * destruct fuel as [|fuel]; [lia|]. cbn [while_loop snd].
        rewrite (to_size_t_small (lo + 1)) by lia.
        destruct (Z.geb_spec (hi + 1) (lo + 1)); [lia|].
        cbn [fmap option_fmap option_map fst].
        rewrite seqZ_nil by lia. done.
    + intros i. by destruct (delete_array_lookup d lo hi i).
  - intros fuel'. unfold delete_array_loop.
    by rewrite (delete_array_loop_never_ends fuel' d (hi + 1)).
Qed.

(** The first loop of [copyToArray] on a buffer that does not wrap, when
    the copy of the element at logical index [j + k] throws: the copies
    made are destroyed, and the block is released unless the failing copy
    was the first ([i == head]). *)
Lemma copy_loop_rethrow_fault b l :
  models b l → head b + sz b ≤ cap b →
  ∀ (k : nat) (j : Z) dest,
    0 ≤ j → j + Z.of_nat k < sz b → released dest = false →
    (∀ i, ¬ 0 ≤ i < j → slots dest !! i = None) →
    copy_loop_rethrow b (seqZ (head b + j) (sz b - j)) (Some k) dest
    = (None, Block ∅ (bool_decide (0 < j + Z.of_nat k)), true).
Proof.
  intros Hb Hun. pose proof (models_bounds _ _ Hb) as Hbd.
  pose proof (models_length _ _ Hb) as Hlen.
  induction k as [|k IH]; intros j dest Hj Hjk Hrel Hkeys.
  - rewrite seqZ_cons by lia. cbn [copy_loop_rethrow].
    destruct (models_allocated b l Hb) as (m & Ea & _); [lia|].
    destruct (lookup_lt_is_Some_2 l (Z.to_nat j)) as [v Hv]; [lia|].
    assert (load (arr b) (head b + j) = Some v) as ->.
    { rewrite Ea. cbn [load]. rewrite (models_slot_in b l m) by (done || lia).
      replace (head b + j - head b) with j by lia.
      by rewrite Z.mod_small by lia. }
    cbn [try_copy]. do 2 f_equal.
    destruct (Z.gtb_spec (head b + j) (head b)) as [Hgt|Hle].
    + rewrite bool_decide_eq_true_2 by lia.
      unfold block_release. f_equal.
      apply map_eq. intros i. rewrite lookup_empty.
      destruct (delete_array_lookup dest 0
                  (to_size_t (head b + j - head b - 1)) i) as (-> & _).
      case_decide; [done|]. apply Hkeys.
      rewrite to_size_t_small in * by lia. lia.
    + rewrite bool_decide_eq_false_2 by lia.
      destruct dest as [s r]. cbn [slots released] in *. f_equal; [|done].
      apply map_eq. intros i. rewrite lookup_empty. apply Hkeys. lia.
  - rewrite seqZ_cons by lia. cbn [copy_loop_rethrow].
    destruct (models_allocated b l Hb) as (m & Ea & _); [lia|].
    destruct (lookup_lt_is_Some_2 l (Z.to_nat j)) as [v Hv]; [lia|].
    assert (load (arr b) (head b + j) = Some v) as ->.
    { rewrite Ea. cbn [load]. rewrite (models_slot_in b l m) by (done || lia).
      replace (head b + j - head b) with j by lia.
      by rewrite Z.mod_small by lia. }
    cbn [try_copy].
    replace (Z.succ (head b + j)) with (head b + (j + 1)) by lia.
    replace (Z.pred (sz b - j)) with (sz b - (j + 1)) by lia.
    rewrite IH.
    + do 3 f_equal. apply bool_decide_ext. lia.
    + lia.
    + lia.
    + done.
    + intros i Hi. cbn [block_construct slots].
      rewrite to_size_t_small by lia.
      rewrite lookup_insert_ne by lia. apply Hkeys. lia.
Qed.

(** X23: [reserve(n)] that has to reallocate a well-formed buffer which
    does not wrap.  When the heap refuses the request [operator new]
    throws before any copy: the buffer is untouched and no block exists,
    so the strong guarantee holds.  When the heap serves it and the copy
    of the element at logical index [k] throws, the exception leaves the
    call, the buffer is untouched and the copies made in the new block
    are destroyed; the new block is released when [k > 0] and is leaked
    when the very first copy throws, so that the strong guarantee holds
    exactly for [k > 0]. *)
Theorem reserve_fault_unwrapped (sizeof_T : Z) (heap : Z → bool) b l
    (n : Z) (k : nat) :
  models b l → head b + sz b ≤ cap b → cap b ≤ n →
  0 < sizeof_T → (n + 1) * sizeof_T < 2 ^ 64 → (k < length l)%nat →
  (heap ((n + 1) * sizeof_T) = false →
   ∀ c, reserve_new sizeof_T heap c b n = Propagated c b None ∧
        strong_guarantee c b (reserve_new sizeof_T heap c b n)) ∧
  (heap ((n + 1) * sizeof_T) = true →
   reserve_new sizeof_T heap (Some k) b n
   = Propagated None b (Some (Block ∅ (bool_decide (0 < k)%nat))) ∧
   (strong_guarantee (Some k) b (reserve_new sizeof_T heap (Some k) b n)
    ↔ (0 < k)%nat)).
Proof.
  intros Hb Hun Hn Hs Hreq Hk. pose proof (models_bounds _ _ Hb) as Hbd.
  pose proof (models_length _ _ Hb) as Hlen.
  unfold reserve_new.
  rewrite <- (alloc_request_small sizeof_T n) by (done || lia).
  split.
  - intros Hh c. rewrite increase_cap_new_refused by done. done.
  - intros Hh. rewrite increase_cap_new_served by done.
    assert (increase_cap_throwing (Some k) b n
            = Propagated None b (Some (Block ∅ (bool_decide (0 < k)%nat))))
      as Hres.
    { unfold increase_cap_throwing.
      rewrite (proj2 (Z.geb_le _ _)) by lia.
      unfold copyToArray_throwing.
      rewrite (models_tail b l) by (done || lia).
      rewrite (Z.mod_small (head b + sz b - 1)) by lia.
      rewrite (proj2 (Z.leb_le _ _)) by lia.
      pose proof (copy_loop_rethrow_fault b l Hb Hun k 0 fresh_block) as Hloop.
      rewrite Z.add_0_r, Z.sub_0_r in Hloop.
      rewrite Hloop; [|lia|lia|done|done].
      do 3 f_equal. apply bool_decide_ext. lia. }
    split; [done|]. rewrite Hres. cbn [strong_guarantee slots released].
    split.
    + intros (_ & _ & _ & _ & Hr). apply bool_decide_eq_true_1 in Hr. done.
    + intros Hpos. repeat split. by apply bool_decide_eq_true_2.
Qed.

(** X24: [push_back] on a buffer that has room for the element does not
    reallocate, and then it meets the strong guarantee whichever copy
    throws: the buffer is only written by the last step, which comes
    after both copies.  When the call returns it has done what
    [push_back] does. *)
Theorem push_back_with_room_is_strong (c : option nat) b (v : T) :
  0 ≤ sz b < 2 ^ 63 → sz b + 1 < cap b →
  strong_guarantee c b (push_back_throwing c b v) ∧
  (c = Some 0%nat ∨ c = Some 1%nat
   → ∃ c', push_back_throwing c b v = Propagated c' b None) ∧
  (c ≠ Some 0%nat → c ≠ Some 1%nat
   → ∃ c', push_back_throwing c b v = Completed c' (push_back b v) false).
Proof.
  intros Hs Hroom.
  unfold push_back_throwing, ensure_cap_throwing, push_back.
  rewrite ensure_cap_noop by lia. int_simpl.
  destruct (Z.geb_spec (sz b + 1) (cap b)) as [|_]; [lia|].
  destruct c as [[|[|k]]|]; cbn [try_copy strong_guarantee]; int_simpl.
  - split; [done|]. split; [by eexists | by intros ?].
  - split; [done|]. split; [by eexists | by intros _ ?].
  - split; [by split; [intros _; eexists|]|].
    split; [by intros [?|?] | by eexists].
  - split; [by split; [intros [? ?]|]|].
    split; [by intros [?|?] | by eexists].
Qed.
End MoreThrowing.

(** ** Positions across modifications *)
Section Positions.
Context {T : Type}.
Implicit Types (b : circular_buffer T) (l : list T) (v x : T).
Implicit Types (it : basic_iterator).

Lemma models_iter_deref_index b l it :
  models b l → 0 ≤ arr_index (nd it) < sz b →
  iter_deref b it = l !! Z.to_nat (arr_index (nd it)).
Proof.
  intros Hb Hi. destruct it as [[bf i]]. cbn [nd arr_index] in *.
  rewrite (iter_deref_at_index b l) by done.
  by apply models_at_index.
Qed.

(** X25: An iterator holds a logical index, so it survives a reallocation:
    after [push_back] it designates the same element; after [push_front]
    it designates the element before, and its successor the same
    element; after [pop_front] it designates the element after. *)
Theorem iterators_after_push_pop b l v it :
  models b l → 2 * cap b ≤ INT_MAX →
  0 ≤ arr_index (nd it) < size b →
  iter_deref (push_back b v) it = iter_deref b it ∧
  iter_deref (push_front b v) (iter_incr it) = iter_deref b it ∧
  iter_deref (push_front b v) it
  = (if decide (arr_index (nd it) = 0) then Some v
     else iter_deref b (iter_decr it)) ∧
  (arr_index (nd it) + 1 < size b →
   iter_deref (pop_front b) it = iter_deref b (iter_incr it)).
Proof.
  intros Hb Hmax Hi. unfold size in *.
  pose proof (models_bounds _ _ Hb) as Hbd.
  pose proof (models_length _ _ Hb) as Hlen.
  assert (l ≠ []) as Hne by (intros ->; simpl in Hlen; lia).
  assert (models (push_back b v) (l ++ [v])) as Hpb
    by (apply push_back_models; [done.. | by left]).
  pose proof (push_front_models b l v Hb Hmax) as Hpf.
  pose proof (models_length _ _ Hpb) as Hlpb.
  pose proof (models_length _ _ Hpf) as Hlpf.
  rewrite length_app in Hlpb. cbn [length] in Hlpb, Hlpf.
  rewrite (models_iter_deref_index b l it) by done.
  split; [|split; [|split]].
  - rewrite (models_iter_deref_index _ _ it Hpb) by lia.
    apply lookup_app_l. lia.
  - rewrite (models_iter_deref_index _ _ (iter_incr it) Hpf);
      cbn [iter_incr iter_add_assign nd arr_index]; int_simpl; [|lia].
    replace (Z.to_nat (arr_index (nd it) + 1))
      with (S (Z.to_nat (arr_index (nd it)))) by lia.
    done.
  - rewrite (models_iter_deref_index _ _ it Hpf) by lia.
    case_decide as E.
    + by rewrite E.
    + rewrite (models_iter_deref_index b l (iter_decr it) Hb);
        cbn [iter_decr iter_sub_assign nd arr_index]; int_simpl; [|lia].
      replace (Z.to_nat (arr_index (nd it)))
        with (S (Z.to_nat (arr_index (nd it) - 1))) by lia.
      done.
  - intros Hnext. destruct l as [|x l']; [done|].
    destruct (pop_front_models b x l' Hb) as (Hpop & _).
    pose proof (models_length _ _ Hpop) as Hlpop. cbn [length] in Hlen.
    rewrite (models_iter_deref_index _ _ it Hpop) by lia.
    rewrite (models_iter_deref_index b (x :: l') (iter_incr it) Hb);
      cbn [iter_incr iter_add_assign nd arr_index]; int_simpl; [|lia].
    replace (Z.to_nat (arr_index (nd it) + 1))
      with (S (Z.to_nat (arr_index (nd it)))) by lia.
    done.
Qed.

(** X26: [copyToArray] lays the elements out in logical order from slot 0 of
    the new block, whether or not the sequence wraps around the end of
    the old block, and constructs nothing else. *)
Theorem copyToArray_linearises b l :
  models b l →
  ∃ d, copyToArray b (Some ∅) = Some d ∧
       (∀ i, 0 ≤ i < size b → d !! i = at_index b i ∧ is_Some (d !! i)) ∧
       (∀ i, ¬ 0 ≤ i < size b → d !! i = None).
Proof.
  intros Hb. pose proof (models_length _ _ Hb) as Hlen.
  destruct (copyToArray_models b l Hb) as (d & Hd & Hlk).
  exists d. split; [done|]. unfold size. split.
  - intros i Hi. rewrite Hlk, decide_True by lia.
    rewrite (models_at_index b l) by done.
    split; [done|]. apply lookup_lt_is_Some. lia.
  - intros i Hi. rewrite Hlk. case_decide; [|done].
    apply lookup_ge_None. lia.
Qed.

(** X27: [pop_back] and [pop_front] do not check for the empty buffer: on an
    empty allocated buffer the size counter wraps to [2^64 - 1], above
    the capacity, and the invariant is lost. *)
Theorem pop_on_empty_wraps_size b :
  models b [] → 0 < capacity b →
  size (pop_back b) = 2 ^ 64 - 1 ∧
  size (pop_front b) = 2 ^ 64 - 1 ∧
  ¬ invariant (pop_back b) ∧
  ¬ invariant (pop_front b).
Proof.
  intros Hb Hc. pose proof (models_bounds _ _ Hb) as Hbd.
  pose proof (models_length _ _ Hb) as Hlen.
  change (Z.of_nat (length [])) with 0 in Hlen.
  unfold size, capacity, pop_back, pop_front, invariant in *.
  cbn [sz cap]. rewrite Hlen.
  change (to_size_t (0 - 1)) with (2 ^ 64 - 1).
  split; [done|]. split; [done|].
  split; intros (_ & Hlt & _); specialize (Hlt Hc); lia.
Qed.
End Positions.

(** ** The further properties on example buffers *)
Section FurtherInstances.

Lemma models_sample_buffer : models sample_buffer [10; 20; 30].
Proof. apply (foldl_push_back_models [10; 20; 30]). by vm_compute. Qed.

Lemma models_wrapped_buffer : models wrapped_buffer [3; 4].
Proof.
  unfold wrapped_buffer.
  assert (models (push_back (push_back empty_buffer 1) 2) [1; 2]) as H2.
  { apply (foldl_push_back_models [1; 2]). by vm_compute. }
  pose proof (proj1 (pop_front_models _ 1 [2] H2)) as H3.
  assert (models (push_back (pop_front (push_back (push_back empty_buffer 1) 2))
                            3) [2; 3]) as H4.
  { apply (push_back_models _ [2] 3 H3); [by vm_compute | by left]. }
  pose proof (proj1 (pop_front_models _ 2 [3] H4)) as H5.
  apply (push_back_models _ [3] 4 H5); [by vm_compute | by left].
Qed.

Lemma push_front_puts_front_instance :
  (models sample_buffer [10; 20; 30] ∧ 2 * cap sample_buffer ≤ INT_MAX) ∧
  to_list (push_front sample_buffer 5) = [Some 5; Some 10; Some 20; Some 30] ∧
  front (push_front sample_buffer 5) = Some 5.
Proof.
  assert (2 * cap sample_buffer ≤ INT_MAX) as Hmax by (by vm_compute).
  destruct (push_front_puts_front sample_buffer [10; 20; 30] 5
              models_sample_buffer Hmax) as (Hl & Hf & _).
  split; [split; [exact models_sample_buffer | exact Hmax]|].
  split; [exact Hl | exact Hf].
Defined.

Lemma push_back_appends_instance :
  (models wrapped_buffer [3; 4] ∧ 2 * cap wrapped_buffer ≤ INT_MAX ∧
   ([3; 4] ≠ [] ∨ head wrapped_buffer = 0)) ∧
  to_list (push_back wrapped_buffer 5) = [Some 3; Some 4; Some 5] ∧
  back (push_back wrapped_buffer 5) = Some 5 ∧
  capacity (push_back wrapped_buffer 5) = 6.
Proof.
  assert (2 * cap wrapped_buffer ≤ INT_MAX) as Hmax by (by vm_compute).
  assert ([3; 4] ≠ [] ∨ head wrapped_buffer = 0) as Hg by (by left).
  destruct (push_back_appends wrapped_buffer [3; 4] 5
              models_wrapped_buffer Hmax Hg) as (Hl & Hb & _).
  split; [split; [exact models_wrapped_buffer | split; [exact Hmax | exact Hg]]|].
  split; [exact Hl|]. split; [exact Hb | reflexivity].
Defined.

Lemma pop_front_removes_front_instance :
  models wrapped_buffer [3; 4] ∧
  front wrapped_buffer = Some 3 ∧
  to_list (pop_front wrapped_buffer) = [Some 4].
Proof.
  destruct (pop_front_removes_front wrapped_buffer 3 [4] models_wrapped_buffer)
    as (Hf & Hl & _).
  split; [exact models_wrapped_buffer|]. split; [exact Hf | exact Hl].
Defined.

Lemma pop_back_removes_back_instance :
  models wrapped_buffer ([3] ++ [4]) ∧
  back wrapped_buffer = Some 4 ∧
  to_list (pop_back wrapped_buffer) = [Some 3].
Proof.
  destruct (pop_back_removes_back wrapped_buffer [3] 4 models_wrapped_buffer)
    as (Hf & Hl & _).
  split; [exact models_wrapped_buffer|]. split; [exact Hf | exact Hl].
Defined.

Lemma push_pop_round_trip_instance :
  (models wrapped_buffer [3; 4] ∧ 2 * cap wrapped_buffer ≤ INT_MAX) ∧
  to_list (pop_front (push_front wrapped_buffer 9)) = to_list wrapped_buffer ∧
  to_list (pop_back (push_back wrapped_buffer 9)) = to_list wrapped_buffer.
Proof.
  assert (2 * cap wrapped_buffer ≤ INT_MAX) as Hmax by (by vm_compute).
  destruct (push_pop_round_trip wrapped_buffer [3; 4] 9
              models_wrapped_buffer Hmax) as (Hf & Hb).
  split; [split; [exact models_wrapped_buffer | exact Hmax]|].
  split; [exact Hf|]. apply Hb. by left.
Defined.

Lemma index_front_back_instance :
  models wrapped_buffer [3; 4] ∧
  at_index wrapped_buffer 1 = Some 4 ∧
  iter_deref wrapped_buffer (iter_plus (begin 7 wrapped_buffer) 1)
  = at_index wrapped_buffer 1 ∧
  back wrapped_buffer = at_index wrapped_buffer (size wrapped_buffer - 1).
Proof.
  destruct (index_front_back wrapped_buffer [3; 4] 7 models_wrapped_buffer)
    as (Hi & Hfb).
  destruct (Hi 1) as (Ha & _ & Hd); [by vm_compute|].
  destruct Hfb as (_ & Hb); [by vm_compute|].
  split; [exact models_wrapped_buffer|].
  split; [exact Ha|]. split; [exact Hd | exact Hb].
Defined.

Lemma insert_at_position_instance :
  (models sample_buffer [10; 20; 30] ∧ 2 * cap sample_buffer ≤ INT_MAX ∧
   (1 ≤ length [10; 20; 30])%nat ∧ (length [10; 20; 30] ≤ 3)%nat ∧
   ([10; 20; 30] ≠ [] ∨ head sample_buffer = 0)) ∧
  ∃ b' it,
    insert 3 7 sample_buffer (iter_at 7 1) 15 = Some (b', it) ∧
    to_list b' = [Some 10; Some 15; Some 20; Some 30] ∧
    iter_deref b' it = Some 15.
Proof.
  assert (2 * cap sample_buffer ≤ INT_MAX) as Hmax by (by vm_compute).
  assert (1 ≤ length [10; 20; 30])%nat as Hp by (simpl; lia).
  assert (length [10; 20; 30] ≤ 3)%nat as Hf by (simpl; lia).
  assert ([10; 20; 30] ≠ [] ∨ head sample_buffer = 0) as Hg by (by left).
  destruct (insert_at_position 3 7 sample_buffer [10; 20; 30] 1 15
              models_sample_buffer Hmax Hp Hf Hg)
    as (b' & it & Hins & Hl & _ & _ & Hd & _).
  split.
  { split; [exact models_sample_buffer|]. split; [exact Hmax|].
    split; [exact Hp|]. split; [exact Hf | exact Hg]. }
  exists b', it. split; [exact Hins|]. split; [exact Hl | exact Hd].
Defined.

Lemma erase_at_position_instance :
  (models sample_buffer [10; 20; 30] ∧ (1 < length [10; 20; 30])%nat ∧
   (length [10; 20; 30] ≤ 3)%nat) ∧
  ∃ b' it,
    erase 3 7 sample_buffer (iter_at 7 1) = Some (b', it) ∧
    to_list b' = [Some 10; Some 30] ∧
    iter_deref b' it = Some 30.
Proof.
  assert (1 < length [10; 20; 30])%nat as Hp by (simpl; lia).
  assert (length [10; 20; 30] ≤ 3)%nat as Hf by (simpl; lia).
  destruct (erase_at_position 3 7 sample_buffer [10; 20; 30] 1
              models_sample_buffer Hp Hf)
    as (b' & it & Hers & Hl & _ & _ & Hd & _).
  split; [split; [exact models_sample_buffer | split; [exact Hp | exact Hf]]|].
  exists b', it. split; [exact Hers|]. split; [exact Hl | exact Hd].
Defined.

Lemma erase_range_removes_range_instance :
  (models sample_buffer [10; 20; 30] ∧ (1 ≤ 3)%nat ∧
   (3 ≤ length [10; 20; 30])%nat ∧ (length [10; 20; 30] ≤ 3)%nat ∧
   (1 = 0 ∨ 1 = 3 ∨ length [10; 20; 30] - 3 ≤ 1)%nat) ∧
  ∃ b' it,
    erase_range 3 7 sample_buffer (iter_at 7 1) (iter_at 7 3) = Some (b', it) ∧
    to_list b' = [Some 10] ∧ it = iter_at 7 1.
Proof.
  assert (1 ≤ 3)%nat as Hf by lia.
  assert (3 ≤ length [10; 20; 30])%nat as Hla by (simpl; lia).
  assert (length [10; 20; 30] ≤ 3)%nat as Hfu by (simpl; lia).
  assert (1 = 0 ∨ 1 = 3 ∨ length [10; 20; 30] - 3 ≤ 1)%nat as Hc
    by (right; right; simpl; lia).
  destruct (erase_range_removes_range 3 7 sample_buffer [10; 20; 30] 1 3
              models_sample_buffer Hf Hla Hfu Hc)
    as (b' & it & Hers & Hl & _ & Hit & _).
  split.
  { split; [exact models_sample_buffer|]. split; [exact Hf|].
    split; [exact Hla|]. split; [exact Hfu | exact Hc]. }
  exists b', it. split; [exact Hers|]. split; [exact Hl | exact Hit].
Defined.

Lemma insert_erase_round_trip_instance :
  (models wrapped_buffer [3; 4] ∧ 2 * cap wrapped_buffer ≤ INT_MAX ∧
   (1 ≤ length [3; 4])%nat ∧ (length [3; 4] < 3)%nat ∧
   ([3; 4] ≠ [] ∨ head wrapped_buffer = 0)) ∧
  ∃ b1 it b2 it',
    insert 3 7 wrapped_buffer (iter_at 7 1) 9 = Some (b1, it) ∧
    erase 3 7 b1 it = Some (b2, it') ∧
    to_list b2 = to_list wrapped_buffer.
Proof.
  assert (2 * cap wrapped_buffer ≤ INT_MAX) as Hmax by (by vm_compute).
  assert (1 ≤ length [3; 4])%nat as Hp by (simpl; lia).
  assert (length [3; 4] < 3)%nat as Hf by (simpl; lia).
  assert ([3; 4] ≠ [] ∨ head wrapped_buffer = 0) as Hg by (by left).
  destruct (insert_erase_round_trip 3 7 wrapped_buffer [3; 4] 1 9
              models_wrapped_buffer Hmax Hp Hf Hg)
    as (b1 & it & b2 & it' & Hins & Hers & Hl & _).
  split.
  { split; [exact models_wrapped_buffer|]. split; [exact Hmax|].
    split; [exact Hp|]. split; [exact Hf | exact Hg]. }
  exists b1, it, b2, it'. split; [exact Hins|]. split; [exact Hers | exact Hl].
Defined.

Lemma clear_then_push_back_instance :
  (models (pop_front sample_buffer) [20; 30] ∧
   2 * cap (pop_front sample_buffer) + 4 * Z.of_nat (length [7; 8; 9]) + 6
   ≤ INT_MAX) ∧
  head (pop_front sample_buffer) = 1 ∧
  to_list (foldl push_back (clear (pop_front sample_buffer)) [7; 8; 9])
  = [Some 7; Some 8; Some 9].
Proof.
  pose proof (proj1 (pop_front_models _ 10 [20; 30] models_sample_buffer))
    as Hm.
  assert (2 * cap (pop_front sample_buffer)
          + 4 * Z.of_nat (length [7; 8; 9]) + 6 ≤ INT_MAX) as Hmax
    by (by vm_compute).
  destruct (clear_then_push_back (pop_front sample_buffer) [20; 30] [7; 8; 9]
              Hm Hmax) as (Hl & _).
  split; [split; [exact Hm | exact Hmax]|].
  split; [reflexivity | exact Hl].
Defined.

Lemma reserve_then_push_back_instance :
  (models wrapped_buffer [3; 4] ∧ capacity wrapped_buffer ≤ 5 < INT_MAX ∧
   Z.of_nat (length [3; 4] + length [5; 6; 7]) ≤ 5) ∧
  to_list (foldl push_back (reserve wrapped_buffer 5) [5; 6; 7])
  = [Some 3; Some 4; Some 5; Some 6; Some 7] ∧
  capacity (foldl push_back (reserve wrapped_buffer 5) [5; 6; 7]) = 6.
Proof.
  assert (capacity wrapped_buffer ≤ 5 < INT_MAX) as Hn by (by vm_compute).
  assert (Z.of_nat (length [3; 4] + length [5; 6; 7]) ≤ 5) as Hfit
    by (by vm_compute).
  destruct (reserve_then_push_back wrapped_buffer [3; 4] [5; 6; 7] 5
              models_wrapped_buffer Hn Hfit) as (Hl & Hc & _).
  split; [split; [exact models_wrapped_buffer | split; [exact Hn | exact Hfit]]|].
  split; [exact Hl | exact Hc].
Defined.

Lemma assign_swaps_with_parameter_instance :
  (models sample_buffer [10; 20; 30] ∧ models (push_back_n 12) (replicate 12 0)
   ∧ models wrapped_buffer [3; 4]) ∧
  capacity (fst (operator_assign sample_buffer (push_back_n 12))) = 24 ∧
  size (fst (operator_assign sample_buffer (push_back_n 12))) = 12 ∧
  capacity (snd (operator_assign sample_buffer (push_back_n 12))) = 6 ∧
  to_list (fst (assign_from_lvalue sample_buffer 9 wrapped_buffer))
  = [Some 3; Some 4] ∧
  capacity (fst (assign_from_lvalue sample_buffer 9 wrapped_buffer)) = 3.
Proof.
  assert (models (push_back_n 12) (replicate 12 0)) as H12.
  { apply (push_back_n_models 12). by vm_compute. }
  destruct (assign_swaps_with_parameter sample_buffer [10; 20; 30]
              (push_back_n 12) (replicate 12 0) 9 wrapped_buffer [3; 4]
              models_sample_buffer H12 models_wrapped_buffer)
    as ((_ & Hs & Hc & _) & (_ & _ & Hc') & (Hl & Hcl & _)).
  split.
  { split; [exact models_sample_buffer|].
    split; [exact H12 | exact models_wrapped_buffer]. }
  split; [exact Hc|]. split; [exact Hs|]. split; [exact Hc'|].
  split; [|exact Hcl]. rewrite Hl. reflexivity.
Defined.

Lemma iterator_arithmetic_instance :
  0 ≤ arr_index (nd (iter_at 7 0)) < 2 ^ 64 ∧
  iter_minus (iter_plus (iter_at 7 0) (-1)) (-1) = iter_at 7 0 ∧
  iter_incr (iter_decr (iter_at 7 0)) = iter_at 7 0 ∧
  iter_diff (iter_plus (iter_at 7 0) (-1)) (iter_at 7 0) = -1.
Proof.
  assert (0 ≤ arr_index (nd (iter_at 7 0)) < 2 ^ 64) as Hi by (by vm_compute).
  destruct (iterator_arithmetic (iter_at 7 0) 2 (-1) Hi)
    as (Hm & _ & _ & Hd & _ & Hdiff).
  split; [exact Hi|]. split; [exact Hm|]. split; [exact Hd|].
  apply Hdiff. by vm_compute.
Defined.

Lemma iterator_order_matches_difference_instance :
  (buf (nd (iter_at 7 1)) = buf (nd (iter_at 7 2)) ∧
   0 ≤ arr_index (nd (iter_at 7 1)) < 2 ^ 63 ∧
   0 ≤ arr_index (nd (iter_at 7 2)) < 2 ^ 63) ∧
  iter_lt (iter_at 7 1) (iter_at 7 2)
  = (iter_diff (iter_at 7 1) (iter_at 7 2) <? 0).
Proof.
  assert (buf (nd (iter_at 7 1)) = buf (nd (iter_at 7 2))) as E by reflexivity.
  assert (0 ≤ arr_index (nd (iter_at 7 1)) < 2 ^ 63) as H1 by (by vm_compute).
  assert (0 ≤ arr_index (nd (iter_at 7 2)) < 2 ^ 63) as H2 by (by vm_compute).
  destruct (iterator_order_matches_difference (iter_at 7 1) (iter_at 7 2)
              E H1 H2) as (Hlt & _).
  split; [split; [exact E | split; [exact H1 | exact H2]] | exact Hlt].
Defined.

Lemma begin_end_range_instance :
  models wrapped_buffer [3; 4] ∧
  iter_diff (end_ 7 wrapped_buffer) (begin 7 wrapped_buffer) = 2 ∧
  iter_plus (begin 7 wrapped_buffer) 2 = end_ 7 wrapped_buffer ∧
  iter_lt (iter_plus (begin 7 wrapped_buffer) 1) (end_ 7 wrapped_buffer) = true.
Proof.
  destruct (begin_end_range 7 wrapped_buffer [3; 4] models_wrapped_buffer)
    as (Hd & Hp & _ & _ & Hi).
  destruct (Hi 1) as (Hlt & _); [by vm_compute|].
  split; [exact models_wrapped_buffer|].
  split; [exact Hd|]. split; [exact Hp | exact Hlt].
Defined.

Lemma before_begin_compares_greater_instance :
  models sample_buffer [10; 20; 30] ∧
  iter_diff (iter_decr (begin 7 sample_buffer)) (begin 7 sample_buffer) = -1 ∧
  iter_gt (iter_decr (begin 7 sample_buffer)) (end_ 7 sample_buffer) = true.
Proof.
  destruct (before_begin_compares_greater 7 sample_buffer [10; 20; 30]
              models_sample_buffer) as (_ & Hd & _ & _ & Hg).
  split; [exact models_sample_buffer|]. split; [exact Hd | exact Hg].
Defined.

Lemma capacity_never_shrinks_instance :
  (models (@empty_buffer Z) [] ∧
   pops_valid (length (@nil Z))
     ([PushBack 1; PopFront; PushBack 2] ++ [PushBack 3; PushFront 4]) = true ∧
   Z.of_nat (length ([PushBack 1; PopFront; PushBack 2]
                     ++ [PushBack 3; PushFront 4])) < 2 ^ 61) ∧
  capacity (run (@empty_buffer Z) [PushBack 1; PopFront; PushBack 2])
  ≤ capacity (run (@empty_buffer Z)
                ([PushBack 1; PopFront; PushBack 2]
                 ++ [PushBack 3; PushFront 4])).
Proof.
  assert (pops_valid (length (@nil Z))
            ([PushBack 1; PopFront; PushBack 2] ++ [PushBack 3; PushFront 4])
          = true) as Hv by reflexivity.
  assert (Z.of_nat (length ([PushBack 1; PopFront; PushBack 2]
                            ++ [PushBack 3; PushFront 4])) < 2 ^ 61) as Hn
    by (by vm_compute).
  destruct (capacity_never_shrinks (@empty_buffer Z) []
              [PushBack 1; PopFront; PushBack 2] [PushBack 3; PushFront 4]
              models_empty_buffer Hv Hn) as (_ & Hle & _).
  split; [split; [exact models_empty_buffer | split; [exact Hv | exact Hn]]|].
  exact Hle.
Defined.

Lemma runs_without_push_back_instance :
  (models wrapped_buffer [3; 4] ∧
   no_push_back [PushFront 2; PopBack; PopFront; PopFront; PushFront 1] = true ∧
   pops_valid (length [3; 4])
     [PushFront 2; PopBack; PopFront; PopFront; PushFront 1] = true ∧
   4 * (cap wrapped_buffer
        + Z.of_nat (pushes [PushFront 2; PopBack; PopFront; PopFront;
                            PushFront (1 : Z)])) + 6 ≤ INT_MAX) ∧
  trace wrapped_buffer [PushFront 2; PopBack; PopFront; PopFront; PushFront 1]
  = deque_trace [3; 4] [PushFront 2; PopBack; PopFront; PopFront; PushFront 1] ∧
  to_list (run wrapped_buffer
             [PushFront 2; PopBack; PopFront; PopFront; PushFront 1])
  = [Some 1].
Proof.
  assert (no_push_back [PushFront 2; PopBack; PopFront; PopFront;
                        PushFront (1 : Z)] = true) as Hnp by reflexivity.
  assert (pops_valid (length [3; 4])
            [PushFront 2; PopBack; PopFront; PopFront; PushFront (1 : Z)]
          = true) as Hv by reflexivity.
  assert (4 * (cap wrapped_buffer
               + Z.of_nat (pushes [PushFront 2; PopBack; PopFront; PopFront;
                                   PushFront (1 : Z)])) + 6 ≤ INT_MAX) as Hmax
    by (by vm_compute).
  destruct (runs_without_push_back wrapped_buffer [3; 4]
              [PushFront 2; PopBack; PopFront; PopFront; PushFront 1]
              models_wrapped_buffer Hnp Hv Hmax) as (Ht & Hl & _).
  split.
  { split; [exact models_wrapped_buffer|]. split; [exact Hnp|].
    split; [exact Hv | exact Hmax]. }
  split; [exact Ht | exact Hl].
Defined.

Lemma fifo_runs_never_drained_instance :
  (models (@empty_buffer Z) [] ∧
   ((@nil Z) ≠ [] ∨ head (@empty_buffer Z) = 0) ∧
   never_drained (length (@nil Z))
     [PushBack 1; PushBack 2; PopFront; PushBack 3; PopFront] = true ∧
   4 * (cap (@empty_buffer Z)
        + Z.of_nat (pushes [PushBack 1; PushBack 2; PopFront; PushBack 3;
                            @PopFront Z])) + 6 ≤ INT_MAX) ∧
  trace (@empty_buffer Z) [PushBack 1; PushBack 2; PopFront; PushBack 3; PopFront]
  = deque_trace [] [PushBack 1; PushBack 2; PopFront; PushBack 3; PopFront] ∧
  to_list (run (@empty_buffer Z)
             [PushBack 1; PushBack 2; PopFront; PushBack 3; PopFront])
  = [Some 3].
Proof.
  assert ((@nil Z) ≠ [] ∨ head (@empty_buffer Z) = 0) as Hg by (by right).
  assert (never_drained (length (@nil Z))
            [PushBack 1; PushBack 2; PopFront; PushBack 3; @PopFront Z] = true)
    as Hnd by reflexivity.
  assert (4 * (cap (@empty_buffer Z)
               + Z.of_nat (pushes [PushBack 1; PushBack 2; PopFront;
                                   PushBack 3; @PopFront Z])) + 6 ≤ INT_MAX)
    as Hmax by (by vm_compute).
  destruct (fifo_runs_never_drained (@empty_buffer Z) []
              [PushBack 1; PushBack 2; PopFront; PushBack 3; PopFront]
              models_empty_buffer Hg Hnd Hmax) as (Ht & Hl & _).
  split.
  { split; [exact models_empty_buffer|]. split; [exact Hg|].
    split; [exact Hnd | exact Hmax]. }
  split; [exact Ht | exact Hl].
Defined.

Lemma delete_array_destroys_range_instance :
  (0 ≤ 0 < 2 ^ 64 - 1 ∧ 0 ≤ 1 < 2 ^ 64 - 1 ∧
   (Z.to_nat (1 + 1 - 0) < 3)%nat) ∧
  (∃ d', delete_array_loop 3
           (Block (<[0 := 5]> (<[1 := 6]> (<[2 := 7]> ∅))) false) 0 1
         = Some d' ∧
         slots d' !! 0 = None ∧ slots d' !! 1 = None ∧
         slots d' !! 2 = Some 7 ∧ released d' = false) ∧
  delete_array_loop 1000
    (Block (<[0 := 5]> (<[1 := 6]> (<[2 := 7]> ∅))) false) (2 ^ 64 - 1) 1
  = None.
Proof.
  assert (0 ≤ 0 < 2 ^ 64 - 1) as Hlo by (by vm_compute).
  assert (0 ≤ 1 < 2 ^ 64 - 1) as Hhi by (by vm_compute).
  assert (Z.to_nat (1 + 1 - 0) < 3)%nat as Hfuel by (vm_compute; lia).
  destruct (delete_array_destroys_range 3
              (Block (<[0 := 5]> (<[1 := 6]> (<[2 := 7]> ∅))) false) 0 1
              Hlo Hhi Hfuel) as ((d' & Hd & Hs & Hr & _) & Hnever).
  split; [split; [exact Hlo | split; [exact Hhi | exact Hfuel]]|].
  split; [|exact (Hnever 1000%nat)].
  exists d'. split; [exact Hd|].
  split; [exact (Hs 0)|]. split; [exact (Hs 1)|].
  split; [exact (Hs 2) | exact Hr].
Defined.

Lemma reserve_fault_unwrapped_instance :
  (models sample_buffer [10; 20; 30] ∧
   head sample_buffer + sz sample_buffer ≤ cap sample_buffer ∧
   cap sample_buffer ≤ 7 ∧ cap sample_buffer ≤ 2 ^ 61 ∧
   0 < 4 ∧ (7 + 1) * 4 < 2 ^ 64 ∧ (2 ^ 61 + 1) * 4 < 2 ^ 64 ∧
   (0 < length [10; 20; 30])%nat ∧ (2 < length [10; 20; 30])%nat) ∧
  reserve_new 4 (λ bytes, bytes <? 2 ^ 40) (Some 0%nat) sample_buffer 7
  = Propagated None sample_buffer (Some (Block ∅ false)) ∧
  reserve_new 4 (λ bytes, bytes <? 2 ^ 40) (Some 2%nat) sample_buffer 7
  = Propagated None sample_buffer (Some (Block ∅ true)) ∧
  ¬ strong_guarantee (Some 0%nat) sample_buffer
      (reserve_new 4 (λ bytes, bytes <? 2 ^ 40) (Some 0%nat) sample_buffer 7) ∧
  reserve_new 4 (λ bytes, bytes <? 2 ^ 40) (Some 0%nat) sample_buffer (2 ^ 61)
  = Propagated (Some 0%nat) sample_buffer None.
Proof.
  assert (head sample_buffer + sz sample_buffer ≤ cap sample_buffer) as Hun
    by (by vm_compute).
  assert (cap sample_buffer ≤ 7) as Hn by (by vm_compute).
  assert (cap sample_buffer ≤ 2 ^ 61) as Hn' by (by vm_compute).
  assert (0 < 4) as Hs by lia.
  assert ((7 + 1) * 4 < 2 ^ 64) as Hreq by (by vm_compute).
  assert ((2 ^ 61 + 1) * 4 < 2 ^ 64) as Hreq' by (by vm_compute).
  assert (0 < length [10; 20; 30])%nat as H0 by (simpl; lia).
  assert (2 < length [10; 20; 30])%nat as H2 by (simpl; lia).
  destruct (reserve_fault_unwrapped 4 (λ bytes, bytes <? 2 ^ 40)
              sample_buffer [10; 20; 30] 7 0
              models_sample_buffer Hun Hn Hs Hreq H0) as (_ & Hserved0).
  destruct (reserve_fault_unwrapped 4 (λ bytes, bytes <? 2 ^ 40)
              sample_buffer [10; 20; 30] 7 2
              models_sample_buffer Hun Hn Hs Hreq H2) as (_ & Hserved2).
  destruct (reserve_fault_unwrapped 4 (λ bytes, bytes <? 2 ^ 40)
              sample_buffer [10; 20; 30] (2 ^ 61) 0
              models_sample_buffer Hun Hn' Hs Hreq' H0) as (Hrefused & _).
  destruct Hserved0 as (Hr0 & Hs0); [by vm_compute|].
  destruct Hserved2 as (Hr2 & _); [by vm_compute|].
  destruct (Hrefused ltac:(by vm_compute) (Some 0%nat)) as (Hbad & _).
  split.
  { split; [exact models_sample_buffer|]. split; [exact Hun|].
    split; [exact Hn|]. split; [exact Hn'|]. split; [exact Hs|].
    split; [exact Hreq|]. split; [exact Hreq'|]. split; [exact H0 | exact H2]. }
  split; [exact Hr0|]. split; [exact Hr2|].
  split; [|exact Hbad].
  intros Hsg. apply Hs0 in Hsg. lia.
Defined.

Lemma push_back_with_room_is_strong_instance :
  (0 ≤ sz sample_buffer < 2 ^ 63 ∧ sz sample_buffer + 1 < cap sample_buffer) ∧
  strong_guarantee (Some 1%nat) sample_buffer
    (push_back_throwing (Some 1%nat) sample_buffer 40) ∧
  ∃ c', push_back_throwing (Some 2%nat) sample_buffer 40
        = Completed c' (push_back sample_buffer 40) false.
Proof.
  assert (0 ≤ sz sample_buffer < 2 ^ 63) as Hs by (by vm_compute).
  assert (sz sample_buffer + 1 < cap sample_buffer) as Hroom by (by vm_compute).
  destruct (push_back_with_room_is_strong (Some 1%nat) sample_buffer 40
              Hs Hroom) as (Hsg & _).
  destruct (push_back_with_room_is_strong (Some 2%nat) sample_buffer 40
              Hs Hroom) as (_ & _ & Hc).
  split; [split; [exact Hs | exact Hroom]|].
  split; [exact Hsg|]. by apply Hc.
Defined.

Lemma iterators_after_push_pop_instance :
  (models (push_back_n 2) [0; 0] ∧ 2 * cap (push_back_n 2) ≤ INT_MAX ∧
   0 ≤ arr_index (nd (iter_at 7 1)) < size (push_back_n 2)) ∧
  capacity (push_back (push_back_n 2) 5) ≠ capacity (push_back_n 2) ∧
  iter_deref (push_back (push_back_n 2) 5) (iter_at 7 1)
  = iter_deref (push_back_n 2) (iter_at 7 1) ∧
  iter_deref (push_front (push_back_n 2) 5) (iter_incr (iter_at 7 1))
  = iter_deref (push_back_n 2) (iter_at 7 1).
Proof.
  assert (2 * cap (push_back_n 2) ≤ INT_MAX) as Hmax by (by vm_compute).
  assert (0 ≤ arr_index (nd (iter_at 7 1)) < size (push_back_n 2)) as Hi
    by (by vm_compute).
  destruct (iterators_after_push_pop (push_back_n 2) [0; 0] 5 (iter_at 7 1)
              models_push_back_2 Hmax Hi) as (Hpb & Hpf & _).
  split; [split; [exact models_push_back_2 | split; [exact Hmax | exact Hi]]|].
  split; [by vm_compute|]. split; [exact Hpb | exact Hpf].
Defined.

Lemma copyToArray_linearises_instance :
  models wrapped_buffer [3; 4] ∧
  ∃ d, copyToArray wrapped_buffer (Some ∅) = Some d ∧
       d !! 0 = at_index wrapped_buffer 0 ∧
       d !! 1 = at_index wrapped_buffer 1 ∧
       d !! 2 = None.
Proof.
  destruct (copyToArray_linearises wrapped_buffer [3; 4] models_wrapped_buffer)
    as (d & Hd & Hin & Hout).
  split; [exact models_wrapped_buffer|].
  exists d. split; [exact Hd|].
  split; [apply Hin; by vm_compute|].
  split; [apply Hin; by vm_compute|].
  apply Hout. vm_compute. intros [_ ?]. done.
Defined.

Lemma pop_on_empty_wraps_size_instance :
  (models (clear sample_buffer) [] ∧ 0 < capacity (clear sample_buffer)) ∧
  size (pop_back (clear sample_buffer)) = 18446744073709551615 ∧
  ¬ invariant (pop_front (clear sample_buffer)).
Proof.
  pose proof (proj1 (clear_models _ _ models_sample_buffer)) as Hm.
  assert (0 < capacity (clear sample_buffer)) as Hc by (by vm_compute).
  destruct (pop_on_empty_wraps_size (clear sample_buffer) Hm Hc)
    as (Hs & _ & _ & Hi).
  split; [split; [exact Hm | exact Hc]|].
  split; [exact Hs | exact Hi].
Defined.

End FurtherInstances.
